(** * iOS test automator: the extraction, audit and retrieval core

    A shallow embedding of [python-rag/ios_rag_mvp.py] (block extraction,
    chunk building, accessibility audit, ingestion) and of the parts of
    [python-backend/utils.py], [agents/test_generator.py] and [main.py]
    that assemble the retrieval context and validate the test type.

    Python strings are sequences of Unicode code points: they are modelled
    as lists of code points, so that the character classes of [re], the
    whitespace of [str.strip], the line boundaries of [str.splitlines] and
    the UTF-8 encoder of [sha1] can be written as the interpreter has them. *)

From Stdlib Require Import Strings.String Strings.Ascii.
From Stdlib Require Import List ZArith NArith Arith Bool Lia.
From Stdlib Require Import DecimalString Sorted.
Import ListNotations.

Set Implicit Arguments.

(** ** Python strings *)

Definition char := N.
Definition str := list char.

(** A source literal, as the list of its code points. *)
Definition lit (s : string) : str := map N_of_ascii (list_ascii_of_string s).

Definition char_eqb (a b : char) : bool := N.eqb a b.

Fixpoint str_eqb (a b : str) : bool :=
  match a, b with
  | [], [] => true
  | x :: a', y :: b' => char_eqb x y && str_eqb a' b'
  | _, _ => false
  end.

Fixpoint mem_char (c : char) (l : list char) : bool :=
  match l with
  | [] => false
  | x :: l' => char_eqb c x || mem_char c l'
  end.

(** Lexicographic order on code points: the order of [sorted] on strings. *)
Fixpoint str_ltb (a b : str) : bool :=
  match a, b with
  | _, [] => false
  | [], _ :: _ => true
  | x :: a', y :: b' => N.ltb x y || (N.eqb x y && str_ltb a' b')
  end.

(** The code points for which [str.isspace] holds; [str.strip] and the
    [\s] class of [re] both use it. *)
Definition is_space (c : char) : bool :=
  ((9 <=? c) && (c <=? 13) || (28 <=? c) && (c <=? 32)
   || (c =? 133) || (c =? 160) || (c =? 5760)
   || (8192 <=? c) && (c <=? 8202)
   || (c =? 8232) || (c =? 8233) || (c =? 8239) || (c =? 8287)
   || (c =? 12288))%N.

(** The line boundaries of [str.splitlines]. *)
Definition is_linebreak (c : char) : bool :=
  ((10 <=? c) && (c <=? 13) || (28 <=? c) && (c <=? 30)
   || (c =? 133) || (c =? 8232) || (c =? 8233))%N.

Fixpoint lstrip (s : str) : str :=
  match s with
  | [] => []
  | c :: s' => if is_space c then lstrip s' else s
  end.

Definition rstrip (s : str) : str := rev (lstrip (rev s)).

(** [s.strip()] *)
Definition strip (s : str) : str := rstrip (lstrip s).

(** [s[a:b]] for indices [0 <= a], [0 <= b]. *)
Definition slice (s : str) (a b : nat) : str := firstn (b - a) (skipn a s).

(** [sep.join(l)] *)
Fixpoint join (sep : str) (l : list str) : str :=
  match l with
  | [] => []
  | [x] => x
  | x :: l' => x ++ sep ++ join sep l'
  end.

(** [s.split(d)] for a one-character separator. *)
Fixpoint split_on (d : char) (s : str) : list str :=
  match s with
  | [] => [[]]
  | c :: s' =>
      if char_eqb c d then [] :: split_on d s'
      else match split_on d s' with
           | h :: t => (c :: h) :: t
           | [] => [[c]]
           end
  end.

(** [s.splitlines()]: [cur] is the line being read, reversed. *)
Fixpoint splitlines_from (s : str) (cur : str) : list str :=
  match s with
  | [] => match cur with [] => [] | _ => [rev cur] end
  | c :: s' =>
      if char_eqb c 13%N then
        match s' with
        | c' :: s'' =>
            if char_eqb c' 10%N then rev cur :: splitlines_from s'' []
            else rev cur :: splitlines_from s' []
        | [] => rev cur :: splitlines_from s' []
        end
      else if is_linebreak c then rev cur :: splitlines_from s' []
      else splitlines_from s' (c :: cur)
  end.

Definition splitlines (s : str) : list str := splitlines_from s [].

(** The first index [>= i] of [skipn] where [c] occurs, counted from [i]. *)
Fixpoint index_from (c : char) (s : str) (i : nat) : option nat :=
  match s with
  | [] => None
  | x :: s' => if char_eqb x c then Some i else index_from c s' (S i)
  end.

(** [text.find(c, start)] for a one-character needle: a negative [start]
    counts from the end of the text, and [None] stands for [-1]. *)
Definition find_char (c : char) (text : str) (start : Z) : option nat :=
  let n := Z.of_nat (length text) in
  let st := if (start <? 0)%Z then Z.max 0 (start + n) else start in
  let a := Z.to_nat st in
  index_from c (skipn a text) a.

Definition LBRACE : char := 123%N.
Definition RBRACE : char := 125%N.
Definition NEWLINE : char := 10%N.
Definition QUOTE : char := 34%N.
Definition BAR : char := 124%N.

(** ** The brace matcher *)

(** The loop of [find_matching_brace]: [s] is [text[i:]], [depth] the
    running depth.  [None] is the loop running off the end of the text. *)
Fixpoint brace_loop (s : str) (i : nat) (depth : Z) : option nat :=
  match s with
  | [] => None
  | c :: s' =>
      if char_eqb c LBRACE then brace_loop s' (S i) (depth + 1)
      else if char_eqb c RBRACE then
        if (depth - 1 =? 0)%Z then Some i
        else brace_loop s' (S i) (depth - 1)
      else brace_loop s' (S i) depth
  end.

(** [find_matching_brace(text, open_index)]; the result is an integer
    because [n - 1] is [-1] on the empty text. *)
Definition find_matching_brace (text : str) (open_index : nat) : Z :=
  match brace_loop (skipn open_index text) open_index 0 with
  | Some i => Z.of_nat i
  | None => Z.of_nat (length text) - 1
  end.

(** ** Regular expressions

    The patterns of the source use literals, character classes, greedy
    repetition of one class, optional and capturing groups, alternation,
    [^] under [(?m)] and [\b].  [rmatch] is a backtracking matcher in
    continuation style with the priorities of [re]: alternatives left to
    right, repetition as long as possible first. *)

(** What the interpreter's Unicode database decides for code points
    outside ASCII: [str.isalnum] (the [\w] class) and [str.lower]. *)
Class UnicodeDb := {
  uni_alnum : char -> bool;
  uni_lower : str -> str
}.

Inductive cset :=
| CSpace                      (* \s *)
| CWord                       (* \w *)
| CIdStart                    (* [A-Za-z_] *)
| CNot (l : list char).       (* [^...] *)

Inductive re :=
| Eps
| Lit (s : str)
| Set1 (c : cset)
| Star (c : cset)
| Plus (c : cset)
| Seq (a b : re)
| Alt (a b : re)
| Opt (a : re)
| Group (n : nat) (a : re)
| Bol                         (* ^ under re.MULTILINE *)
| WordB.                      (* \b *)

Fixpoint cat (l : list re) : re :=
  match l with
  | [] => Eps
  | [a] => a
  | a :: l' => Seq a (cat l')
  end.

Fixpoint alts (l : list re) : re :=
  match l with
  | [] => Eps
  | [a] => a
  | a :: l' => Alt a (alts l')
  end.

Definition is_ascii_letter (c : char) : bool :=
  ((65 <=? c) && (c <=? 90) || (97 <=? c) && (c <=? 122))%N.

Definition is_ascii_digit (c : char) : bool := ((48 <=? c) && (c <=? 57))%N.

Definition is_word `{UnicodeDb} (c : char) : bool :=
  if (c <? 128)%N then is_ascii_letter c || is_ascii_digit c || char_eqb c 95%N
  else uni_alnum c.

Definition in_cset `{UnicodeDb} (cs : cset) (c : char) : bool :=
  match cs with
  | CSpace => is_space c
  | CWord => is_word c
  | CIdStart => is_ascii_letter c || char_eqb c 95%N
  | CNot l => negb (mem_char c l)
  end.

(** Capture groups: group number, start and end offsets; the latest
    assignment first. *)
Definition caps := list (nat * (nat * nat)).

(** Consume the literal [l] at the head of [s]. *)
Fixpoint eat (l s : str) (p : option char) (i : nat)
  : option (option char * nat * str) :=
  match l with
  | [] => Some (p, i, s)
  | c :: l' =>
      match s with
      | x :: s' => if char_eqb c x then eat l' s' (Some x) (S i) else None
      | [] => None
      end
  end.

Definition at_bol (p : option char) : bool :=
  match p with
  | None => true
  | Some c => char_eqb c NEWLINE
  end.

Definition word_before `{UnicodeDb} (p : option char) : bool :=
  match p with
  | None => false
  | Some c => is_word c
  end.

Definition word_after `{UnicodeDb} (s : str) : bool :=
  match s with
  | [] => false
  | c :: _ => is_word c
  end.

Section Matcher.
Context `{UnicodeDb}.
Variable A : Type.

(** The continuation gets the last character consumed, the offset and
    the rest of the text. *)
Definition kont := option char -> nat -> str -> caps -> option A.

Fixpoint star (c : cset) (p : option char) (i : nat) (s : str)
              (k : option char -> nat -> str -> option A) : option A :=
  match s with
  | x :: s' =>
      if in_cset c x then
        match star c (Some x) (S i) s' k with
        | Some r => Some r
        | None => k p i s
        end
      else k p i s
  | [] => k p i s
  end.

Fixpoint rmatch (r : re) (p : option char) (i : nat) (s : str) (g : caps)
                (k : kont) : option A :=
  match r with
  | Eps => k p i s g
  | Lit l =>
      match eat l s p i with
      | Some (p', i', s') => k p' i' s' g
      | None => None
      end
  | Set1 c =>
      match s with
      | x :: s' => if in_cset c x then k (Some x) (S i) s' g else None
      | [] => None
      end
  | Star c => star c p i s (fun p' i' s' => k p' i' s' g)
  | Plus c =>
      match s with
      | x :: s' =>
          if in_cset c x
          then star c (Some x) (S i) s' (fun p' i' s' => k p' i' s' g)
          else None
      | [] => None
      end
  | Seq a b => rmatch a p i s g (fun p' i' s' g' => rmatch b p' i' s' g' k)
  | Alt a b =>
      match rmatch a p i s g k with
      | Some x => Some x
      | None => rmatch b p i s g k
      end
  | Opt a =>
      match rmatch a p i s g k with
      | Some x => Some x
      | None => k p i s g
      end
  | Group n a =>
      rmatch a p i s g (fun p' i' s' g' => k p' i' s' ((n, (i, i')) :: g'))
  | Bol => if at_bol p then k p i s g else None
  | WordB => if xorb (word_before p) (word_after s) then k p i s g else None
  end.
End Matcher.

(** A match object: [m.start()], [m.end()] and the groups. *)
Record Match := { m_start : nat; m_end : nat; m_groups : caps }.

(** The pattern matched at offset [i], where [s] is [text[i:]] and [p] is
    [text[i-1]]. *)
Definition match_at `{UnicodeDb} (r : re) (p : option char) (i : nat) (s : str)
  : option Match :=
  rmatch r p i s []
    (fun _ i' _ g => Some {| m_start := i; m_end := i'; m_groups := g |}).

(** [pattern.finditer(text)]: the matches from left to right, each search
    starting where the last match ended ([skip] counts the characters still
    covered by it).  None of the patterns of this program matches the empty
    string; after an empty match the scan moves one character on. *)
Fixpoint finditer_from `{UnicodeDb} (r : re) (p : option char) (i : nat)
                       (s : str) (skip : nat) : list Match :=
  match s with
  | [] =>
      match skip with
      | O => match match_at r p i s with Some m => [m] | None => [] end
      | S _ => []
      end
  | x :: s' =>
      match skip with
      | S k => finditer_from r (Some x) (S i) s' k
      | O =>
          match match_at r p i s with
          | Some m => m :: finditer_from r (Some x) (S i) s' (m_end m - i - 1)
          | None => finditer_from r (Some x) (S i) s' 0
          end
      end
  end.

Definition finditer `{UnicodeDb} (r : re) (text : str) : list Match :=
  finditer_from r None 0 text 0.

Fixpoint lookup_group (n : nat) (g : caps) : option (nat * nat) :=
  match g with
  | [] => None
  | (n', se) :: g' => if Nat.eqb n n' then Some se else lookup_group n g'
  end.

(** [m.group(n)]: [None] when the group took no part in the match. *)
Definition group (text : str) (m : Match) (n : nat) : option str :=
  match lookup_group n (m_groups m) with
  | Some (a, b) => Some (slice text a b)
  | None => None
  end.

(** [pattern.findall(text)] for a pattern with one group: the text of
    group 1 of every match ([''] when it took no part). *)
Definition findall1 `{UnicodeDb} (r : re) (text : str) : list str :=
  map (fun m => match group text m 1 with Some s => s | None => [] end)
      (finditer r text).

(** [len(pattern.findall(text))] *)
Definition count_matches `{UnicodeDb} (r : re) (text : str) : nat :=
  length (finditer r text).

(** [pattern.search(text)] as a truth value. *)
Definition search `{UnicodeDb} (r : re) (text : str) : bool :=
  match finditer r text with
  | [] => false
  | _ :: _ => true
  end.

(** ** The patterns of the program *)

Definition modifiers : re :=
  alts [Lit (lit "public"); Lit (lit "internal"); Lit (lit "private");
        Lit (lit "fileprivate"); Lit (lit "open")].

Definition identifier : re := Seq (Set1 CIdStart) (Star CWord).

Definition SWIFTUI_VIEW_START_RE : re :=
  cat [Bol; Star CSpace; Opt (Group 1 modifiers); Star CSpace;
       Lit (lit "struct"); Plus CSpace; Group 2 identifier; Star CSpace;
       Lit (lit ":"); Star CSpace; Lit (lit "View"); Star CSpace;
       Lit [LBRACE]].

Definition UIKIT_VC_START_RE : re :=
  cat [Bol; Star CSpace; Opt (Group 1 modifiers); Star CSpace;
       Opt (Group 2 (Seq (Lit (lit "final")) (Plus CSpace)));
       Lit (lit "class"); Plus CSpace; Group 3 identifier; Star CSpace;
       Lit (lit ":"); Star CSpace;
       Group 4 (cat [Star (CNot [LBRACE; NEWLINE]); WordB;
                     Lit (lit "UIViewController"); WordB;
                     Star (CNot [LBRACE; NEWLINE])]);
       Star CSpace; Lit [LBRACE]].

Definition quoted : re :=
  cat [Lit [QUOTE]; Group 1 (Plus (CNot [QUOTE])); Lit [QUOTE]].

Definition SWIFTUI_A11Y_ID_RE : re :=
  cat [Lit (lit ".accessibilityIdentifier("); Star CSpace; quoted;
       Star CSpace; Lit (lit ")")].

Definition UIKIT_A11Y_ID_RE : re :=
  cat [Lit (lit ".accessibilityIdentifier"); Star CSpace; Lit (lit "=");
       Star CSpace; quoted].

Definition SWIFTUI_BUTTON_RE : re :=
  cat [Lit (lit "Button("); Star CSpace; quoted; Star CSpace; Lit (lit ")")].

Definition NAV_PATTERNS : list re :=
  [cat [WordB; Lit (lit "navigationController?."); Star CSpace;
        Lit (lit "pushViewController"); Star CSpace; Lit (lit "(")];
   cat [WordB; Lit (lit "pushViewController"); Star CSpace; Lit (lit "(")];
   cat [WordB; Lit (lit "present"); Star CSpace; Lit (lit "(")];
   cat [WordB; Lit (lit "NavigationStack"); WordB];
   cat [WordB; Lit (lit "navigationDestination"); Star CSpace; Lit (lit "(")];
   cat [WordB; Lit (lit "sheet"); Star CSpace; Lit (lit "(")];
   cat [WordB; Lit (lit "fullScreenCover"); Star CSpace; Lit (lit "(")]].

Definition SWIFTUI_INTERACTIVE_RE : re :=
  cat [WordB;
       Group 1 (alts [Lit (lit "Button"); Lit (lit "TextField");
                      Lit (lit "SecureField"); Lit (lit "Toggle");
                      Lit (lit "Picker")]);
       WordB].

Definition UIKIT_INTERACTIVE_RE : re :=
  cat [WordB;
       Group 1 (alts [Lit (lit "UIButton"); Lit (lit "UITextField");
                      Lit (lit "UISwitch"); Lit (lit "UISegmentedControl");
                      Lit (lit "UITableView"); Lit (lit "UICollectionView")]);
       WordB].

(** ** Values, dictionaries and JSON *)

(** The values a chunk's metadata holds: strings, integers, and [None]
    (the name of a block whose name group took no part in the match). *)
Inductive value :=
| VNone
| VInt (z : Z)
| VStr (s : str).

(** A [dict] with string keys, in insertion order. *)
Definition dict := list (str * value).

Fixpoint dict_get (d : dict) (k : str) : option value :=
  match d with
  | [] => None
  | (k', v) :: d' => if str_eqb k k' then Some v else dict_get d' k
  end.

(** [{**d, k: v}]: the key keeps its place when it is already there. *)
Fixpoint dict_set (d : dict) (k : str) (v : value) : dict :=
  match d with
  | [] => [(k, v)]
  | (k', v') :: d' =>
      if str_eqb k k' then (k', v) :: d' else (k', v') :: dict_set d' k v
  end.

Definition value_eqb (a b : value) : bool :=
  match a, b with
  | VNone, VNone => true
  | VInt x, VInt y => Z.eqb x y
  | VStr x, VStr y => str_eqb x y
  | _, _ => false
  end.

(** Truth value of a Python object. *)
Definition truthy (v : value) : bool :=
  match v with
  | VNone => false
  | VInt z => negb (Z.eqb z 0)
  | VStr s => match s with [] => false | _ => true end
  end.

(** [str(z)] for an integer. *)
Definition int_str (z : Z) : str := lit (NilZero.string_of_int (Z.to_int z)).

(** [str(v)] *)
Definition py_str (v : value) : str :=
  match v with
  | VNone => lit "None"
  | VInt z => int_str z
  | VStr s => s
  end.

Unset Elimination Schemes.
Inductive json :=
| JNull
| JBool (b : bool)
| JInt (z : Z)
| JStr (s : str)
| JList (l : list json)
| JObj (l : list (str * json)).
Set Elimination Schemes.

Definition json_of_value (v : value) : json :=
  match v with
  | VNone => JNull
  | VInt z => JInt z
  | VStr s => JStr s
  end.

Definition json_of_dict (d : dict) : json :=
  JObj (map (fun kv => (fst kv, json_of_value (snd kv))) d).

Definition hex_digit (n : N) : char :=
  (if n <? 10 then 48 + n else 87 + n)%N.

(** One character of a JSON string under [ensure_ascii=False]: the quote,
    the backslash and the control characters are escaped. *)
Definition json_escape (c : char) : str :=
  if char_eqb c 34%N then lit "\" ++ [QUOTE]
  else if char_eqb c 92%N then lit "\\"
  else if char_eqb c 10%N then lit "\n"
  else if char_eqb c 13%N then lit "\r"
  else if char_eqb c 9%N then lit "\t"
  else if char_eqb c 8%N then lit "\b"
  else if char_eqb c 12%N then lit "\f"
  else if (c <? 32)%N then lit "\u00" ++ [hex_digit (c / 16)%N; hex_digit (c mod 16)%N]
  else [c].

Definition json_string (s : str) : str :=
  [QUOTE] ++ flat_map json_escape s ++ [QUOTE].

(** [json.dumps(obj, ensure_ascii=False, separators=(",", ":"))]: the keys
    of an object are written in the order the dictionary holds them. *)
Fixpoint safe_json (j : json) : str :=
  match j with
  | JNull => lit "null"
  | JBool true => lit "true"
  | JBool false => lit "false"
  | JInt z => int_str z
  | JStr s => json_string s
  | JList l => lit "[" ++ join (lit ",") (map safe_json l) ++ lit "]"
  | JObj l =>
      lit "{"
      ++ join (lit ",")
           (map (fun kv => json_string (fst kv) ++ lit ":" ++ safe_json (snd kv)) l)
      ++ lit "}"
  end.

(** ** Sorted sets: [sorted(set(l))] *)

Section SortedSet.
Variable T : Type.
Variable ltb eqb : T -> T -> bool.

Fixpoint set_insert (x : T) (l : list T) : list T :=
  match l with
  | [] => [x]
  | y :: l' =>
      if ltb x y then x :: l
      else if eqb x y then l
      else y :: set_insert x l'
  end.

Definition sorted_set (l : list T) : list T := fold_right set_insert [] l.
End SortedSet.

Definition sorted_strs (l : list str) : list str := sorted_set str_ltb str_eqb l.

(** ** Chunks *)

Record Chunk := { text : str; meta : dict }.

Definition meta_list_to_str (items : list str) (limit : nat) : str :=
  match items with
  | [] => []
  | _ => join [BAR] (firstn limit items)
  end.

Definition name_value (o : option str) : value :=
  match o with
  | Some s => VStr s
  | None => VNone
  end.

(** The body of the loop of [extract_blocks] for one match: a match with
    no opening brace from [m.end() - 1] on is passed over. *)
Definition block_at (text : str) (name_group : nat) (m : Match)
  : list (value * str) :=
  let name := name_value (group text m name_group) in
  match find_char LBRACE text (Z.of_nat (m_end m) - 1) with
  | None => []
  | Some brace_open =>
      let e := find_matching_brace text brace_open in
      [(name, strip (slice text (m_start m) (Z.to_nat (e + 1))))]
  end.

(** [extract_blocks(text, start_re, name_group, kind)] *)
Definition extract_blocks `{UnicodeDb} (text : str) (start_re : re)
                          (name_group : nat) : list (value * str) :=
  flat_map (block_at text name_group) (finditer start_re text).

Definition nav_hits `{UnicodeDb} (block : str) : nat :=
  length (filter (fun pat => search pat block) NAV_PATTERNS).

Definition nat_value (n : nat) : value := VInt (Z.of_nat n).

(** The two chunks of a view block: the block, then its screen card. *)
Definition view_chunks `{UnicodeDb} (rel_path : str) (nb : value * str)
  : list Chunk :=
  let view_name := fst nb in
  let block := snd nb in
  let a11y_ids := sorted_strs (findall1 SWIFTUI_A11Y_ID_RE block) in
  let buttons := sorted_strs (findall1 SWIFTUI_BUTTON_RE block) in
  let hits := nav_hits block in
  let m :=
    [(lit "kind", VStr (lit "swiftui_view"));
     (lit "path", VStr rel_path);
     (lit "screen", view_name);
     (lit "symbol", view_name);
     (lit "accessibility_ids", VStr (meta_list_to_str a11y_ids 200));
     (lit "accessibility_id_count", nat_value (length a11y_ids));
     (lit "buttons", VStr (meta_list_to_str (firstn 50 buttons) 200));
     (lit "button_count", nat_value (length buttons));
     (lit "navigation_signals", nat_value hits)] in
  let card :=
    JObj [(lit "type", JStr (lit "SCREEN_CARD"));
          (lit "ui", JStr (lit "SwiftUI"));
          (lit "screen", json_of_value view_name);
          (lit "path", JStr rel_path);
          (lit "buttons", JList (map JStr (firstn 50 buttons)));
          (lit "accessibility_ids", JList (map JStr (firstn 200 a11y_ids)));
          (lit "has_navigation_signals", JBool (0 <? hits))] in
  [ {| text := block; meta := m |};
    {| text := safe_json card;
       meta := dict_set m (lit "kind") (VStr (lit "screen_card")) |} ].

(** The two chunks of a controller block. *)
Definition vc_chunks `{UnicodeDb} (rel_path : str) (nb : value * str)
  : list Chunk :=
  let cls_name := fst nb in
  let block := snd nb in
  let a11y_ids := sorted_strs (findall1 UIKIT_A11Y_ID_RE block) in
  let hits := nav_hits block in
  let m :=
    [(lit "kind", VStr (lit "uikit_viewcontroller"));
     (lit "path", VStr rel_path);
     (lit "screen", cls_name);
     (lit "symbol", cls_name);
     (lit "accessibility_ids", VStr (meta_list_to_str a11y_ids 200));
     (lit "accessibility_id_count", nat_value (length a11y_ids));
     (lit "navigation_signals", nat_value hits)] in
  let card :=
    JObj [(lit "type", JStr (lit "SCREEN_CARD"));
          (lit "ui", JStr (lit "UIKit"));
          (lit "screen", json_of_value cls_name);
          (lit "path", JStr rel_path);
          (lit "accessibility_ids", JList (map JStr (firstn 200 a11y_ids)));
          (lit "has_navigation_signals", JBool (0 <? hits))] in
  [ {| text := block; meta := m |};
    {| text := safe_json card;
       meta := dict_set m (lit "kind") (VStr (lit "screen_card")) |} ].

(** The identifiers found anywhere in the file, by either pattern. *)
Definition file_ids `{UnicodeDb} (file_text : str) : list str :=
  sorted_strs (findall1 SWIFTUI_A11Y_ID_RE file_text
               ++ findall1 UIKIT_A11Y_ID_RE file_text).

Definition amap_chunks `{UnicodeDb} (file_text rel_path : str) : list Chunk :=
  let ids := file_ids file_text in
  match ids with
  | [] => []
  | _ =>
      [ {| text := lit "ACCESSIBILITY_IDS" ++ [NEWLINE] ++ lit "path: " ++ rel_path
                   ++ [NEWLINE] ++ join [NEWLINE] ids;
           meta := [(lit "kind", VStr (lit "accessibility_map"));
                    (lit "path", VStr rel_path);
                    (lit "accessibility_ids", VStr (meta_list_to_str ids 200));
                    (lit "accessibility_id_count", nat_value (length ids))] |} ]
  end.

Definition nav_line `{UnicodeDb} (line : str) : bool :=
  existsb (fun p => search p line) NAV_PATTERNS.

(** The loop over the lines of the file, leaving at 60 collected lines. *)
Fixpoint nav_scan `{UnicodeDb} (lines : list str) (nav_lines : list str)
  : list str :=
  match lines with
  | [] => nav_lines
  | line :: rest =>
      if nav_line line then
        let nav_lines' := nav_lines ++ [strip line] in
        if 60 <=? length nav_lines' then nav_lines'
        else nav_scan rest nav_lines'
      else nav_scan rest nav_lines
  end.

Definition nav_chunks `{UnicodeDb} (file_text rel_path : str) : list Chunk :=
  let nav_lines := nav_scan (splitlines file_text) [] in
  match nav_lines with
  | [] => []
  | _ =>
      [ {| text := lit "NAVIGATION_SIGNALS" ++ [NEWLINE] ++ lit "path: " ++ rel_path
                   ++ [NEWLINE] ++ join [NEWLINE] nav_lines;
           meta := [(lit "kind", VStr (lit "navigation_signals"));
                    (lit "path", VStr rel_path)] |} ]
  end.

(** The chunks made before the fallback is considered. *)
Definition found_chunks `{UnicodeDb} (file_text rel_path : str) : list Chunk :=
  flat_map (view_chunks rel_path)
           (extract_blocks file_text SWIFTUI_VIEW_START_RE 2)
  ++ flat_map (vc_chunks rel_path)
              (extract_blocks file_text UIKIT_VC_START_RE 3)
  ++ amap_chunks file_text rel_path
  ++ nav_chunks file_text rel_path.

Definition fallback_chunks (chunks : list Chunk) (file_text rel_path : str)
  : list Chunk :=
  match chunks with
  | [] =>
      match strip file_text with
      | [] => []
      | raw =>
          [ {| text := firstn 4000 raw;
               meta := [(lit "kind", VStr (lit "swift_raw"));
                        (lit "path", VStr rel_path)] |} ]
      end
  | _ => []
  end.

Definition build_chunks_for_file `{UnicodeDb} (file_text rel_path : str)
  : list Chunk :=
  let chunks := found_chunks file_text rel_path in
  chunks ++ fallback_chunks chunks file_text rel_path.

(** ** The accessibility audit *)

Record AuditFinding := {
  path : str;
  screen : str;
  ui : str;
  interactive_count : nat;
  accessibility_id_count : nat
}.

(** [ch.meta.get("kind") == k] *)
Definition kind_is (ch : Chunk) (k : str) : bool :=
  match dict_get (meta ch) (lit "kind") with
  | Some v => value_eqb v (VStr k)
  | None => false
  end.

(** [str(ch.meta.get(k))] *)
Definition meta_str (ch : Chunk) (k : str) : str :=
  match dict_get (meta ch) k with
  | Some v => py_str v
  | None => py_str VNone
  end.

(** One of the two tests of the loop body, for the kind [k], the label
    [label] and the two patterns of that kind. *)
Definition audit_kind `{UnicodeDb} (k label : str) (interactive_re id_re : re)
                      (ch : Chunk) : list AuditFinding :=
  if kind_is ch k then
    let block := text ch in
    let interactive := count_matches interactive_re block in
    let ids := count_matches id_re block in
    if (0 <? interactive) && (ids =? 0) then
      [ {| path := meta_str ch (lit "path");
           screen := meta_str ch (lit "screen");
           ui := label;
           interactive_count := interactive;
           accessibility_id_count := ids |} ]
    else []
  else [].

(** The body of the loop of [audit_accessibility] for one chunk. *)
Definition audit_chunk `{UnicodeDb} (ch : Chunk) : list AuditFinding :=
  audit_kind (lit "swiftui_view") (lit "SwiftUI")
             SWIFTUI_INTERACTIVE_RE SWIFTUI_A11Y_ID_RE ch
  ++ audit_kind (lit "uikit_viewcontroller") (lit "UIKit")
                UIKIT_INTERACTIVE_RE UIKIT_A11Y_ID_RE ch.

Definition AUDIT_NOTE : str :=
  lit "Heuristic audit: interactive elements exist but no accessibility identifiers were detected inside the screen block.".

Definition audit_summary (findings : list AuditFinding) : json :=
  JObj [(lit "flagged_screens", JInt (Z.of_nat (length findings)));
        (lit "note", JStr AUDIT_NOTE)].

Definition audit_accessibility `{UnicodeDb} (chunks : list Chunk)
  : list AuditFinding * json :=
  let findings := flat_map audit_chunk chunks in
  (findings, audit_summary findings).

(** [f.__dict__] *)
Definition finding_dict (f : AuditFinding) : json :=
  JObj [(lit "path", JStr (path f));
        (lit "screen", JStr (screen f));
        (lit "ui", JStr (ui f));
        (lit "interactive_count", JInt (Z.of_nat (interactive_count f)));
        (lit "accessibility_id_count", JInt (Z.of_nat (accessibility_id_count f)))].

(** ** Identifiers of stored documents *)

Record Document := { page_content : str; metadata : dict }.

Definition byte := N.

(** The UTF-8 bytes of one code point under [errors="ignore"]: a
    surrogate cannot be encoded and is left out.  A Python string holds
    no code point above 0x10FFFF. *)
Definition utf8_char (c : char) : list byte :=
  (if c <? 128 then [c]
   else if c <? 2048 then [192 + c / 64; 128 + c mod 64]
   else if (55296 <=? c) && (c <=? 57343) then []
   else if c <? 65536 then
     [224 + c / 4096; 128 + (c / 64) mod 64; 128 + c mod 64]
   else if c <? 1114112 then
     [240 + c / 262144; 128 + (c / 4096) mod 64; 128 + (c / 64) mod 64;
      128 + c mod 64]
   else [])%N.

(** [s.encode("utf-8", errors="ignore")] *)
Definition utf8_encode (s : str) : list byte := flat_map utf8_char s.

(** [hashlib.sha1(b).hexdigest()], a function of the standard library. *)
Class Hashlib := { sha1_hexdigest : list byte -> str }.

Definition sha1 `{Hashlib} (s : str) : str := sha1_hexdigest (utf8_encode s).

(** The identifier [upsert_documents] computes for a document. *)
Definition document_id `{Hashlib} (d : Document) : str :=
  sha1 (page_content d ++ safe_json (json_of_dict (metadata d))).

(** ** Ingestion *)

(** The command line of [ingest]; [app_dir] is the resolved path. *)
Record Args := {
  app_dir : str;
  persist : str;
  collection : str;
  embed_model : str;
  fail_if_missing_ids : bool
}.

(** What the run finds on disk: whether [app_dir] is a directory, and the
    Swift files under it in the order [iter_swift_files] yields them, each
    with its normalised path and the text [read_text] returns. *)
Record Disk := {
  is_dir : bool;
  swift_files : list (str * str)
}.

(** The external store is seen through the calls made on it: each entry
    is one [add_documents] call with its identifiers and documents,
    whether the call returns or raises. *)
Definition StoreLog := list (list (str * Document)).

(** The calls a run makes on the store library: the constructor in
    [build_vectorstore], then [add_documents] and [persist] in
    [upsert_documents]. *)
Inductive StoreCall := BuildVectorstore | AddDocuments | Persist.

(** What the store library does at each of these calls: [None] when the
    call returns, the text of the exception when it raises.  The code of
    the run catches none of them. *)
Record StoreEnv := {
  build_raises : str -> str -> str -> option str;
  add_documents_raises : list (str * Document) -> option str;
  persist_raises : option str
}.

(** A store whose calls all return. *)
Definition quiet_store : StoreEnv :=
  {| build_raises := fun _ _ _ => None;
     add_documents_raises := fun _ => None;
     persist_raises := None |}.

(** How a run ends: [cmd_ingest] returns a status, or an exception raised
    by a call on the store goes through it uncaught. *)
Inductive Outcome :=
| Returned (status : Z)
| Uncaught (call : StoreCall) (msg : str).

(** A run: how it ends, the lines the program prints on the two streams
    (the report of an uncaught exception is the interpreter's, not the
    program's), and the calls of [add_documents]. *)
Record Run := {
  outcome : Outcome;
  stdout : list str;
  stderr : list str;
  store_writes : StoreLog
}.

(** The identifiers and documents of one [add_documents] call. *)
Definition batch_of `{Hashlib} (docs : list Document) : list (str * Document) :=
  map (fun d => (document_id d, d)) docs.

(** [upsert_documents(vs, docs)]: the call made on the store, and the
    call that raised, if one did. *)
Definition upsert_documents `{Hashlib} (store : StoreEnv) (docs : list Document)
  : StoreLog * option (StoreCall * str) :=
  let batch := batch_of docs in
  match add_documents_raises store batch with
  | Some msg => ([batch], Some (AddDocuments, msg))
  | None =>
      match persist_raises store with
      | Some msg => ([batch], Some (Persist, msg))
      | None => ([batch], None)
      end
  end.

(** The chunks of all files; a file whose text is blank is passed over. *)
Definition all_chunks `{UnicodeDb} (files : list (str * str)) : list Chunk :=
  flat_map
    (fun f =>
       match strip (snd f) with
       | [] => []
       | _ => build_chunks_for_file (snd f) (fst f)
       end)
    files.

Definition audit_doc (findings : list AuditFinding) (summary : json) : Document :=
  {| page_content :=
       safe_json
         (JObj [(lit "type", JStr (lit "ACCESSIBILITY_AUDIT"));
                (lit "summary", summary);
                (lit "flagged", JList (map finding_dict (firstn 200 findings)));
                (lit "total_flagged", JInt (Z.of_nat (length findings)))]);
     metadata := [(lit "kind", VStr (lit "accessibility_audit"));
                  (lit "path", VStr (lit "_audit_"))] |}.

Definition chunk_doc (ch : Chunk) : Document :=
  {| page_content := text ch; metadata := meta ch |}.

Definition AUDIT_ACTION : str :=
  lit "Add .accessibilityIdentifier(...) to interactive elements on these screens before generating UI tests.".

Definition audit_failure_report (findings : list AuditFinding) : json :=
  JObj [(lit "flagged_screens", JInt (Z.of_nat (length findings)));
        (lit "examples", JList (map finding_dict (firstn 20 findings)));
        (lit "action", JStr AUDIT_ACTION)].

Definition ok_report (args : Args) (n_files n_docs n_flagged : nat) : json :=
  JObj [(lit "status", JStr (lit "ok"));
        (lit "indexed_swift_files", JInt (Z.of_nat n_files));
        (lit "documents_upserted", JInt (Z.of_nat n_docs));
        (lit "persist_dir", JStr (persist args));
        (lit "collection", JStr (collection args));
        (lit "accessibility_audit",
          JObj [(lit "flagged_screens", JInt (Z.of_nat n_flagged));
                (lit "note", JStr AUDIT_NOTE)])].

(** The documents handed to the store: the audit summary first. *)
Definition ingest_docs (findings : list AuditFinding) (summary : json)
                       (chunks : list Chunk) : list Document :=
  audit_doc findings summary :: map chunk_doc chunks.

Definition cmd_ingest `{UnicodeDb} `{Hashlib} (store : StoreEnv) (args : Args)
                      (disk : Disk) : Run :=
  if negb (is_dir disk) then
    {| outcome := Returned 2; stdout := [];
       stderr := [lit "ERROR: app-dir not found or not a directory: " ++ app_dir args];
       store_writes := [] |}
  else
    match swift_files disk with
    | [] =>
        {| outcome := Returned 2; stdout := [];
           stderr := [lit "ERROR: no .swift files found under app-dir"];
           store_writes := [] |}
    | _ =>
        let chunks := all_chunks (swift_files disk) in
        let (findings, summary) := audit_accessibility chunks in
        if fail_if_missing_ids args && (0 <? length findings) then
          {| outcome := Returned 3;
             stdout := [lit "ACCESSIBILITY AUDIT FAILED (missing IDs detected).";
                        safe_json (audit_failure_report findings)];
             stderr := [];
             store_writes := [] |}
        else
          let docs := ingest_docs findings summary chunks in
          match build_raises store (persist args) (collection args)
                             (embed_model args) with
          | Some msg =>
              {| outcome := Uncaught BuildVectorstore msg;
                 stdout := []; stderr := []; store_writes := [] |}
          | None =>
              let (writes, failure) := upsert_documents store docs in
              match failure with
              | Some (call, msg) =>
                  {| outcome := Uncaught call msg;
                     stdout := []; stderr := []; store_writes := writes |}
              | None =>
                  {| outcome := Returned 0;
                     stdout := [safe_json
                                  (ok_report args (length (swift_files disk))
                                             (length docs) (length findings))];
                     stderr := [];
                     store_writes := writes |}
              end
          end
    end.

(** ** Context assembly: [query_rag] *)

(** What can be raised inside the [try] of [query_rag]: a failure of the
    store (building the handle or searching), [split] called on an
    integer, and [sorted] on a set mixing strings and integers. *)
Inductive exn :=
| StoreError (msg : str)
| AttributeError
| TypeError.

(** The store handle, seen through the one operation used on it. *)
Record Store := { similarity_search : str -> Z -> exn + list Document }.

(** [get_vectorstore]: [g] is the global [_vectorstore], [build] the
    outcome of constructing the handle when it is needed. *)
Definition get_vectorstore (build : exn + Store) (g : option Store)
  : (exn + Store) * option Store :=
  match g with
  | Some vs => (inr vs, g)
  | None =>
      match build with
      | inr vs => (inr vs, Some vs)
      | inl e => (inl e, None)
      end
  end.

Record Snippet := {
  snippet_kind : value;
  snippet_path : value;
  snippet_screen : value;
  snippet_content : str
}.

Record Bundle := {
  accessibility_ids : list str;
  screens : list value;
  code_snippets : list Snippet;
  total_docs_retrieved : nat;
  error : option exn
}.

Definition get_default (d : dict) (k : str) (dflt : value) : value :=
  match dict_get d k with
  | Some v => v
  | None => dflt
  end.

(** The identifiers one document adds to the set. *)
Definition doc_ids (m : dict) : exn + list str :=
  match dict_get m (lit "accessibility_ids") with
  | Some ids =>
      if truthy ids then
        match ids with
        | VStr s => inr (split_on BAR s)
        | _ => inl AttributeError
        end
      else inr []
  | None => inr []
  end.

(** The screen one document adds to the set. *)
Definition doc_screens (m : dict) : list value :=
  match dict_get m (lit "screen") with
  | Some v => if truthy v then [v] else []
  | None => []
  end.

Definition HIGH_VALUE_KINDS : list value :=
  [VStr (lit "swiftui_view"); VStr (lit "accessibility_map"); VStr (lit "screen_card")].

(** The snippet one document adds to the list. *)
Definition doc_snippets (doc : Document) : list Snippet :=
  let m := metadata doc in
  let kind := get_default m (lit "kind") (VStr []) in
  if existsb (value_eqb kind) HIGH_VALUE_KINDS then
    [ {| snippet_kind := kind;
         snippet_path := get_default m (lit "path") (VStr []);
         snippet_screen := get_default m (lit "screen") (VStr []);
         snippet_content := firstn 500 (page_content doc) |} ]
  else [].

(** The loop over the retrieved documents; the two sets are kept as the
    lists of what was added to them. *)
Fixpoint collect (docs : list Document) (ids : list str)
                 (scr : list value) (snippets : list Snippet)
  : exn + (list str * list value * list Snippet) :=
  match docs with
  | [] => inr (ids, scr, snippets)
  | doc :: rest =>
      match doc_ids (metadata doc) with
      | inl e => inl e
      | inr new_ids =>
          collect rest (ids ++ new_ids)
                  (scr ++ doc_screens (metadata doc))
                  (snippets ++ doc_snippets doc)
      end
  end.

Definition value_ltb (a b : value) : bool :=
  match a, b with
  | VInt x, VInt y => Z.ltb x y
  | VStr x, VStr y => str_ltb x y
  | _, _ => false
  end.

Definition is_vstr (v : value) : bool :=
  match v with VStr _ => true | _ => false end.

Definition is_vint (v : value) : bool :=
  match v with VInt _ => true | _ => false end.

(** [sorted(list(s))] for a set of strings and integers: values of the
    two kinds cannot be compared. *)
Definition sorted_values (l : list value) : exn + list value :=
  if forallb is_vstr l || forallb is_vint l
  then inr (sorted_set value_ltb value_eqb l)
  else inl TypeError.

(** The body of the [try] once the documents are there. *)
Definition assemble (docs : list Document) : exn + Bundle :=
  match collect docs [] [] [] with
  | inl e => inl e
  | inr (ids, scr, snippets) =>
      match sorted_values scr with
      | inl e => inl e
      | inr sorted_screens =>
          inr {| accessibility_ids := sorted_strs ids;
                 screens := sorted_screens;
                 code_snippets := firstn 5 snippets;
                 total_docs_retrieved := length docs;
                 error := None |}
      end
  end.

Definition error_bundle (e : exn) : Bundle :=
  {| accessibility_ids := [];
     screens := [];
     code_snippets := [];
     total_docs_retrieved := 0;
     error := Some e |}.

(** [query_rag(test_description, k)]: [top_k] is [config.RAG_TOP_K]; the
    result comes with the new value of the global handle. *)
Definition query_rag (build : exn + Store) (g : option Store) (top_k : Z)
                     (test_description : str) (k : option Z)
  : Bundle * option Store :=
  let k := match k with Some k => k | None => top_k end in
  let (got, g') := get_vectorstore build g in
  let result :=
    match got with
    | inl e => inl e
    | inr vs =>
        match similarity_search vs test_description k with
        | inl e => inl e
        | inr docs => assemble docs
        end
    end in
  match result with
  | inr b => (b, g')
  | inl e => (error_bundle e, g')
  end.

(** ** Test-type validation *)

Definition ascii_lower (c : char) : char :=
  (if (65 <=? c) && (c <=? 90) then c + 32 else c)%N.

(** [s.lower()] *)
Definition lower `{UnicodeDb} (s : str) : str :=
  if forallb (fun c => (c <? 128)%N) s then map ascii_lower s
  else uni_lower s.

Fixpoint str_in (s : str) (l : list str) : bool :=
  match l with
  | [] => false
  | x :: l' => str_eqb s x || str_in s l'
  end.

Definition normalise `{UnicodeDb} (test_type : str) : str :=
  strip (lower test_type).

Definition TEST_TYPES : list str := [lit "unit"; lit "ui"].

Definition TEST_TYPE_MESSAGE : str := lit "test_type must be 'unit' or 'ui'".

(** What the request handlers raise. *)
Inductive raised :=
| ValueError (msg : str)
| HTTPException (status_code : Z) (detail : str)
| OtherException (msg : str).

Record TestGenerationRequest := {
  test_description : str;
  test_type : str;
  class_name : option str;
  include_comments : bool
}.

Record RAGTestGenerationRequest := {
  rag_test_description : str;
  rag_test_type : str;
  rag_class_name : option str;
  rag_include_comments : bool;
  rag_top_k : option Z
}.

Section Generation.
Context `{UnicodeDb}.
Variable Response : Type.

(** [TestGenerator.run] after the check, from the choice of the prompt
    to the response; it calls the language model. *)
Variable generate : str -> TestGenerationRequest -> raised + Response.

(** [generate_test_with_rag] after the check: the query, the wrapped
    request, [generate_test] on it and the metadata. *)
Variable generate_with_context :
  str -> RAGTestGenerationRequest -> raised + Response.

Definition run (request : TestGenerationRequest) : raised + Response :=
  let tt := normalise (test_type request) in
  if negb (str_in tt TEST_TYPES) then inl (ValueError TEST_TYPE_MESSAGE)
  else generate tt request.

Definition generate_test (request : TestGenerationRequest)
  : raised + Response :=
  match run request with
  | inr r => inr r
  | inl (ValueError msg) => inl (HTTPException 400 msg)
  | inl (HTTPException c d) => inl (HTTPException c d)
  | inl (OtherException msg) =>
      inl (HTTPException 500 (lit "Error generating test: " ++ msg))
  end.

Definition generate_test_with_rag (request : RAGTestGenerationRequest)
  : raised + Response :=
  let tt := normalise (rag_test_type request) in
  let result :=
    if negb (str_in tt TEST_TYPES)
    then inl (HTTPException 400 TEST_TYPE_MESSAGE)
    else generate_with_context tt request in
  match result with
  | inr r => inr r
  | inl (HTTPException c d) => inl (HTTPException c d)
  | inl (ValueError msg) =>
      inl (HTTPException 500 (lit "Error generating test with RAG: " ++ msg))
  | inl (OtherException msg) =>
      inl (HTTPException 500 (lit "Error generating test with RAG: " ++ msg))
  end.
End Generation.

(** * Properties *)

(** ** Strings *)

Lemma str_eqb_eq (a b : str) : str_eqb a b = true <-> a = b.
Proof.
  revert b; induction a as [|x a IH]; intros [|y b]; simpl; split;
    try congruence; try discriminate.
  - intros E. apply andb_true_iff in E as [E1 E2].
    apply N.eqb_eq in E1. apply IH in E2. congruence.
  - intros E. injection E as -> ->. apply andb_true_iff. split.
    + apply N.eqb_refl.
    + now apply IH.
Qed.

Lemma str_eqb_refl (a : str) : str_eqb a a = true.
Proof. now apply str_eqb_eq. Qed.

Lemma value_eqb_eq (a b : value) : value_eqb a b = true <-> a = b.
Proof.
  destruct a, b; simpl; split; try congruence; try discriminate.
  - intros E. apply Z.eqb_eq in E. congruence.
  - intros E. injection E as ->. apply Z.eqb_refl.
  - intros E. apply str_eqb_eq in E. congruence.
  - intros E. injection E as ->. apply str_eqb_refl.
Qed.

(** ** Block extents *)

Definition brace_delta (c : char) : Z :=
  if char_eqb c LBRACE then 1
  else if char_eqb c RBRACE then -1
  else 0.

(** Opening minus closing braces of a text, every brace counted. *)
Fixpoint depth_of (s : str) : Z :=
  match s with
  | [] => 0
  | c :: s' => brace_delta c + depth_of s'
  end.

(** [text[e]] is a closing brace at which the depth counted from [b] is
    back to zero. *)
Definition closes (text : str) (b e : nat) : Prop :=
  b <= e
  /\ nth_error text e = Some RBRACE
  /\ depth_of (slice text b (S e)) = 0%Z.

(** The first such closing brace. *)
Definition matching_brace (text : str) (b e : nat) : Prop :=
  closes text b e /\ forall e', e' < e -> ~ closes text b e'.

(** At offset [n] of [s], counting from depth [d]. *)
Definition closes_at (s : str) (d : Z) (n : nat) : Prop :=
  nth_error s n = Some RBRACE /\ (d + depth_of (firstn (S n) s) = 0)%Z.

Lemma char_eqb_eq (a b : char) : char_eqb a b = true <-> a = b.
Proof. apply N.eqb_eq. Qed.

Lemma brace_loop_some (s : str) (i : nat) (d : Z) (j : nat) :
  brace_loop s i d = Some j ->
  exists n, j = i + n /\ closes_at s d n
            /\ forall m, m < n -> ~ closes_at s d m.
Proof.
  revert i d. induction s as [|c s IH]; intros i d; cbn [brace_loop];
    [discriminate|].
  unfold closes_at.
  destruct (char_eqb c LBRACE) eqn:El.
  - intros E. apply IH in E as (n & -> & (Hn & Hd) & Hmin).
    exists (S n). split; [lia|]. split.
    + split; [exact Hn|]. rewrite firstn_cons. cbn [depth_of]. unfold brace_delta.
      rewrite El. lia.
    + intros [|m] Hm [Hc Hz].
      * cbn [nth_error] in Hc. injection Hc as Hc. subst c. discriminate.
      * apply (Hmin m); [lia|]. split; [exact Hc|].
        rewrite firstn_cons in Hz. cbn [depth_of] in Hz. unfold brace_delta in Hz.
        rewrite El in Hz. lia.
  - destruct (char_eqb c RBRACE) eqn:Er.
    + destruct (d - 1 =? 0)%Z eqn:Ez.
      * intros E. injection E as <-. exists 0. split; [lia|].
        apply char_eqb_eq in Er. subst c. apply Z.eqb_eq in Ez. split.
        -- split; [reflexivity|]. cbn. lia.
        -- intros m Hm. lia.
      * intros E. apply IH in E as (n & -> & (Hn & Hd) & Hmin).
        apply Z.eqb_neq in Ez.
        exists (S n). split; [lia|]. split.
        -- split; [exact Hn|]. rewrite firstn_cons. cbn [depth_of]. unfold brace_delta.
           rewrite El, Er. lia.
        -- intros [|m] Hm [Hc Hz].
           ++ rewrite firstn_cons in Hz. cbn [depth_of] in Hz. unfold brace_delta in Hz.
              rewrite El, Er in Hz. cbn in Hz. lia.
           ++ apply (Hmin m); [lia|]. split; [exact Hc|].
              rewrite firstn_cons in Hz. cbn [depth_of] in Hz. unfold brace_delta in Hz.
              rewrite El, Er in Hz. lia.
    + intros E. apply IH in E as (n & -> & (Hn & Hd) & Hmin).
      exists (S n). split; [lia|]. split.
      * split; [exact Hn|]. rewrite firstn_cons. cbn [depth_of]. unfold brace_delta.
        rewrite El, Er. lia.
      * intros [|m] Hm [Hc Hz].
        -- cbn [nth_error] in Hc. injection Hc as Hc. subst c. discriminate.
        -- apply (Hmin m); [lia|]. split; [exact Hc|].
           rewrite firstn_cons in Hz. cbn [depth_of] in Hz. unfold brace_delta in Hz.
           rewrite El, Er in Hz. lia.
Qed.

Lemma brace_loop_none (s : str) (i : nat) (d : Z) :
  brace_loop s i d = None -> forall n, ~ closes_at s d n.
Proof.
  revert i d. induction s as [|c s IH]; intros i d; cbn [brace_loop].
  - intros _ n [Hc _]. destruct n; discriminate.
  - unfold closes_at.
    destruct (char_eqb c LBRACE) eqn:El.
    + intros E [|n] [Hc Hz].
      * cbn [nth_error] in Hc. injection Hc as Hc. subst c. discriminate.
      * apply (IH _ _ E n). split; [exact Hc|].
        rewrite firstn_cons in Hz. cbn [depth_of] in Hz. unfold brace_delta in Hz.
        rewrite El in Hz. lia.
    + destruct (char_eqb c RBRACE) eqn:Er.
      * destruct (d - 1 =? 0)%Z eqn:Ez; [discriminate|].
        apply Z.eqb_neq in Ez.
        intros E [|n] [Hc Hz].
        -- rewrite firstn_cons in Hz. cbn [depth_of] in Hz. unfold brace_delta in Hz.
           rewrite El, Er in Hz. cbn in Hz. lia.
        -- apply (IH _ _ E n). split; [exact Hc|].
           rewrite firstn_cons in Hz. cbn [depth_of] in Hz. unfold brace_delta in Hz.
           rewrite El, Er in Hz. lia.
      * intros E [|n] [Hc Hz].
        -- cbn [nth_error] in Hc. injection Hc as Hc. subst c.
           discriminate.
        -- apply (IH _ _ E n). split; [exact Hc|].
           rewrite firstn_cons in Hz. cbn [depth_of] in Hz. unfold brace_delta in Hz.
           rewrite El, Er in Hz. lia.
Qed.

Lemma slice_from (text : str) (b e : nat) :
  b <= e -> slice text b (S e) = firstn (S (e - b)) (skipn b text).
Proof. intros Hbe. unfold slice. f_equal. lia. Qed.

Lemma nth_error_skipn_add (A : Type) (l : list A) (b n : nat) :
  nth_error (skipn b l) n = nth_error l (b + n).
Proof.
  revert l. induction b as [|b IH]; intros [|x l]; simpl; auto.
  now destruct n.
Qed.

Lemma closes_iff (text : str) (b e : nat) :
  closes text b e <-> b <= e /\ closes_at (skipn b text) 0 (e - b).
Proof.
  unfold closes, closes_at. split.
  - intros (Hbe & Hn & Hd). split; [exact Hbe|]. split.
    + rewrite nth_error_skipn_add. now replace (b + (e - b)) with e by lia.
    + rewrite <- slice_from by exact Hbe. lia.
  - intros (Hbe & Hn & Hd). split; [exact Hbe|]. split.
    + rewrite nth_error_skipn_add in Hn.
      now replace (b + (e - b)) with e in Hn by lia.
    + rewrite slice_from by exact Hbe. lia.
Qed.

Lemma find_matching_brace_balanced (text : str) (b e : nat) :
  matching_brace text b e -> find_matching_brace text b = Z.of_nat e.
Proof.
  intros [Hc Hmin]. unfold find_matching_brace.
  pose proof Hc as Hc'. apply closes_iff in Hc' as [Hbe Hat].
  destruct (brace_loop (skipn b text) b 0) as [j|] eqn:E.
  - apply brace_loop_some in E as (n & -> & Hn & Hnmin).
    f_equal.
    destruct (Nat.lt_trichotomy (e - b) n) as [Hlt|[Heq|Hgt]].
    + exfalso. exact (Hnmin _ Hlt Hat).
    + lia.
    + exfalso. apply (Hmin (b + n)); [lia|].
      apply closes_iff. split; [lia|].
      now replace (b + n - b) with n by lia.
  - exfalso. exact (@brace_loop_none _ _ _ E _ Hat).
Qed.

Lemma find_matching_brace_unbalanced (text : str) (b : nat) :
  (forall e, ~ closes text b e) ->
  find_matching_brace text b = (Z.of_nat (length text) - 1)%Z.
Proof.
  intros Hnone. unfold find_matching_brace.
  destruct (brace_loop (skipn b text) b 0) as [j|] eqn:E; [|reflexivity].
  exfalso. apply brace_loop_some in E as (n & -> & Hn & _).
  apply (Hnone (b + n)). apply closes_iff. split; [lia|].
  now replace (b + n - b) with n by lia.
Qed.

Lemma matching_brace_or_none (text : str) (b : nat) :
  (exists e, matching_brace text b e) \/ (forall e, ~ closes text b e).
Proof.
  destruct (brace_loop (skipn b text) b 0) as [j|] eqn:E.
  - left. apply brace_loop_some in E as (n & -> & Hn & Hmin).
    exists (b + n). split.
    + apply closes_iff. split; [lia|].
      now replace (b + n - b) with n by lia.
    + intros e' Hlt Hc. apply closes_iff in Hc as [Hbe Hat].
      apply (Hmin (e' - b)); [lia|exact Hat].
  - right. intros e Hc. apply closes_iff in Hc as [_ Hat].
    exact (@brace_loop_none _ _ _ E _ Hat).
Qed.

(** *** Trimming *)

Lemma lstrip_suffix (s : str) :
  exists pre, s = pre ++ lstrip s /\ forallb is_space pre = true.
Proof.
  induction s as [|c s (pre & E & Hp)]; simpl.
  - exists []. auto.
  - destruct (is_space c) eqn:Hc.
    + exists (c :: pre). simpl. rewrite Hc, Hp. split; [congruence|reflexivity].
    + exists []. auto.
Qed.

Lemma lstrip_keeps_last (body : str) (c : char) :
  is_space c = false -> exists body', lstrip (body ++ [c]) = body' ++ [c].
Proof.
  intros Hc. induction body as [|x body (body' & E)]; simpl.
  - rewrite Hc. now exists [].
  - destruct (is_space x); [now exists body'|].
    now exists (x :: body).
Qed.

Lemma rstrip_keeps_last (body : str) (c : char) :
  is_space c = false -> rstrip (body ++ [c]) = body ++ [c].
Proof.
  intros Hc. unfold rstrip. rewrite rev_app_distr. simpl. rewrite Hc.
  simpl. now rewrite rev_involutive.
Qed.

Lemma strip_keeps_last (body : str) (c : char) :
  is_space c = false -> exists body', strip (body ++ [c]) = body' ++ [c].
Proof.
  intros Hc. unfold strip.
  destruct (@lstrip_keeps_last body c Hc) as (body' & ->).
  exists body'. now apply rstrip_keeps_last.
Qed.

(** Trimming removes whitespace only, from both ends. *)
Lemma strip_decomposition (s : str) :
  exists pre post,
    s = pre ++ strip s ++ post
    /\ forallb is_space pre = true /\ forallb is_space post = true.
Proof.
  destruct (lstrip_suffix s) as (pre & E & Hp).
  destruct (lstrip_suffix (rev (lstrip s))) as (tsop & E' & Ht).
  exists pre, (rev tsop). unfold strip, rstrip. split; [|split].
  - rewrite E at 1. f_equal.
    rewrite <- (rev_involutive (lstrip s)) at 1. rewrite E' at 1.
    now rewrite rev_app_distr.
  - exact Hp.
  - rewrite forallb_forall in *. intros x Hx. apply Ht. now apply in_rev.
Qed.

Lemma firstn_snoc_nth (A : Type) (l : list A) (n : nat) (c : A) :
  nth_error l n = Some c -> firstn (S n) l = firstn n l ++ [c].
Proof.
  revert l. induction n as [|n IH]; intros [|x l]; simpl; try discriminate.
  - intros E. now injection E as ->.
  - intros E. f_equal. now apply IH.
Qed.

Lemma slice_ends_with (text : str) (a e : nat) (c : char) :
  a <= e -> nth_error text e = Some c ->
  exists body, slice text a (S e) = body ++ [c].
Proof.
  intros Hae Hn. rewrite slice_from by exact Hae.
  exists (firstn (e - a) (skipn a text)).
  apply firstn_snoc_nth. rewrite nth_error_skipn_add.
  now replace (a + (e - a)) with e by lia.
Qed.

Lemma slice_to_end (text : str) (a : nat) :
  slice text a (length text) = skipn a text.
Proof.
  unfold slice. apply firstn_all2. rewrite length_skipn. lia.
Qed.

Lemma index_from_spec (c : char) (s : str) (i b : nat) :
  index_from c s i = Some b -> i <= b /\ nth_error s (b - i) = Some c.
Proof.
  revert i. induction s as [|x s IH]; intros i; simpl; [discriminate|].
  destruct (char_eqb x c) eqn:E.
  - intros Eb. injection Eb as <-. apply char_eqb_eq in E. subst x.
    rewrite Nat.sub_diag. auto.
  - intros Eb. apply IH in Eb as [Hle Hn]. split; [lia|].
    replace (b - i) with (S (b - S i)) by lia. exact Hn.
Qed.

Lemma find_char_spec (c : char) (text : str) (start : Z) (b : nat) :
  (-1 <= start)%Z ->
  find_char c text start = Some b ->
  nth_error text b = Some c /\ (start <= Z.of_nat b)%Z.
Proof.
  intros Hs. unfold find_char. intros E.
  apply index_from_spec in E as [Hle Hn].
  rewrite nth_error_skipn_add in Hn. split.
  - rewrite <- Hn. f_equal. lia.
  - destruct (start <? 0)%Z eqn:Hneg; lia.
Qed.

(** ** The matcher walks the text *)

(** The matcher stands at offset [i] of [text]: [s] is what is left and
    [p] the character before. *)
Definition at_pos (text : str) (p : option char) (i : nat) (s : str) : Prop :=
  exists pre, text = pre ++ s /\ i = length pre /\ p = hd_error (rev pre).

Lemma at_pos_start (text : str) : at_pos text None 0 text.
Proof. exists []. auto. Qed.

Lemma at_pos_step (text : str) p i x s :
  at_pos text p i (x :: s) -> at_pos text (Some x) (S i) s.
Proof.
  intros (pre & E & Hi & _). exists (pre ++ [x]). split; [|split].
  - now rewrite <- app_assoc.
  - rewrite length_app. simpl. lia.
  - now rewrite rev_app_distr.
Qed.

Lemma at_pos_last (text : str) c i s :
  at_pos text (Some c) i s -> 1 <= i /\ nth_error text (i - 1) = Some c.
Proof.
  intros (pre & E & Hi & Hp).
  destruct (rev pre) as [|x t] eqn:Er; [discriminate|].
  injection Hp as <-.
  assert (Ep : pre = rev t ++ [c]).
  { rewrite <- (rev_involutive pre), Er. reflexivity. }
  subst pre. rewrite length_app in Hi. simpl in Hi. split; [lia|].
  subst text. rewrite <- app_assoc.
  replace (i - 1) with (length (rev t)) by lia.
  rewrite nth_error_app2 by lia. now rewrite Nat.sub_diag.
Qed.

(** The pattern can only end by consuming the character [c]. *)
Fixpoint ends_in (c : char) (r : re) : bool :=
  match r with
  | Lit l => match rev l with x :: _ => char_eqb x c | [] => false end
  | Seq _ b => ends_in c b
  | Alt a b => ends_in c a && ends_in c b
  | Group _ a => ends_in c a
  | _ => false
  end.

(** The last character of [l], or [p] when [l] is empty. *)
Definition last_or (l : str) (p : option char) : option char :=
  match rev l with
  | x :: _ => Some x
  | [] => p
  end.

Lemma last_or_cons (y : char) (l : str) (p : option char) :
  last_or (y :: l) p = last_or l (Some y).
Proof.
  unfold last_or. cbn [rev]. destruct (rev l); reflexivity.
Qed.

Lemma eat_walks (text l s : str) p i p' i' s' :
  at_pos text p i s -> eat l s p i = Some (p', i', s') ->
  at_pos text p' i' s' /\ i <= i' /\ p' = last_or l p.
Proof.
  revert s p i. induction l as [|y l IH]; intros s p i Hat; cbn [eat].
  - intros E. injection E as E1 E2 E3. subst. split; [exact Hat|].
    split; [lia|reflexivity].
  - destruct s as [|x s]; [discriminate|].
    destruct (char_eqb y x) eqn:Eyx; [|discriminate].
    intros E. apply at_pos_step in Hat.
    destruct (IH _ _ _ Hat E) as (Hat' & Hle & Hlast).
    split; [exact Hat'|]. split; [lia|].
    apply char_eqb_eq in Eyx. subst x. now rewrite last_or_cons.
Qed.

Section MatcherWalk.
Context `{UnicodeDb}.
Variable A : Type.
Variable text : str.

Lemma star_walks (c : cset) p i s (k : option char -> nat -> str -> option A)
      (x : A) :
  at_pos text p i s -> star c p i s k = Some x ->
  exists p' i' s', at_pos text p' i' s' /\ i <= i' /\ k p' i' s' = Some x.
Proof.
  revert p i. induction s as [|y s IH]; intros p i Hat; cbn [star].
  - intros E. exists p, i, []. auto.
  - destruct (in_cset c y); [|intros E; exists p, i, (y :: s); auto].
    destruct (star c (Some y) (S i) s k) as [r|] eqn:Es.
    + intros E. injection E as <-.
      destruct (IH _ _ (at_pos_step Hat) Es) as (p' & i' & s' & H1 & H2 & H3).
      exists p', i', s'. split; [exact H1|]. split; [lia|exact H3].
    + intros E. exists p, i, (y :: s). auto.
Qed.

Lemma rmatch_walks (r : re) :
  forall (k : kont A) p i s g x,
    at_pos text p i s -> rmatch r p i s g k = Some x ->
    exists p' i' s' g',
      at_pos text p' i' s' /\ i <= i' /\ k p' i' s' g' = Some x
      /\ forall c, ends_in c r = true -> p' = Some c.
Proof.
  induction r as [|l|c|c|c|a IHa b IHb|a IHa b IHb|a IHa|n a IHa| |];
    intros k p i s g x Hat; cbn [rmatch ends_in].
  - intros E. exists p, i, s, g.
    split; [exact Hat|]. split; [lia|]. split; [exact E|]. discriminate.
  - destruct (eat l s p i) as [[[p' i'] s']|] eqn:Ee; [|discriminate].
    intros E. destruct (eat_walks _ Hat Ee) as (Hat' & Hle & Hlast).
    exists p', i', s', g.
    split; [exact Hat'|]. split; [exact Hle|]. split; [exact E|].
    intros c0 Hc. rewrite Hlast. unfold last_or.
    destruct (rev l) as [|z t]; [discriminate|].
    apply char_eqb_eq in Hc. now subst z.
  - destruct s as [|y s]; [discriminate|].
    destruct (in_cset c y); [|discriminate].
    intros E. exists (Some y), (S i), s, g.
    split; [eapply at_pos_step; exact Hat|]. split; [lia|].
    split; [exact E|]. discriminate.
  - intros E.
    destruct (star_walks _ _ Hat E) as (p' & i' & s' & H1 & H2 & H3).
    exists p', i', s', g.
    split; [exact H1|]. split; [exact H2|]. split; [exact H3|]. discriminate.
  - destruct s as [|y s]; [discriminate|].
    destruct (in_cset c y); [|discriminate].
    intros E.
    destruct (star_walks _ _ (at_pos_step Hat) E)
      as (p' & i' & s' & H1 & H2 & H3).
    exists p', i', s', g.
    split; [exact H1|]. split; [lia|]. split; [exact H3|]. discriminate.
  - intros E.
    destruct (IHa _ _ _ _ _ _ Hat E)
      as (p1 & i1 & s1 & g1 & H1 & L1 & E1 & _).
    destruct (IHb _ _ _ _ _ _ H1 E1)
      as (p2 & i2 & s2 & g2 & H2 & L2 & E2 & Hl).
    exists p2, i2, s2, g2.
    split; [exact H2|]. split; [lia|]. split; [exact E2|exact Hl].
  - destruct (rmatch a p i s g k) as [r|] eqn:Ea.
    + intros E. injection E as <-.
      destruct (IHa _ _ _ _ _ _ Hat Ea)
        as (p1 & i1 & s1 & g1 & H1 & L1 & E1 & Hl).
      exists p1, i1, s1, g1.
      split; [exact H1|]. split; [exact L1|]. split; [exact E1|].
      intros c Hc. apply andb_true_iff in Hc as [Hc _]. auto.
    + intros E.
      destruct (IHb _ _ _ _ _ _ Hat E)
        as (p1 & i1 & s1 & g1 & H1 & L1 & E1 & Hl).
      exists p1, i1, s1, g1.
      split; [exact H1|]. split; [exact L1|]. split; [exact E1|].
      intros c Hc. apply andb_true_iff in Hc as [_ Hc]. auto.
  - destruct (rmatch a p i s g k) as [r|] eqn:Ea.
    + intros E. injection E as <-.
      destruct (IHa _ _ _ _ _ _ Hat Ea)
        as (p1 & i1 & s1 & g1 & H1 & L1 & E1 & _).
      exists p1, i1, s1, g1.
      split; [exact H1|]. split; [exact L1|]. split; [exact E1|].
      discriminate.
    + intros E. exists p, i, s, g.
      split; [exact Hat|]. split; [lia|]. split; [exact E|]. discriminate.
  - intros E.
    destruct (IHa _ _ _ _ _ _ Hat E)
      as (p1 & i1 & s1 & g1 & H1 & L1 & E1 & Hl).
    exists p1, i1, s1, ((n, (i, i1)) :: g1).
    split; [exact H1|]. split; [exact L1|]. split; [exact E1|exact Hl].
  - destruct (at_bol p); [|discriminate].
    intros E. exists p, i, s, g.
    split; [exact Hat|]. split; [lia|]. split; [exact E|]. discriminate.
  - destruct (xorb _ _); [|discriminate].
    intros E. exists p, i, s, g.
    split; [exact Hat|]. split; [lia|]. split; [exact E|]. discriminate.
Qed.
End MatcherWalk.

Section Declarations.
Context `{UnicodeDb}.

Lemma match_at_walks (text : str) (r : re) p i s (m : Match) :
  at_pos text p i s -> match_at r p i s = Some m ->
  m_start m = i /\ i <= m_end m
  /\ forall c, ends_in c r = true ->
               1 <= m_end m /\ nth_error text (m_end m - 1) = Some c.
Proof.
  intros Hat E. unfold match_at in E.
  eapply rmatch_walks in E; [|exact Hat].
  destruct E as (p' & i' & s' & g' & Hat' & Hle & Ek & Hl).
  injection Ek as <-. cbn [m_start m_end].
  split; [reflexivity|]. split; [exact Hle|].
  intros c Hc. apply Hl in Hc. subst p'. exact (at_pos_last Hat').
Qed.

Lemma finditer_from_walks (text : str) (r : re) (c : char) :
  ends_in c r = true ->
  forall s p i skip m,
    at_pos text p i s -> In m (finditer_from r p i s skip) ->
    1 <= m_end m /\ nth_error text (m_end m - 1) = Some c.
Proof.
  intros Hc. induction s as [|x s IH]; intros p i skip m Hat;
    cbn [finditer_from].
  - destruct skip; [|intros []].
    destruct (match_at r p i []) as [m'|] eqn:Em; [|intros []].
    intros [<-|[]]. eapply match_at_walks in Em; [|exact Hat].
    destruct Em as (_ & _ & Hl). now apply Hl.
  - destruct skip as [|skip].
    + destruct (match_at r p i (x :: s)) as [m'|] eqn:Em.
      * intros [<-|Hin].
        -- eapply match_at_walks in Em; [|exact Hat].
           destruct Em as (_ & _ & Hl). now apply Hl.
        -- exact (IH _ _ _ _ (at_pos_step Hat) Hin).
      * intros Hin. exact (IH _ _ _ _ (at_pos_step Hat) Hin).
    + intros Hin. exact (IH _ _ _ _ (at_pos_step Hat) Hin).
Qed.

Lemma index_from_here (c : char) (text : str) (a : nat) :
  nth_error text a = Some c -> index_from c (skipn a text) a = Some a.
Proof.
  intros Hn.
  destruct (skipn a text) as [|x s] eqn:Es.
  - exfalso. apply (f_equal (@length char)) in Es.
    rewrite length_skipn in Es. simpl in Es.
    assert (a < length text) by (apply nth_error_Some; congruence). lia.
  - assert (Hx : nth_error (skipn a text) 0 = Some c).
    { rewrite nth_error_skipn_add. now rewrite Nat.add_0_r. }
    rewrite Es in Hx. cbn in Hx. injection Hx as ->.
    cbn [index_from]. unfold char_eqb. now rewrite N.eqb_refl.
Qed.

Lemma find_char_here (c : char) (text : str) (e : nat) :
  1 <= e -> nth_error text (e - 1) = Some c ->
  find_char c text (Z.of_nat e - 1) = Some (e - 1).
Proof.
  intros He Hn. unfold find_char.
  replace (Z.of_nat e - 1 <? 0)%Z with false
    by (symmetry; apply Z.ltb_ge; lia).
  replace (Z.to_nat (Z.of_nat e - 1)) with (e - 1) by lia.
  now apply index_from_here.
Qed.

(** Both declaration patterns end with the opening brace, so the brace
    looked for from [m.end() - 1] is there, at that very offset. *)
Lemma declaration_brace (text : str) (m : Match) :
  In m (finditer SWIFTUI_VIEW_START_RE text)
  \/ In m (finditer UIKIT_VC_START_RE text) ->
  find_char LBRACE text (Z.of_nat (m_end m) - 1) = Some (m_end m - 1).
Proof.
  intros [Hin|Hin].
  - destruct (@finditer_from_walks text SWIFTUI_VIEW_START_RE LBRACE
                eq_refl text None 0 0 m (at_pos_start text) Hin) as [He Hn].
    now apply find_char_here.
  - destruct (@finditer_from_walks text UIKIT_VC_START_RE LBRACE
                eq_refl text None 0 0 m (at_pos_start text) Hin) as [He Hn].
    now apply find_char_here.
Qed.

(** C3, as the code has it.  For a match of a declaration pattern: when
    no opening brace is found from [m.end() - 1] on, the match gives no
    block; otherwise it gives one block named by the name group, which
    is the trimmed text from the start of the match to the first closing
    brace at which the depth, counted from the opening brace with every
    brace counted, is back to zero (and then ends with that brace),
    whatever the nesting; or, when there is no such brace, to the end of
    the text.  With the two patterns of the program the opening brace is
    always found, at [m.end() - 1].  Trimming takes whitespace away at
    both ends and nothing else. *)
Theorem block_extent (text : str) (name_group : nat) (m : Match) :
  let name := name_value (group text m name_group) in
  let found := find_char LBRACE text (Z.of_nat (m_end m) - 1) in
  (found = None -> block_at text name_group m = [])
  /\ (forall b,
        found = Some b ->
        nth_error text b = Some LBRACE
        /\ (Z.of_nat (m_end m) - 1 <= Z.of_nat b)%Z
        /\ ((exists e, matching_brace text b e)
            \/ (forall e, ~ closes text b e))
        /\ (forall e,
              matching_brace text b e ->
              block_at text name_group m
              = [(name, strip (slice text (m_start m) (S e)))]
              /\ (m_start m <= e ->
                  exists body,
                    strip (slice text (m_start m) (S e)) = body ++ [RBRACE]))
        /\ ((forall e, ~ closes text b e) ->
            block_at text name_group m
            = [(name, strip (skipn (m_start m) text))]))
  /\ (forall start_re,
        extract_blocks text start_re name_group
        = flat_map (block_at text name_group) (finditer start_re text))
  /\ (In m (finditer SWIFTUI_VIEW_START_RE text)
      \/ In m (finditer UIKIT_VC_START_RE text) ->
      found = Some (m_end m - 1))
  /\ (forall s,
        exists pre post,
          s = pre ++ strip s ++ post
          /\ forallb is_space pre = true /\ forallb is_space post = true).
Proof.
  intros name found. split; [|split; [|split; [|split]]];
    [| | | |apply strip_decomposition].
  - intros E. unfold block_at. fold found. now rewrite E.
  - intros b E.
    assert (Hs : (-1 <= Z.of_nat (m_end m) - 1)%Z) by lia.
    destruct (@find_char_spec _ _ _ _ Hs E) as [Hb Hle].
    split; [exact Hb|]. split; [exact Hle|].
    split; [apply matching_brace_or_none|]. split.
    + intros e He. split.
      * unfold block_at. fold found. rewrite E. fold name.
        rewrite (find_matching_brace_balanced He).
        now replace (Z.to_nat (Z.of_nat e + 1)) with (S e) by lia.
      * intros Hse. destruct He as [(_ & Hn & _) _].
        destruct (@slice_ends_with text _ _ _ Hse Hn) as (body & ->).
        apply strip_keeps_last. reflexivity.
    + intros Hnone. unfold block_at. fold found. rewrite E. fold name.
      rewrite (@find_matching_brace_unbalanced _ _ Hnone).
      replace (Z.to_nat (Z.of_nat (length text) - 1 + 1)) with (length text)
        by lia.
      now rewrite slice_to_end.
  - reflexivity.
  - apply declaration_brace.
Qed.
End Declarations.

(** ** Sorted sets *)

Section SortedSetFacts.
Variable T : Type.
Variable ltb eqb : T -> T -> bool.
Hypothesis ltb_trans :
  forall a b c, ltb a b = true -> ltb b c = true -> ltb a c = true.
Hypothesis ltb_total :
  forall a b, ltb a b = false -> eqb a b = false -> ltb b a = true.
Hypothesis eqb_eq : forall a b, eqb a b = true -> a = b.

Let lt (a b : T) : Prop := ltb a b = true.

Lemma set_insert_in (x y : T) (l : list T) :
  In y (set_insert ltb eqb x l) <-> y = x \/ In y l.
Proof.
  induction l as [|z l IH]; simpl.
  - intuition.
  - destruct (ltb x z) eqn:Hlt; [simpl; intuition|].
    destruct (eqb x z) eqn:Heq.
    + apply eqb_eq in Heq. subst z. simpl. intuition.
    + simpl. rewrite IH. intuition.
Qed.

Lemma set_insert_sorted (x : T) (l : list T) :
  StronglySorted lt l -> StronglySorted lt (set_insert ltb eqb x l).
Proof.
  induction 1 as [|z l Hs IH Hall]; simpl.
  - repeat constructor.
  - destruct (ltb x z) eqn:Hlt.
    + constructor; [constructor; assumption|].
      constructor; [exact Hlt|].
      eapply Forall_impl; [|exact Hall].
      intros a Ha. unfold lt in *. eauto.
    + destruct (eqb x z) eqn:Heq; [constructor; assumption|].
      constructor; [exact IH|].
      apply Forall_forall. intros a Ha.
      apply set_insert_in in Ha as [->|Ha].
      * apply ltb_total; assumption.
      * rewrite Forall_forall in Hall. now apply Hall.
Qed.

Lemma sorted_set_in (y : T) (l : list T) :
  In y (sorted_set ltb eqb l) <-> In y l.
Proof.
  induction l as [|x l IH]; simpl; [tauto|].
  rewrite set_insert_in, IH. intuition.
Qed.

Lemma sorted_set_sorted (l : list T) :
  StronglySorted lt (sorted_set ltb eqb l).
Proof.
  induction l as [|x l IH]; simpl; [constructor|].
  now apply set_insert_sorted.
Qed.
End SortedSetFacts.

Definition str_lt (a b : str) : Prop := str_ltb a b = true.

Lemma str_ltb_trans (a b c : str) :
  str_ltb a b = true -> str_ltb b c = true -> str_ltb a c = true.
Proof.
  revert b c. induction a as [|x a IH]; intros [|y b] [|z c]; simpl;
    try discriminate; try reflexivity.
  intros H1 H2.
  apply orb_true_iff in H1 as [H1|H1]; apply orb_true_iff in H2 as [H2|H2];
    apply orb_true_iff.
  - left. apply N.ltb_lt in H1, H2. apply N.ltb_lt. lia.
  - apply andb_true_iff in H2 as [E _]. apply N.eqb_eq in E. subst z. now left.
  - apply andb_true_iff in H1 as [E _]. apply N.eqb_eq in E. subst y. now left.
  - apply andb_true_iff in H1 as [E1 H1]. apply andb_true_iff in H2 as [E2 H2].
    apply N.eqb_eq in E1, E2. subst. right. rewrite N.eqb_refl. simpl. eauto.
Qed.

Lemma str_ltb_total (a b : str) :
  str_ltb a b = false -> str_eqb a b = false -> str_ltb b a = true.
Proof.
  revert b. induction a as [|x a IH]; intros [|y b]; simpl;
    try discriminate; try reflexivity.
  intros H1 H2. apply orb_false_iff in H1 as [H1 H1'].
  apply N.ltb_ge in H1. unfold char_eqb in H2.
  destruct (N.eqb x y) eqn:E.
  - apply N.eqb_eq in E. subst y. rewrite N.eqb_refl. simpl in *.
    rewrite (IH b H1' H2). apply orb_true_r.
  - apply N.eqb_neq in E. apply orb_true_iff. left. apply N.ltb_lt. lia.
Qed.

Lemma str_ltb_irrefl (a : str) : str_ltb a a = false.
Proof.
  induction a as [|x a IH]; simpl; [reflexivity|].
  rewrite N.ltb_irrefl, N.eqb_refl, IH. reflexivity.
Qed.

Lemma sorted_strs_in (y : str) (l : list str) :
  In y (sorted_strs l) <-> In y l.
Proof.
  apply sorted_set_in. intros a b E. now apply str_eqb_eq.
Qed.

Lemma sorted_strs_sorted (l : list str) : StronglySorted str_lt (sorted_strs l).
Proof.
  apply sorted_set_sorted.
  - exact str_ltb_trans.
  - exact str_ltb_total.
  - intros a b E. now apply str_eqb_eq.
Qed.

Lemma strongly_sorted_nodup (l : list str) : StronglySorted str_lt l -> NoDup l.
Proof.
  induction 1 as [|x l Hs IH Hall]; constructor; [|exact IH].
  intros Hin. rewrite Forall_forall in Hall. specialize (Hall x Hin).
  unfold str_lt in Hall. rewrite str_ltb_irrefl in Hall. discriminate.
Qed.

(** ** The audit predicate *)

Section Audit.
Context `{UnicodeDb}.

(** A chunk of kind [k] whose text has a control of that kind's
    vocabulary and no identifier in that kind's form. *)
Definition flagged_as (k : str) (interactive_re id_re : re) (ch : Chunk)
  : Prop :=
  kind_is ch k = true
  /\ 0 < count_matches interactive_re (text ch)
  /\ count_matches id_re (text ch) = 0.

Definition flagged (ch : Chunk) : Prop :=
  flagged_as (lit "swiftui_view") SWIFTUI_INTERACTIVE_RE SWIFTUI_A11Y_ID_RE ch
  \/ flagged_as (lit "uikit_viewcontroller")
                UIKIT_INTERACTIVE_RE UIKIT_A11Y_ID_RE ch.

(** The finding reported for a flagged chunk. *)
Definition finding_of (ch : Chunk) : AuditFinding :=
  {| path := meta_str ch (lit "path");
     screen := meta_str ch (lit "screen");
     ui := if kind_is ch (lit "swiftui_view") then lit "SwiftUI" else lit "UIKit";
     interactive_count :=
       if kind_is ch (lit "swiftui_view")
       then count_matches SWIFTUI_INTERACTIVE_RE (text ch)
       else count_matches UIKIT_INTERACTIVE_RE (text ch);
     accessibility_id_count := 0 |}.

Lemma kind_is_unique (ch : Chunk) (a b : str) :
  kind_is ch a = true -> kind_is ch b = true -> a = b.
Proof.
  unfold kind_is. destruct (dict_get (meta ch) (lit "kind")) as [v|];
    [|discriminate].
  intros Ha Hb. apply value_eqb_eq in Ha, Hb. congruence.
Qed.

Lemma audit_kind_flagged k label ire idre ch :
  flagged_as k ire idre ch ->
  audit_kind k label ire idre ch
  = [ {| path := meta_str ch (lit "path");
         screen := meta_str ch (lit "screen");
         ui := label;
         interactive_count := count_matches ire (text ch);
         accessibility_id_count := 0 |} ].
Proof.
  intros (Hk & Hi & Hz). unfold audit_kind. rewrite Hk, Hz.
  apply Nat.ltb_lt in Hi. rewrite Hi. reflexivity.
Qed.

Lemma audit_kind_not_flagged k label ire idre ch :
  ~ flagged_as k ire idre ch -> audit_kind k label ire idre ch = [].
Proof.
  intros Hn. unfold audit_kind.
  destruct (kind_is ch k) eqn:Hk; [|reflexivity].
  destruct (0 <? count_matches ire (text ch)) eqn:Hi; [|reflexivity].
  destruct (count_matches idre (text ch) =? 0) eqn:Hz; [|reflexivity].
  exfalso. apply Hn. split; [exact Hk|]. split.
  - now apply Nat.ltb_lt.
  - now apply Nat.eqb_eq.
Qed.

Lemma flagged_as_dec k ire idre ch :
  flagged_as k ire idre ch \/ ~ flagged_as k ire idre ch.
Proof.
  unfold flagged_as.
  destruct (kind_is ch k); [|right; intros (E & _); discriminate].
  destruct (count_matches ire (text ch)) as [|n];
    [right; intros (_ & E & _); lia|].
  destruct (count_matches idre (text ch)) as [|m];
    [left; repeat split; lia | right; intros (_ & _ & E); discriminate].
Qed.

Lemma audit_chunk_flagged ch : flagged ch -> audit_chunk ch = [finding_of ch].
Proof.
  intros [Hf|Hf]; unfold audit_chunk, finding_of.
  - rewrite (audit_kind_flagged (lit "SwiftUI") Hf).
    rewrite audit_kind_not_flagged.
    + destruct Hf as (Hk & _). rewrite Hk. reflexivity.
    + intros (Hk' & _). destruct Hf as (Hk & _).
      pose proof (kind_is_unique _ _ _ Hk Hk'). discriminate.
  - rewrite (audit_kind_flagged (lit "UIKit") Hf).
    rewrite audit_kind_not_flagged.
    + destruct Hf as (Hk & _).
      destruct (kind_is ch (lit "swiftui_view")) eqn:Hk'; [|reflexivity].
      pose proof (kind_is_unique _ _ _ Hk Hk'). discriminate.
    + intros (Hk' & _). destruct Hf as (Hk & _).
      pose proof (kind_is_unique _ _ _ Hk Hk'). discriminate.
Qed.

Lemma audit_chunk_not_flagged ch : ~ flagged ch -> audit_chunk ch = [].
Proof.
  intros Hn. unfold audit_chunk.
  rewrite !audit_kind_not_flagged; [reflexivity| |];
    intros Hf; apply Hn; [right|left]; exact Hf.
Qed.

Lemma flagged_dec ch : flagged ch \/ ~ flagged ch.
Proof.
  unfold flagged.
  destruct (flagged_as_dec (lit "swiftui_view") SWIFTUI_INTERACTIVE_RE
              SWIFTUI_A11Y_ID_RE ch);
  destruct (flagged_as_dec (lit "uikit_viewcontroller") UIKIT_INTERACTIVE_RE
              UIKIT_A11Y_ID_RE ch); tauto.
Qed.

(** C1. The findings of the audit are, chunk by chunk in the order of
    the list, the findings of each chunk; a chunk has exactly one finding
    (of its path and screen, with identifier count zero) if and only if
    it is a view or controller chunk whose own text has an
    interactive-control match and no identifier match, and none
    otherwise. *)
Theorem audit_accessibility_flags (chunks : list Chunk) :
  fst (audit_accessibility chunks) = flat_map audit_chunk chunks
  /\ forall ch,
       (audit_chunk ch = [finding_of ch] <-> flagged ch)
       /\ (audit_chunk ch = [] <-> ~ flagged ch)
       /\ (length (audit_chunk ch) = 1 <-> flagged ch).
Proof.
  split; [reflexivity|]. intros ch.
  destruct (flagged_dec ch) as [Hf|Hn].
  - rewrite (audit_chunk_flagged Hf). repeat split; auto; try discriminate.
    intros Hneg. contradiction.
  - rewrite (audit_chunk_not_flagged Hn). repeat split; auto;
      try discriminate; intros Hf; contradiction.
Qed.
End Audit.

(** ** The chunk builder *)

Section ChunkBuilder.
Context `{UnicodeDb}.

Definition chunk_kind (ch : Chunk) : option value :=
  dict_get (meta ch) (lit "kind").

(** The kinds the builder gives to the chunks of a file. *)
Definition FOUND_KINDS : list (option value) :=
  [Some (VStr (lit "swiftui_view")); Some (VStr (lit "screen_card"));
   Some (VStr (lit "uikit_viewcontroller"));
   Some (VStr (lit "accessibility_map"));
   Some (VStr (lit "navigation_signals"))].

Lemma view_chunks_kinds rel_path nb :
  map chunk_kind (view_chunks rel_path nb)
  = [Some (VStr (lit "swiftui_view")); Some (VStr (lit "screen_card"))].
Proof. reflexivity. Qed.

Lemma vc_chunks_kinds rel_path nb :
  map chunk_kind (vc_chunks rel_path nb)
  = [Some (VStr (lit "uikit_viewcontroller")); Some (VStr (lit "screen_card"))].
Proof. reflexivity. Qed.

Lemma amap_chunks_kinds file_text rel_path :
  Forall (fun ch => chunk_kind ch = Some (VStr (lit "accessibility_map")))
         (amap_chunks file_text rel_path).
Proof.
  unfold amap_chunks. destruct (file_ids file_text); repeat constructor.
Qed.

Lemma nav_chunks_kinds file_text rel_path :
  Forall (fun ch => chunk_kind ch = Some (VStr (lit "navigation_signals")))
         (nav_chunks file_text rel_path).
Proof.
  unfold nav_chunks. destruct (nav_scan _ _); repeat constructor.
Qed.

Lemma Forall_flat_map_intro (A B : Type) (P : B -> Prop) (f : A -> list B)
      (l : list A) :
  (forall a, Forall P (f a)) -> Forall P (flat_map f l).
Proof.
  intros Hf. induction l as [|a l IH]; simpl.
  - constructor.
  - apply Forall_app. split; [apply Hf | exact IH].
Qed.

Lemma Forall_of_map (A B : Type) (f : A -> B) (Q : B -> Prop)
      (l : list A) (ks : list B) :
  map f l = ks -> Forall Q ks -> Forall (fun x => Q (f x)) l.
Proof.
  intros <- HQ. induction l as [|a l IH]; [constructor|].
  inversion HQ; subst. constructor; auto.
Qed.

Lemma found_chunks_kinds file_text rel_path :
  Forall (fun ch => In (chunk_kind ch) FOUND_KINDS)
         (found_chunks file_text rel_path).
Proof.
  unfold found_chunks. repeat (apply Forall_app; split).
  - apply Forall_flat_map_intro. intros nb.
    refine (@Forall_of_map _ _ chunk_kind (fun k => In k FOUND_KINDS) _ _
              (view_chunks_kinds rel_path nb) _).
    repeat (constructor; [simpl; tauto|]). constructor.
  - apply Forall_flat_map_intro. intros nb.
    refine (@Forall_of_map _ _ chunk_kind (fun k => In k FOUND_KINDS) _ _
              (vc_chunks_kinds rel_path nb) _).
    repeat (constructor; [simpl; tauto|]). constructor.
  - eapply Forall_impl; [|apply amap_chunks_kinds].
    intros ch ->. simpl. auto.
  - eapply Forall_impl; [|apply nav_chunks_kinds].
    intros ch ->. simpl. auto 6.
Qed.

(** The raw fallback chunk of a file. *)
Definition raw_chunk (file_text rel_path : str) : Chunk :=
  {| text := firstn 4000 (strip file_text);
     meta := [(lit "kind", VStr (lit "swift_raw")); (lit "path", VStr rel_path)] |}.

Definition is_raw (ch : Chunk) : bool := kind_is ch (lit "swift_raw").

Lemma found_chunks_not_raw file_text rel_path :
  filter is_raw (found_chunks file_text rel_path) = [].
Proof.
  pose proof (found_chunks_kinds file_text rel_path) as HF.
  induction HF as [|ch l Hk _ IH]; [reflexivity|].
  simpl. rewrite IH.
  unfold is_raw, kind_is. unfold chunk_kind in Hk.
  destruct Hk as [E|[E|[E|[E|[E|[]]]]]]; rewrite <- E; reflexivity.
Qed.

Lemma fallback_chunks_spec chunks file_text rel_path :
  fallback_chunks chunks file_text rel_path
  = match chunks, strip file_text with
    | [], _ :: _ => [raw_chunk file_text rel_path]
    | _, _ => []
    end.
Proof.
  unfold fallback_chunks, raw_chunk.
  destruct chunks; [|reflexivity]. destruct (strip file_text); reflexivity.
Qed.

Lemma fallback_cases (found : list Chunk) (file_text rel_path : str) :
  filter is_raw found = [] ->
  let chunks := found ++ fallback_chunks found file_text rel_path in
  (filter is_raw chunks = [raw_chunk file_text rel_path]
   <-> found = [] /\ strip file_text <> [])
  /\ (filter is_raw chunks = [] <-> ~ (found = [] /\ strip file_text <> []))
  /\ (found = [] /\ strip file_text <> []
      <-> chunks = [raw_chunk file_text rel_path]).
Proof.
  intros Hraw chunks. subst chunks.
  rewrite filter_app, Hraw, fallback_chunks_spec. simpl.
  destruct found as [|c l]; destruct (strip file_text) as [|x r] eqn:Es;
    simpl; rewrite ?app_nil_r;
    intuition (try discriminate; try congruence);
    try match goal with
        | E : _ :: _ = [raw_chunk _ _] |- _ =>
            rewrite E in Hraw; discriminate
        end.
Qed.

End ChunkBuilder.

Section ChunkOrder.
Context `{UnicodeDb}.

Lemma nav_scan_acc (lines acc : list str) :
  length acc < 60 ->
  nav_scan lines acc
  = acc ++ firstn (60 - length acc) (map strip (filter nav_line lines)).
Proof.
  revert acc. induction lines as [|line rest IH]; intros acc Hlen.
  - cbn [nav_scan filter map]. rewrite firstn_nil, app_nil_r. reflexivity.
  - cbn [nav_scan filter]. destruct (nav_line line) eqn:Hn;
      [|apply IH; exact Hlen].
    cbn [map]. rewrite length_app. cbn [length].
    destruct (60 <=? length acc + 1) eqn:Hfull.
    + apply Nat.leb_le in Hfull.
      replace (60 - length acc) with 1 by lia. reflexivity.
    + apply Nat.leb_gt in Hfull.
      rewrite IH by (rewrite length_app; cbn [length]; lia).
      rewrite length_app. cbn [length]. rewrite <- app_assoc.
      replace (60 - length acc) with (S (60 - (length acc + 1))) by lia.
      reflexivity.
Qed.

(** The lines kept for the navigation chunk: the first 60 lines of the
    file that match a navigation pattern, each trimmed. *)
Lemma nav_scan_spec (lines : list str) :
  nav_scan lines [] = map strip (firstn 60 (filter nav_line lines)).
Proof.
  rewrite nav_scan_acc by (cbn [length]; lia).
  cbn [length app]. rewrite Nat.sub_0_r. now rewrite firstn_map.
Qed.

Definition view_card_text (rel_path : str) (name : value) (block : str)
  : str :=
  lit "{" ++ json_string (lit "type") ++ lit ":" ++ json_string (lit "SCREEN_CARD")
  ++ lit "," ++ json_string (lit "ui") ++ lit ":" ++ json_string (lit "SwiftUI")
  ++ lit "," ++ json_string (lit "screen") ++ lit ":"
  ++ safe_json (json_of_value name)
  ++ lit "," ++ json_string (lit "path") ++ lit ":" ++ json_string rel_path
  ++ lit "," ++ json_string (lit "buttons") ++ lit ":"
  ++ safe_json (JList (map JStr
       (firstn 50 (sorted_strs (findall1 SWIFTUI_BUTTON_RE block)))))
  ++ lit "," ++ json_string (lit "accessibility_ids") ++ lit ":"
  ++ safe_json (JList (map JStr
       (firstn 200 (sorted_strs (findall1 SWIFTUI_A11Y_ID_RE block)))))
  ++ lit "," ++ json_string (lit "has_navigation_signals") ++ lit ":"
  ++ safe_json (JBool (0 <? nav_hits block))
  ++ lit "}".

Definition vc_card_text (rel_path : str) (name : value) (block : str)
  : str :=
  lit "{" ++ json_string (lit "type") ++ lit ":" ++ json_string (lit "SCREEN_CARD")
  ++ lit "," ++ json_string (lit "ui") ++ lit ":" ++ json_string (lit "UIKit")
  ++ lit "," ++ json_string (lit "screen") ++ lit ":"
  ++ safe_json (json_of_value name)
  ++ lit "," ++ json_string (lit "path") ++ lit ":" ++ json_string rel_path
  ++ lit "," ++ json_string (lit "accessibility_ids") ++ lit ":"
  ++ safe_json (JList (map JStr
       (firstn 200 (sorted_strs (findall1 UIKIT_A11Y_ID_RE block)))))
  ++ lit "," ++ json_string (lit "has_navigation_signals") ++ lit ":"
  ++ safe_json (JBool (0 <? nav_hits block))
  ++ lit "}".

Lemma view_chunks_texts rel_path nb :
  map text (view_chunks rel_path nb)
  = [snd nb; view_card_text rel_path (fst nb) (snd nb)].
Proof.
  unfold view_chunks, view_card_text. cbn [map text]. f_equal. f_equal.
  cbn [safe_json map join fst snd]. rewrite <- !app_assoc. reflexivity.
Qed.

Lemma vc_chunks_texts rel_path nb :
  map text (vc_chunks rel_path nb)
  = [snd nb; vc_card_text rel_path (fst nb) (snd nb)].
Proof.
  unfold vc_chunks, vc_card_text. cbn [map text]. f_equal. f_equal.
  cbn [safe_json map join fst snd]. rewrite <- !app_assoc. reflexivity.
Qed.
End ChunkOrder.

Section ChunkOrderTheorem.
Context `{UnicodeDb}.

Definition amap_text (rel_path : str) (ids : list str) : str :=
  lit "ACCESSIBILITY_IDS" ++ [NEWLINE] ++ lit "path: " ++ rel_path
  ++ [NEWLINE] ++ join [NEWLINE] ids.

Definition nav_text (rel_path : str) (lines : list str) : str :=
  lit "NAVIGATION_SIGNALS" ++ [NEWLINE] ++ lit "path: " ++ rel_path
  ++ [NEWLINE] ++ join [NEWLINE] lines.

Lemma filter_nil_iff (A : Type) (f : A -> bool) (l : list A) :
  filter f l = [] <-> forall x, In x l -> f x = false.
Proof.
  induction l as [|a l IH]; simpl.
  - split; [intros _ x []|reflexivity].
  - destruct (f a) eqn:Ha; split.
    + discriminate.
    + intros Hall. specialize (Hall a (or_introl eq_refl)). congruence.
    + intros E x [<-|Hx]; [exact Ha|]. now apply IH.
    + intros Hall. apply IH. intros x Hx. apply Hall. now right.
Qed.

(** C8, as the code has it.  The chunks of a file come in this order:
    for each view block its block chunk then its screen card; for each
    controller block its block chunk then its screen card; the
    accessibility map, present exactly when the file holds an
    identifier, listing the path and the identifiers; the navigation
    chunk, present exactly when a line of the file matches a navigation
    pattern, holding the path and the first 60 such lines, each trimmed
    of surrounding whitespace; then the fallback.  A screen card is the
    record of the block's facts written with its keys in a fixed order. *)
Theorem build_chunks_order (file_text rel_path : str) :
  let views := extract_blocks file_text SWIFTUI_VIEW_START_RE 2 in
  let controllers := extract_blocks file_text UIKIT_VC_START_RE 3 in
  let ids := file_ids file_text in
  let lines := firstn 60 (filter nav_line (splitlines file_text)) in
  let found := found_chunks file_text rel_path in
  build_chunks_for_file file_text rel_path
  = flat_map (view_chunks rel_path) views
    ++ flat_map (vc_chunks rel_path) controllers
    ++ amap_chunks file_text rel_path
    ++ nav_chunks file_text rel_path
    ++ fallback_chunks found file_text rel_path
  /\ (forall nb,
        map text (view_chunks rel_path nb)
        = [snd nb; view_card_text rel_path (fst nb) (snd nb)]
        /\ map chunk_kind (view_chunks rel_path nb)
           = [Some (VStr (lit "swiftui_view")); Some (VStr (lit "screen_card"))])
  /\ (forall nb,
        map text (vc_chunks rel_path nb)
        = [snd nb; vc_card_text rel_path (fst nb) (snd nb)]
        /\ map chunk_kind (vc_chunks rel_path nb)
           = [Some (VStr (lit "uikit_viewcontroller"));
              Some (VStr (lit "screen_card"))])
  /\ map text (amap_chunks file_text rel_path)
     = match ids with [] => [] | _ :: _ => [amap_text rel_path ids] end
  /\ map chunk_kind (amap_chunks file_text rel_path)
     = match ids with
       | [] => []
       | _ :: _ => [Some (VStr (lit "accessibility_map"))]
       end
  /\ map text (nav_chunks file_text rel_path)
     = match lines with
       | [] => []
       | _ :: _ => [nav_text rel_path (map strip lines)]
       end
  /\ map chunk_kind (nav_chunks file_text rel_path)
     = match lines with
       | [] => []
       | _ :: _ => [Some (VStr (lit "navigation_signals"))]
       end
  /\ (lines = []
      <-> forall line, In line (splitlines file_text) -> nav_line line = false)
  /\ length lines <= 60.
Proof.
  intros views controllers ids lines found.
  split.
  { unfold build_chunks_for_file. fold found. unfold found at 1.
    unfold found_chunks. rewrite <- !app_assoc. reflexivity. }
  split.
  { intros nb. split; [apply view_chunks_texts | apply view_chunks_kinds]. }
  split.
  { intros nb. split; [apply vc_chunks_texts | apply vc_chunks_kinds]. }
  assert (Hnav : nav_scan (splitlines file_text) [] = map strip lines)
    by apply nav_scan_spec.
  split; [|split].
  { unfold amap_chunks. fold ids. destruct ids; reflexivity. }
  { unfold amap_chunks. fold ids. destruct ids; reflexivity. }
  split; [|split].
  { unfold nav_chunks. rewrite Hnav. destruct lines; reflexivity. }
  { unfold nav_chunks. rewrite Hnav. destruct lines; reflexivity. }
  split.
  - rewrite <- filter_nil_iff. subst lines.
    destruct (filter nav_line (splitlines file_text)); simpl;
      split; congruence.
  - apply firstn_le_length.
Qed.


End ChunkOrderTheorem.

(** ** Texts over a set of characters *)

Section MadeOf.
(** The characters of the set. *)
Variable P : char -> bool.

(** The text holds characters of the set only. *)
Definition made_of (s : str) : bool := forallb P s.

Lemma made_of_app (a b : str) : made_of (a ++ b) = made_of a && made_of b.
Proof. apply forallb_app. Qed.

Lemma made_of_rev (s : str) : made_of s = true -> made_of (rev s) = true.
Proof.
  unfold made_of. rewrite !forallb_forall. intros Hs x Hx.
  apply Hs. now apply in_rev.
Qed.

(** Every match of the pattern takes a literal that holds a character
    outside the set. *)
Fixpoint needs_other (r : re) : bool :=
  match r with
  | Lit l => negb (made_of l)
  | Seq a b => needs_other a || needs_other b
  | Alt a b => needs_other a && needs_other b
  | Group _ a => needs_other a
  | _ => false
  end.

Lemma eat_made_of (l s : str) p i :
  made_of l = false -> made_of s = true -> eat l s p i = None.
Proof.
  revert s p i. induction l as [|c l IH]; intros s p i Hl Hs; [discriminate|].
  cbn [eat]. destruct s as [|x s]; [reflexivity|].
  cbn [made_of forallb] in Hl, Hs. apply andb_true_iff in Hs as [Hx Hs].
  destruct (char_eqb c x) eqn:E; [|reflexivity].
  apply char_eqb_eq in E. subst x. rewrite Hx in Hl. cbn [andb] in Hl.
  now apply IH.
Qed.

Lemma eat_rest_made_of (l s : str) p i p' i' s' :
  eat l s p i = Some (p', i', s') -> made_of s = true -> made_of s' = true.
Proof.
  revert s p i. induction l as [|c l IH]; intros s p i; cbn [eat].
  - intros E. injection E as _ _ <-. auto.
  - destruct s as [|x s]; [discriminate|].
    destruct (char_eqb c x); [|discriminate].
    intros E Hs. cbn [made_of forallb] in Hs.
    apply andb_true_iff in Hs as [_ Hs]. now apply (IH _ _ _ E).
Qed.

Section Matching.
Context `{UnicodeDb}.
Variable A : Type.

Lemma star_dead (c : cset) (k : option char -> nat -> str -> option A) :
  (forall p i s, made_of s = true -> k p i s = None) ->
  forall s p i, made_of s = true -> star c p i s k = None.
Proof.
  intros Hk. induction s as [|x s IH]; intros p i Hs; cbn [star].
  - now apply Hk.
  - pose proof Hs as Hs'. cbn [made_of forallb] in Hs'.
    apply andb_true_iff in Hs' as [_ Hs'].
    destruct (in_cset c x); [|now apply Hk].
    rewrite (IH _ _ Hs'). now apply Hk.
Qed.

(** A continuation that fails on every rest made of the set. *)
Definition dead (k : kont A) : Prop :=
  forall p i s g, made_of s = true -> k p i s g = None.

Lemma rmatch_dead (r : re) :
  forall (k : kont A) p i s g,
    made_of s = true -> dead k -> rmatch r p i s g k = None.
Proof.
  induction r as [|l|c|c|c|a IHa b IHb|a IHa b IHb|a IHa|n a IHa| |];
    intros k p i s g Hs Hk; cbn [rmatch].
  - now apply Hk.
  - destruct (eat l s p i) as [[[p' i'] s']|] eqn:Ee; [|reflexivity].
    apply Hk. exact (@eat_rest_made_of _ _ _ _ _ _ _ Ee Hs).
  - destruct s as [|x s]; [reflexivity|].
    cbn [made_of forallb] in Hs. apply andb_true_iff in Hs as [_ Hs].
    destruct (in_cset c x); [|reflexivity]. now apply Hk.
  - apply star_dead; [|exact Hs]. intros p' i' s' Hs'. now apply Hk.
  - destruct s as [|x s]; [reflexivity|].
    cbn [made_of forallb] in Hs. apply andb_true_iff in Hs as [_ Hs].
    destruct (in_cset c x); [|reflexivity].
    apply star_dead; [|exact Hs]. intros p' i' s' Hs'. now apply Hk.
  - apply IHa; [exact Hs|]. intros p' i' s' g' Hs'. now apply IHb.
  - rewrite (IHa k p i s g Hs Hk). now apply IHb.
  - rewrite (IHa k p i s g Hs Hk). now apply Hk.
  - apply IHa; [exact Hs|]. intros p' i' s' g' Hs'. now apply Hk.
  - destruct (at_bol p); [now apply Hk|reflexivity].
  - destruct (xorb _ _); [now apply Hk|reflexivity].
Qed.

(** Such a pattern has no match in a text made of the set, whatever
    follows. *)
Lemma rmatch_made_of (r : re) :
  needs_other r = true ->
  forall (k : kont A) p i s g, made_of s = true -> rmatch r p i s g k = None.
Proof.
  induction r as [|l|c|c|c|a IHa b IHb|a IHa b IHb|a IHa|n a IHa| |];
    cbn [needs_other]; intros Hr k p i s g Hs; try discriminate; cbn [rmatch].
  - apply negb_true_iff in Hr. now rewrite (@eat_made_of l s p i Hr Hs).
  - apply orb_true_iff in Hr as [Ha|Hb].
    + now apply IHa.
    + apply rmatch_dead; [exact Hs|]. intros p' i' s' g' Hs'. now apply IHb.
  - apply andb_true_iff in Hr as [Ha Hb].
    rewrite (IHa Ha k p i s g Hs). now apply IHb.
  - now apply IHa.
Qed.
End Matching.

Section Files.
Context `{UnicodeDb}.

Lemma finditer_from_made_of (r : re) :
  needs_other r = true ->
  forall s p i skip, made_of s = true -> finditer_from r p i s skip = [].
Proof.
  intros Hr. induction s as [|x s IH]; intros p i skip Hs;
    cbn [finditer_from]; unfold match_at.
  - destruct skip; [|reflexivity]. now rewrite rmatch_made_of.
  - pose proof Hs as Hs'. cbn [made_of forallb] in Hs'.
    apply andb_true_iff in Hs' as [_ Hs'].
    destruct skip; [|now apply IH].
    rewrite rmatch_made_of; [|exact Hr|exact Hs]. now apply IH.
Qed.

Lemma finditer_made_of (r : re) (s : str) :
  needs_other r = true -> made_of s = true -> finditer r s = [].
Proof. intros Hr Hs. unfold finditer. now apply finditer_from_made_of. Qed.

Lemma nav_line_made_of (line : str) :
  forallb needs_other NAV_PATTERNS = true ->
  made_of line = true -> nav_line line = false.
Proof.
  intros Hall Hl. unfold nav_line.
  rewrite forallb_forall in Hall.
  destruct (existsb (fun p => search p line) NAV_PATTERNS) eqn:E;
    [|reflexivity].
  apply existsb_exists in E as (p & Hin & Hp).
  unfold search in Hp. rewrite (finditer_made_of p line (Hall p Hin) Hl) in Hp.
  discriminate.
Qed.

Lemma splitlines_from_made_of (n : nat) :
  forall s cur,
    length s <= n -> made_of s = true -> made_of cur = true ->
    Forall (fun l => made_of l = true) (splitlines_from s cur).
Proof.
  induction n as [|n IH]; intros s cur Hn Hs Hc;
    (destruct s as [|c s];
     [cbn [splitlines_from]; destruct cur; constructor;
      [now apply made_of_rev|constructor]|]);
    cbn [length] in Hn; [lia|].
  cbn [made_of forallb] in Hs. apply andb_true_iff in Hs as [Hx Hs].
  assert (Hcur : made_of (c :: cur) = true)
    by (cbn [made_of forallb]; now rewrite Hx).
  cbn [splitlines_from].
  destruct (char_eqb c 13%N).
  - destruct s as [|c' s'].
    + constructor; [now apply made_of_rev|]. apply IH; auto. cbn; lia.
    + pose proof Hs as Hs2. cbn [made_of forallb] in Hs2.
      apply andb_true_iff in Hs2 as [_ Hs2]. cbn [length] in Hn.
      destruct (char_eqb c' 10%N);
        (constructor; [now apply made_of_rev|]); apply IH; auto;
        cbn [length]; lia.
  - destruct (is_linebreak c).
    + constructor; [now apply made_of_rev|]. apply IH; auto. lia.
    + apply IH; auto. lia.
Qed.

Lemma splitlines_made_of (s : str) :
  made_of s = true -> Forall (fun l => made_of l = true) (splitlines s).
Proof.
  intros Hs. unfold splitlines.
  apply (@splitlines_from_made_of (length s) s []); auto.
Qed.
End Files.
End MadeOf.

(** ** Blank texts *)

(** The text holds whitespace only. *)
Definition is_blank (s : str) : bool := made_of is_space s.

Lemma lstrip_blank (s : str) : is_blank s = true -> lstrip s = [].
Proof.
  induction s as [|c s IH]; cbn [is_blank made_of forallb lstrip];
    [reflexivity|].
  intros Hs. apply andb_true_iff in Hs as [-> Hs]. now apply IH.
Qed.

(** A text is trimmed to nothing exactly when it is blank. *)
Lemma strip_nil_iff (s : str) : strip s = [] <-> is_blank s = true.
Proof.
  split.
  - intros E. destruct (strip_decomposition s) as (pre & post & Es & Hp & Hq).
    rewrite E in Es. cbn [app] in Es. rewrite Es. unfold is_blank.
    rewrite made_of_app. unfold made_of. now rewrite Hp, Hq.
  - intros Hs. unfold strip. now rewrite (lstrip_blank s Hs).
Qed.

Section Fallback.
Context `{UnicodeDb}.

Lemma sorted_strs_nil (l : list str) : sorted_strs l = [] <-> l = [].
Proof.
  split; [|intros ->; reflexivity].
  destruct l as [|x l]; [reflexivity|]. intros E. exfalso.
  assert (Hin : In x (sorted_strs (x :: l)))
    by (apply sorted_strs_in; now left).
  rewrite E in Hin. exact Hin.
Qed.

Lemma findall1_nil (r : re) (t : str) :
  findall1 r t = [] <-> finditer r t = [].
Proof.
  unfold findall1. destruct (finditer r t); simpl; split;
    try reflexivity; discriminate.
Qed.

(** A declaration pattern gives a block for each of its matches. *)
Lemma view_blocks_nil (file_text : str) :
  extract_blocks file_text SWIFTUI_VIEW_START_RE 2 = []
  <-> finditer SWIFTUI_VIEW_START_RE file_text = [].
Proof.
  unfold extract_blocks.
  destruct (finditer SWIFTUI_VIEW_START_RE file_text) as [|m ms] eqn:E;
    [split; reflexivity|].
  assert (Hb : find_char LBRACE file_text (Z.of_nat (m_end m) - 1)
               = Some (m_end m - 1)).
  { apply declaration_brace. left. rewrite E. now left. }
  cbn [flat_map]. unfold block_at at 1. rewrite Hb.
  split; discriminate.
Qed.

Lemma controller_blocks_nil (file_text : str) :
  extract_blocks file_text UIKIT_VC_START_RE 3 = []
  <-> finditer UIKIT_VC_START_RE file_text = [].
Proof.
  unfold extract_blocks.
  destruct (finditer UIKIT_VC_START_RE file_text) as [|m ms] eqn:E;
    [split; reflexivity|].
  assert (Hb : find_char LBRACE file_text (Z.of_nat (m_end m) - 1)
               = Some (m_end m - 1)).
  { apply declaration_brace. right. rewrite E. now left. }
  cbn [flat_map]. unfold block_at at 1. rewrite Hb.
  split; discriminate.
Qed.

Lemma flat_map_pair_nil (A : Type) (f : A -> list Chunk) (l : list A) :
  (forall a, exists c1 c2, f a = [c1; c2]) ->
  flat_map f l = [] <-> l = [].
Proof.
  intros Hf. destruct l as [|a l]; [split; reflexivity|].
  cbn [flat_map]. destruct (Hf a) as (c1 & c2 & ->).
  split; discriminate.
Qed.

(** Nothing is found in a file exactly when it has no match of a
    declaration pattern, no identifier of either form and no navigation
    line. *)
Lemma found_chunks_nil (file_text rel_path : str) :
  found_chunks file_text rel_path = []
  <-> finditer SWIFTUI_VIEW_START_RE file_text = []
      /\ finditer UIKIT_VC_START_RE file_text = []
      /\ finditer SWIFTUI_A11Y_ID_RE file_text = []
      /\ finditer UIKIT_A11Y_ID_RE file_text = []
      /\ forall line, In line (splitlines file_text) -> nav_line line = false.
Proof.
  unfold found_chunks.
  assert (Hv : flat_map (view_chunks rel_path)
                 (extract_blocks file_text SWIFTUI_VIEW_START_RE 2) = []
               <-> finditer SWIFTUI_VIEW_START_RE file_text = []).
  { rewrite flat_map_pair_nil; [apply view_blocks_nil|].
    intros nb. unfold view_chunks. eauto. }
  assert (Hc : flat_map (vc_chunks rel_path)
                 (extract_blocks file_text UIKIT_VC_START_RE 3) = []
               <-> finditer UIKIT_VC_START_RE file_text = []).
  { rewrite flat_map_pair_nil; [apply controller_blocks_nil|].
    intros nb. unfold vc_chunks. eauto. }
  assert (Ha : amap_chunks file_text rel_path = []
               <-> finditer SWIFTUI_A11Y_ID_RE file_text = []
                   /\ finditer UIKIT_A11Y_ID_RE file_text = []).
  { rewrite <- !findall1_nil. unfold amap_chunks.
    pose proof (sorted_strs_nil
                  (findall1 SWIFTUI_A11Y_ID_RE file_text
                   ++ findall1 UIKIT_A11Y_ID_RE file_text)) as Hs.
    fold (file_ids file_text) in Hs.
    destruct (file_ids file_text) eqn:Ef.
    - split; [intros _|reflexivity].
      apply app_eq_nil. now apply Hs.
    - split; [discriminate|]. intros [E1 E2].
      rewrite E1, E2 in Hs. simpl in Hs.
      destruct Hs as [_ Hs]. discriminate (Hs eq_refl). }
  assert (Hn : nav_chunks file_text rel_path = []
               <-> forall line, In line (splitlines file_text)
                                -> nav_line line = false).
  { rewrite <- filter_nil_iff. unfold nav_chunks. rewrite nav_scan_spec.
    destruct (filter nav_line (splitlines file_text)); simpl;
      split; try reflexivity; discriminate. }
  split.
  - intros E.
    apply app_eq_nil in E as [E1 E]. apply app_eq_nil in E as [E2 E].
    apply app_eq_nil in E as [E3 E4].
    destruct (proj1 Ha E3) as [E3a E3b].
    split; [exact (proj1 Hv E1)|]. split; [exact (proj1 Hc E2)|].
    split; [exact E3a|]. split; [exact E3b|exact (proj1 Hn E4)].
  - intros (E1 & E2 & E3 & E3' & E4).
    rewrite (proj2 Hv E1), (proj2 Hc E2).
    rewrite (proj2 Ha (conj E3 E3')), (proj2 Hn E4). reflexivity.
Qed.

(** Nothing is found in a file made of characters that the literals
    of the patterns of the builder do not all have. *)
Lemma found_chunks_made_of (P : char -> bool) (file_text rel_path : str) :
  forallb (needs_other P)
          ([SWIFTUI_VIEW_START_RE; UIKIT_VC_START_RE; SWIFTUI_A11Y_ID_RE;
            UIKIT_A11Y_ID_RE] ++ NAV_PATTERNS) = true ->
  made_of P file_text = true -> found_chunks file_text rel_path = [].
Proof.
  intros Hpat Hb. apply found_chunks_nil.
  cbn [app forallb] in Hpat.
  apply andb_true_iff in Hpat as [H1 Hpat].
  apply andb_true_iff in Hpat as [H2 Hpat].
  apply andb_true_iff in Hpat as [H3 Hpat].
  apply andb_true_iff in Hpat as [H4 Hnav].
  repeat split; try (now apply (@finditer_made_of P)).
  intros line Hin. apply (@nav_line_made_of P); [exact Hnav|].
  pose proof (@splitlines_made_of P file_text Hb) as Hl.
  rewrite Forall_forall in Hl. now apply Hl.
Qed.

(** Nothing is found in a blank file. *)
Lemma found_chunks_blank (file_text rel_path : str) :
  is_blank file_text = true -> found_chunks file_text rel_path = [].
Proof. apply found_chunks_made_of. reflexivity. Qed.

(** C4, as the code has it.  The chunks of a file are the chunks found
    in it followed by the fallback; none of the found chunks is a raw
    chunk; the fallback is the one raw chunk exactly when nothing was
    found and the trimmed text is not empty, and is absent otherwise;
    the raw chunk holds the first 4000 characters of the trimmed text;
    nothing is found exactly when the file has no match of a
    declaration pattern, no identifier and no navigation line; and the
    file gives no chunk at all exactly when its trimmed text is empty. *)
Theorem raw_fallback_rule (file_text rel_path : str) :
  let found := found_chunks file_text rel_path in
  let chunks := build_chunks_for_file file_text rel_path in
  chunks = found ++ fallback_chunks found file_text rel_path
  /\ filter is_raw found = []
  /\ (filter is_raw chunks = [raw_chunk file_text rel_path]
      <-> found = [] /\ strip file_text <> [])
  /\ (filter is_raw chunks = [] <-> ~ (found = [] /\ strip file_text <> []))
  /\ (found = [] /\ strip file_text <> []
      <-> chunks = [raw_chunk file_text rel_path])
  /\ text (raw_chunk file_text rel_path) = firstn 4000 (strip file_text)
  /\ length (text (raw_chunk file_text rel_path)) <= 4000
  /\ (found = []
      <-> finditer SWIFTUI_VIEW_START_RE file_text = []
          /\ finditer UIKIT_VC_START_RE file_text = []
          /\ finditer SWIFTUI_A11Y_ID_RE file_text = []
          /\ finditer UIKIT_A11Y_ID_RE file_text = []
          /\ forall line, In line (splitlines file_text)
                          -> nav_line line = false)
  /\ (strip file_text = [] <-> chunks = []).
Proof.
  intros found chunks.
  pose proof (found_chunks_not_raw file_text rel_path) as Hraw.
  pose proof (@fallback_cases found file_text rel_path Hraw) as (C1 & C2 & C3).
  split; [reflexivity|]. split; [exact Hraw|].
  split; [exact C1|]. split; [exact C2|]. split; [exact C3|].
  split; [reflexivity|]. split; [apply firstn_le_length|].
  split; [apply found_chunks_nil|].
  subst chunks. unfold build_chunks_for_file. fold found. split.
  - intros Es.
    assert (Ef : found = [])
      by (apply found_chunks_blank; now apply strip_nil_iff).
    rewrite Ef. cbn [app fallback_chunks]. now rewrite Es.
  - intros E. apply app_eq_nil in E as [Ef E]. rewrite Ef in E.
    cbn [fallback_chunks] in E.
    destruct (strip file_text); [reflexivity|discriminate].
Qed.
End Fallback.

(** ** Ingestion *)

Section Ingestion.
Context `{UnicodeDb} `{Hashlib}.

(** The findings of the audit of a run; [None] when the run stops
    before the audit (no directory, or no Swift file under it). *)
Definition run_findings (disk : Disk) : option (list AuditFinding) :=
  if is_dir disk then
    match swift_files disk with
    | [] => None
    | files => Some (fst (audit_accessibility (all_chunks files)))
    end
  else None.

Lemma audit_findings (chunks : list Chunk) :
  fst (audit_accessibility chunks) = flat_map audit_chunk chunks.
Proof. reflexivity. Qed.

Definition AUDIT_FAILED : str :=
  lit "ACCESSIBILITY AUDIT FAILED (missing IDs detected).".

Lemma length_pos_nonempty (A : Type) (l : list A) :
  (0 <? length l) = true <-> l <> [].
Proof.
  destruct l; simpl; split; try discriminate; try reflexivity.
  intros E. now contradiction E.
Qed.

(** What a run that the fail-fast gate stops does. *)
Lemma cmd_ingest_at_gate (store : StoreEnv) (args : Args) (disk : Disk)
      (findings : list AuditFinding) :
  fail_if_missing_ids args = true ->
  run_findings disk = Some findings ->
  findings <> [] ->
  cmd_ingest store args disk
  = {| outcome := Returned 3;
       stdout := [AUDIT_FAILED; safe_json (audit_failure_report findings)];
       stderr := [];
       store_writes := [] |}.
Proof.
  intros Hflag Hrun Hne.
  unfold run_findings in Hrun. unfold cmd_ingest.
  destruct (is_dir disk); [|discriminate]. cbn [negb].
  destruct (swift_files disk) as [|f files]; [discriminate|].
  rewrite audit_findings in Hrun.
  assert (E : flat_map audit_chunk (all_chunks (f :: files)) = findings)
    by congruence.
  unfold audit_accessibility. rewrite E.
  rewrite Hflag. apply length_pos_nonempty in Hne. rewrite Hne.
  reflexivity.
Qed.


(** What a run past the fail-fast gate does with the store. *)
Lemma cmd_ingest_past_gate (store : StoreEnv) (args : Args) (disk : Disk)
      (findings : list AuditFinding) :
  run_findings disk = Some findings ->
  fail_if_missing_ids args = false \/ findings = [] ->
  cmd_ingest store args disk
  = let docs := ingest_docs findings (audit_summary findings)
                            (all_chunks (swift_files disk)) in
    match build_raises store (persist args) (collection args)
                       (embed_model args) with
    | Some msg =>
        {| outcome := Uncaught BuildVectorstore msg;
           stdout := []; stderr := []; store_writes := [] |}
    | None =>
        match add_documents_raises store (batch_of docs) with
        | Some msg =>
            {| outcome := Uncaught AddDocuments msg;
               stdout := []; stderr := []; store_writes := [batch_of docs] |}
        | None =>
            match persist_raises store with
            | Some msg =>
                {| outcome := Uncaught Persist msg;
                   stdout := []; stderr := [];
                   store_writes := [batch_of docs] |}
            | None =>
                {| outcome := Returned 0;
                   stdout := [safe_json
                                (ok_report args (length (swift_files disk))
                                           (length docs) (length findings))];
                   stderr := [];
                   store_writes := [batch_of docs] |}
            end
        end
    end.
Proof.
  intros Hrun Hgate. unfold run_findings in Hrun. unfold cmd_ingest.
  destruct (is_dir disk); [|discriminate]. cbn [negb].
  destruct (swift_files disk) as [|f files] eqn:Hfiles; [discriminate|].
  rewrite audit_findings in Hrun.
  assert (E : flat_map audit_chunk (all_chunks (f :: files)) = findings)
    by congruence.
  unfold audit_accessibility. rewrite E.
  assert (Hg : fail_if_missing_ids args && (0 <? length findings) = false).
  { destruct Hgate as [-> | ->]; [reflexivity|].
    cbn [length]. apply andb_false_r. }
  rewrite Hg. cbv zeta.
  destruct (build_raises store _ _ _); [reflexivity|].
  unfold upsert_documents.
  destruct (add_documents_raises store _); [reflexivity|].
  destruct (persist_raises store); reflexivity.
Qed.

(** The runs that stop before the audit. *)
Lemma run_findings_none (disk : Disk) :
  run_findings disk = None <-> is_dir disk = false \/ swift_files disk = [].
Proof.
  unfold run_findings. destruct (is_dir disk).
  - destruct (swift_files disk); split; try discriminate; auto.
    intros [E|E]; discriminate.
  - split; auto.
Qed.

(** The status 2 is that of the two guards, and such a run prints
    nothing on the standard output and makes no call on the store. *)
Lemma cmd_ingest_status_2 (store : StoreEnv) (args : Args) (disk : Disk) :
  (outcome (cmd_ingest store args disk) = Returned 2
   <-> is_dir disk = false \/ swift_files disk = [])
  /\ (is_dir disk = false \/ swift_files disk = [] ->
      store_writes (cmd_ingest store args disk) = []
      /\ stdout (cmd_ingest store args disk) = []
      /\ stderr (cmd_ingest store args disk) <> []).
Proof.
  unfold cmd_ingest. destruct (is_dir disk); cbn [negb].
  - destruct (swift_files disk) as [|f files].
    + cbn. split; [split; auto|]. intros _. repeat split. discriminate.
    + unfold audit_accessibility.
      destruct (fail_if_missing_ids args && (0 <? length _)).
      * cbn. split; [split; [discriminate|]|]; intros [E|E]; discriminate.
      * cbv zeta. destruct (build_raises store _ _ _);
          [cbn; split; [split; [discriminate|]|]; intros [E|E]; discriminate|].
        unfold upsert_documents.
        destruct (add_documents_raises store _);
          [cbn; split; [split; [discriminate|]|]; intros [E|E]; discriminate|].
        destruct (persist_raises store);
          cbn; (split; [split; [discriminate|]|]); intros [E|E]; discriminate.
  - cbn. split; [split; auto|]. intros _. repeat split. discriminate.
Qed.


End Ingestion.

(** ** Context assembly *)

(** The string a document holds under the key [k], if it holds one. *)
Definition str_field (k : str) (doc : Document) : list str :=
  match dict_get (metadata doc) k with
  | Some (VStr s) => [s]
  | _ => []
  end.

(** The identifiers joined in a field: none in the empty string, the
    pieces between the separators otherwise. *)
Definition unjoin (s : str) : list str :=
  match s with
  | [] => []
  | _ => split_on BAR s
  end.

(** The union of the split [accessibility_ids] fields. *)
Definition id_union (docs : list Document) : list str :=
  flat_map unjoin (flat_map (str_field (lit "accessibility_ids")) docs).

(** The non-empty [screen] fields. *)
Definition screen_union (docs : list Document) : list str :=
  filter (fun s => negb (str_eqb s [])) (flat_map (str_field (lit "screen")) docs).

(** The field [k] of the document is absent, [None] or a string. *)
Definition string_field (k : str) (doc : Document) : bool :=
  match dict_get (metadata doc) k with
  | Some (VInt _) => false
  | _ => true
  end.

Definition string_fields (doc : Document) : bool :=
  string_field (lit "accessibility_ids") doc && string_field (lit "screen") doc.

(** What [query_rag] returns once the search has returned [docs]. *)
Definition assembled (docs : list Document) : Bundle :=
  match assemble docs with
  | inr b => b
  | inl e => error_bundle e
  end.

Lemma collect_acc (docs : list Document) ids scr snippets :
  Forall (fun d => string_fields d = true) docs ->
  collect docs ids scr snippets
  = inr (ids ++ id_union docs,
         scr ++ map VStr (screen_union docs),
         snippets ++ flat_map doc_snippets docs).
Proof.
  intros Hall. revert ids scr snippets.
  induction Hall as [|doc docs Hd _ IH]; intros ids scr snippets.
  - simpl. unfold id_union, screen_union. simpl. now rewrite !app_nil_r.
  - cbn [collect].
    apply andb_true_iff in Hd as [Hi Hs].
    unfold string_field in Hi, Hs.
    assert (Ei : doc_ids (metadata doc)
                 = inr (flat_map unjoin (str_field (lit "accessibility_ids") doc))).
    { unfold doc_ids, str_field.
      destruct (dict_get (metadata doc) (lit "accessibility_ids")) as [[|z|s]|];
        try reflexivity; try discriminate.
      destruct s; simpl; [reflexivity|now rewrite app_nil_r]. }
    assert (Es : doc_screens (metadata doc)
                 = map VStr (filter (fun s => negb (str_eqb s []))
                                    (str_field (lit "screen") doc))).
    { unfold doc_screens, str_field.
      destruct (dict_get (metadata doc) (lit "screen")) as [[|z|s]|];
        try reflexivity; try discriminate.
      destruct s; reflexivity. }
    rewrite Ei, IH, Es. unfold id_union, screen_union.
    cbn [flat_map]. rewrite !flat_map_app, filter_app, map_app, <- !app_assoc.
    reflexivity.
Qed.

Lemma sorted_values_strs (l : list str) :
  sorted_set value_ltb value_eqb (map VStr l) = map VStr (sorted_strs l).
Proof.
  unfold sorted_strs. induction l as [|x l IH]; [reflexivity|].
  cbn [map sorted_set fold_right]. fold (sorted_set value_ltb value_eqb (map VStr l)).
  fold (sorted_set str_ltb str_eqb l). rewrite IH.
  generalize (sorted_set str_ltb str_eqb l) as r. intros r.
  induction r as [|y r IHr]; [reflexivity|].
  cbn [map set_insert value_ltb value_eqb].
  destruct (str_ltb x y); [reflexivity|].
  destruct (str_eqb x y); [reflexivity|].
  cbn [map]. now rewrite IHr.
Qed.

Lemma forallb_vstr (l : list str) : forallb is_vstr (map VStr l) = true.
Proof. induction l; simpl; auto. Qed.

Lemma assemble_strings (docs : list Document) :
  Forall (fun d => string_fields d = true) docs ->
  assemble docs
  = inr {| accessibility_ids := sorted_strs (id_union docs);
           screens := map VStr (sorted_strs (screen_union docs));
           code_snippets := firstn 5 (flat_map doc_snippets docs);
           total_docs_retrieved := length docs;
           error := None |}.
Proof.
  intros Hall. unfold assemble. rewrite (collect_acc [] [] [] Hall).
  cbn [app]. unfold sorted_values. rewrite forallb_vstr. cbn [orb].
  now rewrite sorted_values_strs.
Qed.




Lemma firstn_Forall (A : Type) (P : A -> Prop) (n : nat) (l : list A) :
  Forall P l -> Forall P (firstn n l).
Proof.
  intros Hl. revert n. induction Hl as [|x l Hx _ IH]; intros [|n]; simpl;
    constructor; auto.
Qed.


(** *** Fields of any type *)


















Definition empty_bundle : Bundle :=
  {| accessibility_ids := [];
     screens := [];
     code_snippets := [];
     total_docs_retrieved := 0;
     error := None |}.

(** C7. Whatever fails inside [query_rag] (building the handle,
    searching, or reading the documents found), the result is the bundle
    with empty lists, count 0 and the error attached; a search that finds
    nothing gives the bundle with empty lists, count 0 and no error.
    [query_rag] returns a bundle on every input. *)
Theorem query_rag_degrades (build : exn + Store) (g : option Store)
        (top_k : Z) (test_description : str) (k : option Z) :
  let k' := match k with Some k => k | None => top_k end in
  let b := fst (query_rag build g top_k test_description k) in
  (forall e, fst (get_vectorstore build g) = inl e -> b = error_bundle e)
  /\ (forall vs e,
        fst (get_vectorstore build g) = inr vs ->
        similarity_search vs test_description k' = inl e ->
        b = error_bundle e)
  /\ (forall vs docs e,
        fst (get_vectorstore build g) = inr vs ->
        similarity_search vs test_description k' = inr docs ->
        assemble docs = inl e ->
        b = error_bundle e)
  /\ (forall vs,
        fst (get_vectorstore build g) = inr vs ->
        similarity_search vs test_description k' = inr [] ->
        b = empty_bundle)
  /\ (forall e,
        accessibility_ids (error_bundle e) = []
        /\ screens (error_bundle e) = []
        /\ code_snippets (error_bundle e) = []
        /\ total_docs_retrieved (error_bundle e) = 0
        /\ error (error_bundle e) = Some e).
Proof.
  intros k' b. subst b. unfold query_rag. fold k'.
  destruct (get_vectorstore build g) as [got g'] eqn:Eg. cbn [fst].
  split; [|split; [|split; [|split]]].
  - intros e ->. reflexivity.
  - intros vs e -> Es. rewrite Es. reflexivity.
  - intros vs docs e -> Es Ea. rewrite Es, Ea. reflexivity.
  - intros vs -> Es. rewrite Es. reflexivity.
  - intros e. repeat split.
Qed.

(** ** The test-type gate *)

Section Gate.
Context `{UnicodeDb}.
Variable Response : Type.
Variable generate : str -> TestGenerationRequest -> raised + Response.
Variable generate_with_context :
  str -> RAGTestGenerationRequest -> raised + Response.

Lemma test_types_spec (tt : str) :
  str_in tt TEST_TYPES = true <-> tt = lit "unit" \/ tt = lit "ui".
Proof.
  unfold TEST_TYPES. cbn [str_in]. rewrite !orb_true_iff, !str_eqb_eq.
  intuition discriminate.
Qed.

(** The handler of [generate_test_with_rag] around what follows the
    check. *)
Definition rag_handler (result : raised + Response) : raised + Response :=
  match result with
  | inr r => inr r
  | inl (HTTPException c d) => inl (HTTPException c d)
  | inl (ValueError msg) =>
      inl (HTTPException 500 (lit "Error generating test with RAG: " ++ msg))
  | inl (OtherException msg) =>
      inl (HTTPException 500 (lit "Error generating test with RAG: " ++ msg))
  end.

(** C9. A test type that, lowercased and trimmed, is neither "unit" nor
    "ui" makes [run] raise [ValueError] before anything else is done,
    which [generate_test] turns into the status 400, and makes
    [generate_test_with_rag] raise the status 400 itself; for "unit" and
    "ui" the request goes on with the normalised type. *)
Theorem test_type_gate (request : TestGenerationRequest)
        (rag_request : RAGTestGenerationRequest) :
  let tt := normalise (test_type request) in
  let rtt := normalise (rag_test_type rag_request) in
  (tt <> lit "unit" /\ tt <> lit "ui" ->
     run generate request = inl (ValueError TEST_TYPE_MESSAGE)
     /\ generate_test generate request
        = inl (HTTPException 400 TEST_TYPE_MESSAGE))
  /\ (tt = lit "unit" \/ tt = lit "ui" ->
        run generate request = generate tt request)
  /\ (rtt <> lit "unit" /\ rtt <> lit "ui" ->
        generate_test_with_rag generate_with_context rag_request
        = inl (HTTPException 400 TEST_TYPE_MESSAGE))
  /\ (rtt = lit "unit" \/ rtt = lit "ui" ->
        generate_test_with_rag generate_with_context rag_request
        = rag_handler (generate_with_context rtt rag_request)).
Proof.
  intros tt rtt. unfold generate_test, run, generate_test_with_rag.
  fold tt rtt.
  pose proof (test_types_spec tt) as Ht.
  pose proof (test_types_spec rtt) as Hr.
  destruct (str_in tt TEST_TYPES); destruct (str_in rtt TEST_TYPES);
    cbn [negb]; (split; [|split; [|split]]); intros Hyp;
    try (split; reflexivity); try reflexivity;
    try (exfalso; destruct Hyp as [H1 H2];
         first [destruct (proj1 Ht eq_refl); contradiction
               |destruct (proj1 Hr eq_refl); contradiction]);
    try (exfalso; first [apply Ht in Hyp | apply Hr in Hyp]; discriminate).
Qed.
End Gate.


(** ** Document identifiers *)

(** A code point that UTF-8 encodes: not a surrogate, at most 0x10FFFF. *)
Definition scalar (c : char) : bool :=
  ((c <? 55296) || (57343 <? c) && (c <? 1114112))%N.

Ltac Zify.zify_post_hook ::= Z.to_euclidean_division_equations.

Lemma utf8_char_cases (a : char) :
  scalar a = true ->
  ((a < 128)%N /\ utf8_char a = [a])
  \/ ((128 <= a < 2048)%N
      /\ utf8_char a = [192 + a / 64; 128 + a mod 64]%N)
  \/ ((2048 <= a < 65536)%N
      /\ utf8_char a
         = [224 + a / 4096; 128 + (a / 64) mod 64; 128 + a mod 64]%N)
  \/ ((65536 <= a < 1114112)%N
      /\ utf8_char a
         = [240 + a / 262144; 128 + (a / 4096) mod 64;
            128 + (a / 64) mod 64; 128 + a mod 64]%N).
Proof.
  unfold scalar, utf8_char. intros Ha.
  destruct (a <? 128)%N eqn:A1; [left; split; [now apply N.ltb_lt|reflexivity]|].
  apply N.ltb_ge in A1.
  destruct (a <? 2048)%N eqn:A2;
    [right; left; split; [apply N.ltb_lt in A2; lia|reflexivity]|].
  apply N.ltb_ge in A2.
  apply orb_true_iff in Ha as [Ha|Ha].
  - apply N.ltb_lt in Ha.
    replace ((55296 <=? a) && (a <=? 57343))%N with false
      by (symmetry; apply andb_false_iff; left; apply N.leb_gt; lia).
    replace (a <? 65536)%N with true by (symmetry; apply N.ltb_lt; lia).
    right; right; left. split; [lia|reflexivity].
  - apply andb_true_iff in Ha as [Ha1 Ha2].
    apply N.ltb_lt in Ha1, Ha2.
    replace ((55296 <=? a) && (a <=? 57343))%N with false
      by (symmetry; apply andb_false_iff; right; apply N.leb_gt; lia).
    destruct (a <? 65536)%N eqn:A4.
    + apply N.ltb_lt in A4. right; right; left. split; [lia|reflexivity].
    + apply N.ltb_ge in A4.
      replace (a <? 1114112)%N with true by (symmetry; apply N.ltb_lt; lia).
      right; right; right. split; [lia|reflexivity].
Qed.

Lemma cons_inj (A : Type) (x y : A) (l l' : list A) :
  x :: l = y :: l' -> x = y /\ l = l'.
Proof. intros E. now injection E. Qed.

Lemma utf8_char_inj (a b : char) (r1 r2 : list byte) :
  scalar a = true -> scalar b = true ->
  utf8_char a ++ r1 = utf8_char b ++ r2 -> a = b /\ r1 = r2.
Proof.
  intros Ha Hb.
  destruct (utf8_char_cases a Ha) as [[A ->]|[[A ->]|[[A ->]|[A ->]]]];
  destruct (utf8_char_cases b Hb) as [[B ->]|[[B ->]|[[B ->]|[B ->]]]];
  cbn [app]; intros E;
  repeat match goal with
         | E : _ :: _ = _ :: _ |- _ =>
             apply cons_inj in E; destruct E as [? E]
         end;
  first [split; [lia|assumption] | exfalso; lia].
Qed.

Ltac Zify.zify_post_hook ::= idtac.

Lemma utf8_encode_app (s1 s2 : str) :
  utf8_encode (s1 ++ s2) = utf8_encode s1 ++ utf8_encode s2.
Proof. unfold utf8_encode. apply flat_map_app. Qed.

Lemma utf8_char_nonempty (a : char) : scalar a = true -> utf8_char a <> [].
Proof.
  intros Ha.
  destruct (utf8_char_cases a Ha) as [[A ->]|[[A ->]|[[A ->]|[A ->]]]];
    discriminate.
Qed.

(** On strings of encodable code points the encoding loses nothing. *)
Lemma utf8_encode_inj (s1 s2 : str) :
  forallb scalar s1 = true -> forallb scalar s2 = true ->
  utf8_encode s1 = utf8_encode s2 -> s1 = s2.
Proof.
  revert s2. induction s1 as [|a s1 IH]; intros [|b s2]; cbn [forallb];
    intros H1 H2 E.
  - reflexivity.
  - exfalso. apply andb_true_iff in H2 as [Hb _].
    cbn in E. destruct (utf8_char b) eqn:Eb; [|discriminate].
    now apply (utf8_char_nonempty b Hb).
  - exfalso. apply andb_true_iff in H1 as [Ha _].
    cbn in E. destruct (utf8_char a) eqn:Ea; [|discriminate].
    now apply (utf8_char_nonempty a Ha).
  - apply andb_true_iff in H1 as [Ha H1]. apply andb_true_iff in H2 as [Hb H2].
    unfold utf8_encode in E. cbn [flat_map] in E.
    apply utf8_char_inj in E as [-> E]; [|assumption|assumption].
    f_equal. now apply IH.
Qed.


(** What the loop of the brace matcher returns is the matching brace. *)
Lemma brace_loop_matching (text : str) (b e : nat) :
  brace_loop (skipn b text) b 0 = Some e -> matching_brace text b e.
Proof.
  intros E. apply brace_loop_some in E as (n & -> & Hn & Hmin). split.
  - apply closes_iff. split; [lia|].
    now replace (b + n - b) with n by lia.
  - intros e' Hlt Hc. apply closes_iff in Hc as [Hbe Hat].
    apply (Hmin (e' - b)); [lia|exact Hat].
Qed.

(** * The rest of the backend and of the indexer

    The helpers of [utils.py] that clean and check the generated code,
    the rest of [TestGenerator.run], the batch endpoint of [main.py], and
    the file walk and the query command of [ios_rag_mvp.py]. *)

(** ** More of Python's strings *)

(** [s.startswith(p)] *)
Fixpoint startswith (s p : str) : bool :=
  match p, s with
  | [], _ => true
  | c :: p', x :: s' => char_eqb c x && startswith s' p'
  | _ :: _, [] => false
  end.

(** [s.endswith(p)] *)
Definition endswith (s p : str) : bool := startswith (rev s) (rev p).

(** [sub in s] *)
Fixpoint contains (s sub : str) : bool :=
  startswith s sub
  || match s with
     | [] => false
     | _ :: s' => contains s' sub
     end.

(** [s.split(sep, 1)[1]] for a separator that is not empty: what follows
    the first occurrence of [sep]; [None] is the [IndexError] raised when
    [sep] does not occur. *)
Fixpoint after_first (s sep : str) : option str :=
  if startswith s sep then Some (skipn (length sep) s)
  else match s with
       | [] => None
       | _ :: s' => after_first s' sep
       end.

(** [s.split(sep, 1)[0]]: what precedes the first occurrence of [sep],
    all of [s] when there is none. *)
Fixpoint before_first (s sep : str) : str :=
  if startswith s sep then []
  else match s with
       | [] => []
       | c :: s' => c :: before_first s' sep
       end.

(** ** Cleaning and checking the generated code: [utils.py] *)

(** [validate_xcuitest_contract]: the checks in the order of the
    dictionary. *)
Definition validate_xcuitest_contract (swift_code : str) : list (str * bool) :=
  [(lit "has_xcuiapplication", contains swift_code (lit "XCUIApplication()"));
   (lit "has_app_launch", contains swift_code (lit "app.launch()"));
   (lit "has_wait_for_existence",
     contains swift_code (lit "waitForExistence(timeout:")
     || contains swift_code (lit "XCTNSPredicateExpectation"));
   (lit "has_assertions",
     existsb (contains swift_code)
       [lit "XCTAssertTrue"; lit "XCTAssertEqual"; lit "XCTAssertFalse";
        lit "XCTAssertNotNil"]);
   (lit "has_setup_teardown",
     contains swift_code (lit "setUpWithError")
     && contains swift_code (lit "tearDownWithError"))].

Definition FENCE : str := lit "```".

Definition SWIFT_FENCE : str := lit "```swift".

(** [strip_code_fences] *)
Definition strip_code_fences (swift_code : str) : str :=
  let s := strip swift_code in
  let s := if startswith s SWIFT_FENCE
           then strip (skipn (length SWIFT_FENCE) s) else s in
  let s := if startswith s FENCE then strip (skipn (length FENCE) s) else s in
  if endswith s FENCE then strip (firstn (length s - 3) s) else s.

(** The loop of [extract_class_name] over the lines of the code. *)
Fixpoint class_name_in (lines : list str) (fallback : str) : str :=
  match lines with
  | [] => fallback
  | line :: rest =>
      if contains line (lit "class ") && contains line (lit ": XCTestCase")
      then
        match after_first line (lit "class ") with
        | Some after =>
            match strip (before_first after (lit ":")) with
            | [] => class_name_in rest fallback
            | name => name
            end
        | None => class_name_in rest fallback
        end
      else class_name_in rest fallback
  end.

(** [extract_class_name] *)
Definition extract_class_name (swift_code fallback : str) : str :=
  class_name_in (splitlines swift_code) fallback.

(** [x or y] on optional strings: [None] and the empty string give way. *)
Definition str_or (x : option str) (y : str) : str :=
  match x with
  | Some (c :: s) => c :: s
  | _ => y
  end.

(** [build_class_name_section] *)
Definition build_class_name_section (class_name : option str) : str :=
  match class_name with
  | Some (c :: s) => lit "Test Class Name: " ++ c :: s
  | _ => lit "Generate an appropriate test class name based on the test description."
  end.

Record AppContext := {
  ctx_app_name : option str;
  ctx_screens : option (list str);
  ctx_ui_elements : option (list (str * list str));
  ctx_accessibility_ids : option (list str);
  ctx_custom_types : option (list str);
  ctx_source_code_snippets : option str
}.

(** One section of the context when the field holds something. *)
Definition section_of (A : Type) (field : option (list A))
                      (render : list A -> str) : list str :=
  match field with
  | Some (x :: l) => [render (x :: l)]
  | _ => []
  end.

Definition COMMA : str := lit ", ".

(** The sections [build_context_section] collects. *)
Definition context_sections (c : AppContext) : list str :=
  section_of (ctx_app_name c) (fun n => lit "App Name: " ++ n)
  ++ section_of (ctx_screens c)
       (fun l => lit "Available Screens: " ++ join COMMA l)
  ++ section_of (ctx_ui_elements c)
       (fun l => lit "UI Elements:" ++ [NEWLINE]
                 ++ join [NEWLINE]
                      (map (fun se => lit "  " ++ fst se ++ lit ": "
                                      ++ join COMMA (snd se)) l))
  ++ section_of (ctx_accessibility_ids c)
       (fun l => lit "Accessibility IDs: " ++ join COMMA l)
  ++ section_of (ctx_custom_types c)
       (fun l => lit "Custom Types: " ++ join COMMA l)
  ++ section_of (ctx_source_code_snippets c)
       (fun s => lit "Relevant Code:" ++ [NEWLINE] ++ s).

(** [build_context_section] *)
Definition build_context_section (app_context : option AppContext) : str :=
  match app_context with
  | None => []
  | Some c =>
      match context_sections c with
      | [] => []
      | sections =>
          lit "App Context:" ++ [NEWLINE] ++ join [NEWLINE; NEWLINE] sections
      end
  end.


(** ** The rest of [TestGenerator.run] *)

(** The validation results of a UI test: the checks, their conjunction
    and the names of those that failed. *)
Record ValidationResults := {
  checks : list (str * bool);
  all_passed : bool;
  failed_checks : list str
}.

Definition validation_results (swift_code : str) : ValidationResults :=
  let c := validate_xcuitest_contract swift_code in
  {| checks := c;
     all_passed := forallb snd c;
     failed_checks := map fst (filter (fun kv => negb (snd kv)) c) |}.

Record ResponseMetadata := {
  provider : str;
  model : str;
  has_context : bool;
  context_provided : bool;
  contract_validation : option ValidationResults
}.

Record TestGenerationResponse := {
  swift_code : str;
  response_test_type : str;
  response_class_name : str;
  response_metadata : ResponseMetadata
}.

Definition bool_str (b : bool) : str := if b then lit "True" else lit "False".

Definition BLANK_LINE : str := [NEWLINE; NEWLINE].

(** The message sent for the user. *)
Definition user_message (test_type : str) (request : TestGenerationRequest)
                        (context_section class_name_section : str) : str :=
  lit "Generate a Swift "
  ++ (if str_eqb test_type (lit "unit") then lit "XCTest unit test"
      else lit "XCUITest UI test")
  ++ lit " for the following:" ++ BLANK_LINE
  ++ lit "Test Description: " ++ test_description request ++ BLANK_LINE
  ++ context_section ++ BLANK_LINE
  ++ class_name_section ++ BLANK_LINE
  ++ lit "Include comments: " ++ bool_str (include_comments request)
  ++ BLANK_LINE
  ++ lit "Output ONLY Swift code." ++ [NEWLINE].

Section RunBody.
(** The two prompts of [prompts.py], the model name of the configuration,
    and the call of the language model on the system and user messages,
    which gives the text of the answer or raises. *)
Variable XCTEST_SYSTEM_PROMPT XCUITEST_SYSTEM_PROMPT : str.
Variable ANTHROPIC_MODEL : str.
Variable invoke : str -> str -> raised + str.

(** [TestGenerator.run] from the choice of the prompt on, for the
    normalised test type; [app_context] is the field of that name of the
    request. *)
Definition generation (app_context : option AppContext) (test_type : str)
                      (request : TestGenerationRequest)
  : raised + TestGenerationResponse :=
  let is_unit := str_eqb test_type (lit "unit") in
  let system_prompt :=
    if is_unit then XCTEST_SYSTEM_PROMPT else XCUITEST_SYSTEM_PROMPT in
  let default_class_name :=
    if is_unit then lit "GeneratedUnitTests" else lit "GeneratedUITests" in
  let context_section := build_context_section app_context in
  let class_name_section := build_class_name_section (class_name request) in
  match invoke system_prompt
               (user_message test_type request context_section
                             class_name_section) with
  | inl e => inl e
  | inr content =>
      let code := strip_code_fences content in
      let final_class_name :=
        extract_class_name code
          (str_or (class_name request) default_class_name) in
      let is_ui := str_eqb test_type (lit "ui") in
      inr {| swift_code := code;
             response_test_type := test_type;
             response_class_name := final_class_name;
             response_metadata :=
               {| provider := lit "langchain_anthropic";
                  model := ANTHROPIC_MODEL;
                  has_context := match app_context with
                                 | Some _ => true
                                 | None => false
                                 end;
                  context_provided := match context_section with
                                      | [] => false
                                      | _ => true
                                      end;
                  contract_validation :=
                    if is_ui then Some (validation_results code) else None |} |}
  end.
End RunBody.

(** ** The batch endpoint of [main.py] *)

(** One entry of the error list: the index of the request, the exception
    (whose text the entry holds) and the start of the description. *)
Record BatchError := {
  batch_index : nat;
  batch_error : raised;
  batch_description : str
}.

Record BatchResult (Response : Type) := {
  generated : nat;
  failed : nat;
  results : list Response;
  errors : list BatchError
}.

Section Batch.
Variable Response : Type.
(** [generate_test] as the endpoint sees it. *)
Variable gen : TestGenerationRequest -> raised + Response.

(** The loop of [generate_tests_batch], from the index [idx] on. *)
Fixpoint batch_loop (requests : list TestGenerationRequest) (idx : nat)
                    (res : list Response) (errs : list BatchError)
  : list Response * list BatchError :=
  match requests with
  | [] => (res, errs)
  | req :: rest =>
      match gen req with
      | inr r => batch_loop rest (S idx) (res ++ [r]) errs
      | inl e =>
          batch_loop rest (S idx) res
            (errs ++ [ {| batch_index := idx;
                          batch_error := e;
                          batch_description :=
                            firstn 100 (test_description req) |} ])
      end
  end.

Definition generate_tests_batch (requests : list TestGenerationRequest)
  : BatchResult Response :=
  let (res, errs) := batch_loop requests 0 [] [] in
  {| generated := length res;
     failed := length errs;
     results := res;
     errors := errs |}.
End Batch.

(** ** The file walk and the query command of [ios_rag_mvp.py] *)

Definition EXCLUDE_DIRS : list str :=
  [lit ".git"; lit "Pods"; lit "Carthage"; lit "DerivedData"; lit ".build";
   lit ".swiftpm"; lit "Build"; lit ".xcodeproj"; lit ".xcworkspace"].

Definition SWIFT_SUFFIX : str := lit ".swift".

(** A directory as [os.walk] lists it: the names of its files, and its
    subdirectories with their names. *)
Unset Elimination Schemes.
Inductive Dir :=
| mkDir (files : list str) (dirs : list (str * Dir)).
Set Elimination Schemes.

(** The test of the pruning of [dirs]. *)
Definition kept_dir (d : str) : bool :=
  negb (str_in d EXCLUDE_DIRS) && negb (startswith d (lit ".")).

(** [iter_swift_files(root)]: each path is given by its components below
    the root. *)
Fixpoint iter_swift_files (root : Dir) : list (list str) :=
  match root with
  | mkDir files dirs =>
      map (fun f => [f]) (filter (fun f => endswith f SWIFT_SUFFIX) files)
      ++ (fix walk (ds : list (str * Dir)) : list (list str) :=
            match ds with
            | [] => []
            | (d, sub) :: ds' =>
                (if kept_dir d
                 then map (cons d) (iter_swift_files sub)
                 else [])
                ++ walk ds'
            end) dirs
  end.

(** [x or y] *)
Definition py_or (x y : value) : value := if truthy x then x else y.

(** [d.get(k)] *)
Definition get_or_none (d : dict) (k : str) : value :=
  get_default d k VNone.

(** The snippet of a result of [cmd_query]. *)
Definition query_snippet (content : str) : str :=
  firstn 400 content ++ (if 400 <? length content then lit "..." else []).

Definition query_result (d : Document) : json :=
  JObj [(lit "kind", json_of_value (get_or_none (metadata d) (lit "kind")));
        (lit "path", json_of_value (get_or_none (metadata d) (lit "path")));
        (lit "screen",
          json_of_value (py_or (get_or_none (metadata d) (lit "screen"))
                               (get_or_none (metadata d) (lit "symbol"))));
        (lit "snippet", JStr (query_snippet (page_content d)))].

(** [cmd_query] once the search has returned [docs]: what is printed. *)
Definition cmd_query_output (q : str) (k : Z) (docs : list Document) : str :=
  safe_json (JObj [(lit "q", JStr q);
                   (lit "k", JInt k);
                   (lit "results", JList (map query_result docs))]).

(** [cmd_query]: the line it prints, or the exception of the store that
    goes through it; [build] is the outcome of [build_vectorstore]. *)
Definition cmd_query (build : exn + Store) (q : str) (k : Z) : exn + str :=
  match build with
  | inl e => inl e
  | inr vs =>
      match similarity_search vs q k with
      | inl e => inl e
      | inr docs => inr (cmd_query_output q k docs)
      end
  end.


(** * Properties of the rest of the code *)

(** ** The brace matcher and the blocks *)

(** X1. On a text and an index inside it, the brace matcher returns an
    index between the one given and the last of the text, which is that of
    a closing brace unless it is the last; on an index at or past the end
    it returns the last index of the text, which is -1 on the empty
    text. *)
Theorem find_matching_brace_range (text : str) (open_index : nat) :
  (open_index < length text ->
   (Z.of_nat open_index <= find_matching_brace text open_index
    < Z.of_nat (length text))%Z
   /\ (nth_error text (Z.to_nat (find_matching_brace text open_index))
       = Some RBRACE
       \/ find_matching_brace text open_index
          = (Z.of_nat (length text) - 1)%Z))
  /\ (length text <= open_index ->
      find_matching_brace text open_index = (Z.of_nat (length text) - 1)%Z).
Proof.
  unfold find_matching_brace. split.
  - intros Hlt.
    destruct (brace_loop (skipn open_index text) open_index 0) as [j|] eqn:E.
    + apply brace_loop_some in E as (n & -> & [Hn _] & _).
      rewrite nth_error_skipn_add in Hn.
      assert (open_index + n < length text)
        by (apply nth_error_Some; congruence).
      split; [lia|]. left. now rewrite Nat2Z.id.
    + split; [lia|]. now right.
  - intros Hge. rewrite skipn_all2 by exact Hge. reflexivity.
Qed.

(** The names of blocks are strings, or [None]. *)
Lemma extract_blocks_names `{UnicodeDb} (text : str) (start_re : re)
      (name_group : nat) :
  Forall (fun nb => exists o, fst nb = name_value o)
         (extract_blocks text start_re name_group).
Proof.
  unfold extract_blocks. apply Forall_flat_map_intro. intros m.
  unfold block_at.
  destruct (find_char LBRACE text (Z.of_nat (m_end m) - 1));
    repeat constructor. cbn [fst]. eauto.
Qed.

(** ** Dictionaries *)

Lemma dict_get_set (d : dict) (k k' : str) (v : value) :
  dict_get (dict_set d k v) k'
  = if str_eqb k' k then Some v else dict_get d k'.
Proof.
  induction d as [|[k0 v0] d IH]; cbn [dict_set dict_get].
  - destruct (str_eqb k' k); reflexivity.
  - destruct (str_eqb k k0) eqn:E0.
    + apply str_eqb_eq in E0. subst k0. cbn [dict_get].
      destruct (str_eqb k' k); reflexivity.
    + cbn [dict_get]. destruct (str_eqb k' k0) eqn:E1.
      * apply str_eqb_eq in E1. subst k0.
        destruct (str_eqb k' k) eqn:E2; [|reflexivity].
        apply str_eqb_eq in E2. subst k'.
        rewrite str_eqb_refl in E0. discriminate.
      * exact IH.
Qed.

Lemma dict_set_keys (d : dict) (k : str) (v v0 : value) :
  dict_get d k = Some v0 -> map fst (dict_set d k v) = map fst d.
Proof.
  induction d as [|[k1 v1] d IH]; cbn [dict_set dict_get]; [discriminate|].
  destruct (str_eqb k k1) eqn:E; [reflexivity|].
  intros Hg. cbn [map fst]. f_equal. now apply IH.
Qed.


(** ** Chunks and their metadata *)

Section ChunkMetadata.
Context `{UnicodeDb}.

(** The kinds of the chunks of a file. *)
Definition CHUNK_KINDS : list value :=
  [VStr (lit "swiftui_view"); VStr (lit "uikit_viewcontroller");
   VStr (lit "screen_card"); VStr (lit "accessibility_map");
   VStr (lit "navigation_signals"); VStr (lit "swift_raw")].

(** What holds of the metadata of every chunk of the file [rel_path]. *)
Definition well_tagged (rel_path : str) (ch : Chunk) : Prop :=
  dict_get (meta ch) (lit "path") = Some (VStr rel_path)
  /\ (exists k, dict_get (meta ch) (lit "kind") = Some k /\ In k CHUNK_KINDS)
  /\ string_fields (chunk_doc ch) = true.

Lemma view_chunks_tagged rel_path (o : option str) (block : str) :
  Forall (well_tagged rel_path) (view_chunks rel_path (name_value o, block)).
Proof.
  unfold view_chunks, well_tagged, string_fields, string_field, chunk_doc.
  cbn [fst snd metadata meta].
  repeat constructor; cbn [meta]; rewrite ?dict_get_set; try reflexivity;
    try (eexists; split; [reflexivity|simpl; tauto]);
    destruct o; reflexivity.
Qed.

Lemma vc_chunks_tagged rel_path (o : option str) (block : str) :
  Forall (well_tagged rel_path) (vc_chunks rel_path (name_value o, block)).
Proof.
  unfold vc_chunks, well_tagged, string_fields, string_field, chunk_doc.
  cbn [fst snd metadata meta].
  repeat constructor; cbn [meta]; rewrite ?dict_get_set; try reflexivity;
    try (eexists; split; [reflexivity|simpl; tauto]);
    destruct o; reflexivity.
Qed.

Lemma blocks_tagged rel_path (f : str -> value * str -> list Chunk)
      (blocks : list (value * str)) :
  (forall o block, Forall (well_tagged rel_path) (f rel_path (name_value o, block))) ->
  Forall (fun nb => exists o, fst nb = name_value o) blocks ->
  Forall (well_tagged rel_path) (flat_map (f rel_path) blocks).
Proof.
  intros Hf Hb. induction Hb as [|[n b] l (o & Hn) _ IH]; cbn [flat_map].
  - constructor.
  - apply Forall_app. split; [|exact IH].
    cbn [fst] in Hn. subst n. apply Hf.
Qed.

Lemma build_chunks_tagged (file_text rel_path : str) :
  Forall (well_tagged rel_path) (build_chunks_for_file file_text rel_path).
Proof.
  unfold build_chunks_for_file. apply Forall_app. split.
  - unfold found_chunks. repeat (apply Forall_app; split).
    + apply blocks_tagged; [apply view_chunks_tagged|apply extract_blocks_names].
    + apply blocks_tagged; [apply vc_chunks_tagged|apply extract_blocks_names].
    + unfold amap_chunks. destruct (file_ids file_text); constructor;
        [|constructor].
      unfold well_tagged, string_fields, string_field, chunk_doc.
      cbn [metadata meta]. split; [reflexivity|]. split; [|reflexivity].
      eexists; split; [reflexivity|simpl; tauto].
    + unfold nav_chunks. destruct (nav_scan _ _); constructor; [|constructor].
      unfold well_tagged, string_fields, string_field, chunk_doc.
      cbn [metadata meta]. split; [reflexivity|]. split; [|reflexivity].
      eexists; split; [reflexivity|simpl; tauto].
  - rewrite fallback_chunks_spec.
    destruct (found_chunks file_text rel_path); [|constructor].
    destruct (strip file_text); constructor; [|constructor].
    unfold well_tagged, string_fields, string_field, chunk_doc, raw_chunk.
    cbn [metadata meta]. split; [reflexivity|]. split; [|reflexivity].
    eexists; split; [reflexivity|simpl; tauto].
Qed.

(** X2. Every chunk made for a file carries the path of that file and
    one of the six kinds of chunks, and its [accessibility_ids] and
    [screen] values, when present, are strings or [None]. *)
Theorem chunks_are_well_tagged (file_text rel_path : str) :
  Forall (well_tagged rel_path) (build_chunks_for_file file_text rel_path).
Proof. apply build_chunks_tagged. Qed.

(** X3. The screen card of a block carries the metadata of the block
    with the kind alone changed: the same keys in the same order, and the
    same value under every key but [kind]. *)
Theorem screen_card_keeps_metadata (rel_path : str) (nb : value * str) :
  (forall chunks, chunks = view_chunks rel_path nb \/ chunks = vc_chunks rel_path nb ->
     exists block card,
       chunks = [block; card]
       /\ text block = snd nb
       /\ map fst (meta card) = map fst (meta block)
       /\ dict_get (meta card) (lit "kind") = Some (VStr (lit "screen_card"))
       /\ forall k, k <> lit "kind" ->
                    dict_get (meta card) k = dict_get (meta block) k).
Proof.
  intros chunks [-> | ->]; unfold view_chunks, vc_chunks;
    (eexists; eexists; split; [reflexivity|]);
    cbn [text meta];
    (split; [reflexivity|]); (split; [reflexivity|]);
    (split; [reflexivity|]);
    intros k Hk; rewrite dict_get_set;
    destruct (str_eqb k (lit "kind")) eqn:E; try reflexivity;
    apply str_eqb_eq in E; contradiction.
Qed.
End ChunkMetadata.


(** ** The audit and the ingestion *)

Section AuditAndIngestion.
Context `{UnicodeDb} `{Hashlib}.

Lemma audit_chunk_cases (ch : Chunk) :
  audit_chunk ch = []
  \/ (audit_chunk ch = [finding_of ch] /\ flagged ch).
Proof.
  destruct (flagged_dec ch) as [Hf|Hn].
  - right. split; [now apply audit_chunk_flagged|exact Hf].
  - left. now apply audit_chunk_not_flagged.
Qed.

Lemma finding_of_flagged (ch : Chunk) :
  flagged ch ->
  0 < interactive_count (finding_of ch)
  /\ (ui (finding_of ch) = lit "SwiftUI" \/ ui (finding_of ch) = lit "UIKit").
Proof.
  unfold finding_of. cbn [interactive_count ui].
  intros [(Hk & Hi & _)|(Hk & Hi & _)].
  - rewrite Hk. auto.
  - destruct (kind_is ch (lit "swiftui_view")) eqn:Hk'.
    + pose proof (kind_is_unique _ _ _ Hk Hk'). discriminate.
    + auto.
Qed.

(** X4. Every finding of the audit has an identifier count of zero, a
    positive count of controls and one of the two labels; there are at
    most as many findings as chunks; the summary counts the findings; and
    the findings of two lists of chunks put end to end are the findings of
    the first followed by those of the second. *)
Theorem audit_findings_invariant (chunks more : list Chunk) :
  Forall (fun f => accessibility_id_count f = 0
                   /\ 0 < interactive_count f
                   /\ (ui f = lit "SwiftUI" \/ ui f = lit "UIKit"))
         (fst (audit_accessibility chunks))
  /\ length (fst (audit_accessibility chunks)) <= length chunks
  /\ snd (audit_accessibility chunks)
     = JObj [(lit "flagged_screens",
               JInt (Z.of_nat (length (fst (audit_accessibility chunks)))));
             (lit "note", JStr AUDIT_NOTE)]
  /\ fst (audit_accessibility (chunks ++ more))
     = fst (audit_accessibility chunks) ++ fst (audit_accessibility more).
Proof.
  rewrite !audit_findings. split; [|split; [|split]].
  - apply Forall_flat_map_intro. intros ch.
    destruct (audit_chunk_cases ch) as [-> | [-> Hf]]; constructor;
      [|constructor].
    split; [reflexivity|]. now apply finding_of_flagged.
  - induction chunks as [|ch l IH]; cbn [flat_map length]; [lia|].
    rewrite length_app.
    destruct (audit_chunk_cases ch) as [-> | [-> _]]; cbn [length]; lia.
  - reflexivity.
  - apply flat_map_app.
Qed.

Lemma all_chunks_tagged (files : list (str * str)) :
  Forall (fun ch => string_fields (chunk_doc ch) = true) (all_chunks files).
Proof.
  unfold all_chunks. apply Forall_flat_map_intro. intros f.
  destruct (strip (snd f)); [constructor|].
  eapply Forall_impl; [|apply build_chunks_tagged].
  intros ch (_ & _ & Hs). exact Hs.
Qed.

(** The run hands nothing to the store, or the audit document and the
    chunks in one call. *)
Lemma cmd_ingest_writes (store : StoreEnv) (args : Args) (disk : Disk) :
  store_writes (cmd_ingest store args disk) = []
  \/ exists findings,
       run_findings disk = Some findings
       /\ store_writes (cmd_ingest store args disk)
          = [batch_of (ingest_docs findings (audit_summary findings)
                                   (all_chunks (swift_files disk)))].
Proof.
  destruct (run_findings disk) as [findings|] eqn:Hrun.
  - destruct (fail_if_missing_ids args) eqn:Hflag.
    + destruct findings as [|f fs].
      * rewrite (@cmd_ingest_past_gate _ _ store args disk [] Hrun
                   (or_intror eq_refl)).
        cbv zeta. destruct (build_raises store _ _ _); [now left|].
        right. exists []. split; [reflexivity|].
        destruct (add_documents_raises store _); [reflexivity|].
        destruct (persist_raises store); reflexivity.
      * left.
        assert (Hne : f :: fs <> []) by discriminate.
        now rewrite (@cmd_ingest_at_gate _ _ store args disk (f :: fs)
                       Hflag Hrun Hne).
    + rewrite (@cmd_ingest_past_gate _ _ store args disk findings Hrun
                 (or_introl Hflag)).
      cbv zeta. destruct (build_raises store _ _ _); [now left|].
      right. exists findings. split; [reflexivity|].
      destruct (add_documents_raises store _); [reflexivity|].
      destruct (persist_raises store); reflexivity.
  - left. apply run_findings_none in Hrun.
    now destruct (proj2 (cmd_ingest_status_2 store args disk) Hrun).
Qed.

(** X5. The documents that an ingestion run hands to the store can all
    be read back by the context assembler: whatever list of them a query
    returns, the bundle made of it carries no error, and its identifiers
    and screens are the sorted unions of those of the documents. *)
Theorem ingested_documents_assemble (store : StoreEnv) (args : Args)
        (disk : Disk) (docs : list Document) :
  (forall d, In d docs ->
             exists w id, In w (store_writes (cmd_ingest store args disk))
                          /\ In (id, d) w) ->
  error (assembled docs) = None
  /\ accessibility_ids (assembled docs) = sorted_strs (id_union docs)
  /\ screens (assembled docs) = map VStr (sorted_strs (screen_union docs))
  /\ total_docs_retrieved (assembled docs) = length docs.
Proof.
  intros Hfrom.
  assert (Hall : Forall (fun d => string_fields d = true) docs).
  { apply Forall_forall. intros d Hd.
    destruct (Hfrom d Hd) as (w & id & Hw & Hin).
    destruct (cmd_ingest_writes store args disk) as [E|(findings & _ & E)];
      rewrite E in Hw; [destruct Hw|].
    destruct Hw as [<-|[]].
    apply in_map_iff in Hin as (d' & Ed & Hin). injection Ed as _ ->.
    destruct Hin as [<-|Hin]; [reflexivity|].
    apply in_map_iff in Hin as (ch & <- & Hch).
    pose proof (all_chunks_tagged (swift_files disk)) as Ht.
    rewrite Forall_forall in Ht. now apply Ht. }
  unfold assembled. rewrite (assemble_strings Hall).
  repeat split.
Qed.


End AuditAndIngestion.


(** ** Identifiers in the metadata *)

Section IdentifierMetadata.
Context `{UnicodeDb}.

Lemma set_insert_length (x : str) (l : list str) :
  length (set_insert str_ltb str_eqb x l) <= S (length l).
Proof.
  induction l as [|y l IH]; cbn [set_insert length]; [lia|].
  destruct (str_ltb x y); [cbn [length]; lia|].
  destruct (str_eqb x y); cbn [length]; lia.
Qed.

Lemma sorted_strs_length (l : list str) : length (sorted_strs l) <= length l.
Proof.
  unfold sorted_strs. induction l as [|x l IH]; cbn [sorted_set fold_right length];
    [lia|].
  fold (sorted_set str_ltb str_eqb l).
  pose proof (set_insert_length x (sorted_set str_ltb str_eqb l)). lia.
Qed.

Lemma findall1_length (r : re) (t : str) :
  length (findall1 r t) = count_matches r t.
Proof. unfold findall1, count_matches. apply length_map. Qed.

(** X7. The identifier count stored with a view block is the number of
    distinct identifiers of the block, at most the number of identifier
    matches that the audit counts and zero exactly when that number is
    zero; so the audit flags the block exactly when the block has a
    control match and the stored count is zero. *)
Theorem stored_identifier_count (rel_path : str) (name : value) (block : str) :
  let ids := sorted_strs (findall1 SWIFTUI_A11Y_ID_RE block) in
  let chunk := hd {| text := []; meta := [] |}
                  (view_chunks rel_path (name, block)) in
  dict_get (meta chunk) (lit "accessibility_id_count")
  = Some (VInt (Z.of_nat (length ids)))
  /\ dict_get (meta chunk) (lit "accessibility_ids")
     = Some (VStr (meta_list_to_str ids 200))
  /\ NoDup ids
  /\ (forall x, In x ids <-> In x (findall1 SWIFTUI_A11Y_ID_RE block))
  /\ length ids <= count_matches SWIFTUI_A11Y_ID_RE block
  /\ (length ids = 0 <-> count_matches SWIFTUI_A11Y_ID_RE block = 0)
  /\ (flagged chunk
      <-> 0 < count_matches SWIFTUI_INTERACTIVE_RE block /\ length ids = 0).
Proof.
  intros ids chunk.
  assert (Hzero : length ids = 0 <-> count_matches SWIFTUI_A11Y_ID_RE block = 0).
  { rewrite <- findall1_length. subst ids.
    split; intros E.
    - apply length_zero_iff_nil in E.
      apply (proj1 (@sorted_strs_nil _)) in E. now rewrite E.
    - apply length_zero_iff_nil in E. now rewrite E. }
  split; [reflexivity|]. split; [reflexivity|].
  split; [apply strongly_sorted_nodup, sorted_strs_sorted|].
  split; [intros x; apply sorted_strs_in|].
  split; [rewrite <- findall1_length; apply sorted_strs_length|].
  split; [exact Hzero|].
  unfold flagged, flagged_as. subst chunk. cbn [hd view_chunks text].
  split.
  - intros [(_ & Hi & Hz)|(Hk & _)]; [|discriminate Hk].
    split; [exact Hi|]. now apply Hzero.
  - intros [Hi Hz]. left. split; [reflexivity|]. split; [exact Hi|].
    now apply Hzero.
Qed.
End IdentifierMetadata.

(** *** From the metadata to the query and back *)

Lemma split_on_nonempty (d : char) (s : str) : split_on d s <> [].
Proof.
  induction s as [|c s IH]; cbn [split_on]; [discriminate|].
  destruct (char_eqb c d); [discriminate|].
  destruct (split_on d s); discriminate.
Qed.

Lemma split_on_plain (d : char) (s : str) :
  mem_char d s = false -> split_on d s = [s].
Proof.
  induction s as [|c s IH]; cbn [split_on mem_char]; [reflexivity|].
  intros Hm. apply orb_false_iff in Hm as [Hd Hm].
  unfold char_eqb in *. rewrite N.eqb_sym in Hd. rewrite Hd.
  now rewrite (IH Hm).
Qed.

Lemma split_on_app (d : char) (s t : str) :
  mem_char d s = false ->
  split_on d (s ++ d :: t) = s :: split_on d t.
Proof.
  induction s as [|c s IH]; cbn [split_on mem_char app].
  - intros _. unfold char_eqb. now rewrite N.eqb_refl.
  - intros Hm. apply orb_false_iff in Hm as [Hd Hm].
    unfold char_eqb in *. rewrite N.eqb_sym in Hd. rewrite Hd.
    now rewrite (IH Hm).
Qed.

Lemma split_join (d : char) (l : list str) :
  l <> [] ->
  Forall (fun s => mem_char d s = false) l ->
  split_on d (join [d] l) = l.
Proof.
  intros Hne Hall. induction Hall as [|s l Hs Hl IH]; [contradiction|].
  destruct l as [|t l]; cbn [join].
  - now apply split_on_plain.
  - cbn [app]. rewrite split_on_app by exact Hs. f_equal.
    apply IH. discriminate.
Qed.

Lemma join_nonempty (sep : str) (l : list str) (s : str) :
  s <> [] -> join sep (s :: l) <> [].
Proof.
  intros Hs. destruct s as [|c s]; [contradiction|].
  destruct l; cbn [join]; discriminate.
Qed.

(** X8. The identifiers that the chunk builder joins into the metadata
    are those that the context assembler gets back by splitting: for
    non-empty identifiers without the separator, reading the field written
    for a list gives the list, cut at the limit of the writer. *)
Theorem identifiers_survive_the_store (items : list str) (limit : nat)
        (m : dict) :
  Forall (fun s => s <> [] /\ mem_char BAR s = false) items ->
  dict_get m (lit "accessibility_ids")
  = Some (VStr (meta_list_to_str items limit)) ->
  doc_ids m = inr (firstn limit items).
Proof.
  intros Hall Hm. unfold doc_ids. rewrite Hm.
  unfold meta_list_to_str.
  destruct items as [|s items]; [now rewrite firstn_nil|].
  destruct limit as [|limit]; [reflexivity|].
  cbn [firstn]. inversion Hall as [|? ? [Hs Hb] Hrest]; subst.
  assert (Hj : join [BAR] (s :: firstn limit items) <> [])
    by now apply join_nonempty.
  cbn [truthy].
  destruct (join [BAR] (s :: firstn limit items)) as [|c r] eqn:Ej;
    [contradiction|].
  rewrite <- Ej. f_equal. apply split_join; [discriminate|].
  constructor; [exact Hb|].
  apply firstn_Forall. eapply Forall_impl; [|exact Hrest].
  intros x [_ Hx]. exact Hx.
Qed.


(** ** The file walk *)

Lemma Dir_induction (P : Dir -> Prop) :
  (forall files dirs,
      Forall (fun nd => P (snd nd)) dirs -> P (mkDir files dirs)) ->
  forall d, P d.
Proof.
  intros Hstep.
  refine (fix IH (d : Dir) : P d :=
            match d with
            | mkDir files dirs =>
                Hstep files dirs
                  ((fix go (l : list (str * Dir))
                     : Forall (fun nd => P (snd nd)) l :=
                      match l with
                      | [] => Forall_nil _
                      | nd :: l' => Forall_cons nd (IH (snd nd)) (go l')
                      end) dirs)
            end).
Qed.

(** [f] is a file of the directory reached from the root through the
    directories [ds]. *)
Inductive file_at : Dir -> list str -> str -> Prop :=
| file_here (files : list str) (dirs : list (str * Dir)) (f : str) :
    In f files -> file_at (mkDir files dirs) [] f
| file_below (files : list str) (dirs : list (str * Dir)) (d : str)
             (sub : Dir) (ds : list str) (f : str) :
    In (d, sub) dirs -> file_at sub ds f ->
    file_at (mkDir files dirs) (d :: ds) f.

Lemma iter_swift_files_unfold (files : list str) (dirs : list (str * Dir)) :
  iter_swift_files (mkDir files dirs)
  = map (fun f => [f]) (filter (fun f => endswith f SWIFT_SUFFIX) files)
    ++ flat_map (fun nd => if kept_dir (fst nd)
                           then map (cons (fst nd)) (iter_swift_files (snd nd))
                           else [])
                dirs.
Proof.
  cbn [iter_swift_files]. f_equal.
  induction dirs as [|[d sub] ds IH]; [reflexivity|].
  cbn [flat_map fst snd]. now rewrite IH.
Qed.

(** X9. The file walk yields exactly the paths of the files whose name
    ends with ".swift" and that are reached from the root through
    directories none of which is in the list of excluded names or has a
    name starting with a dot; the root itself is not tested. *)
Theorem iter_swift_files_spec (root : Dir) (p : list str) :
  In p (iter_swift_files root)
  <-> exists ds f,
        p = ds ++ [f]
        /\ file_at root ds f
        /\ endswith f SWIFT_SUFFIX = true
        /\ Forall (fun d => str_in d EXCLUDE_DIRS = false
                            /\ startswith d (lit ".") = false) ds.
Proof.
  revert p. induction root as [files dirs IH] using Dir_induction.
  intros p. rewrite iter_swift_files_unfold, in_app_iff. split.
  - intros [Hin|Hin].
    + apply in_map_iff in Hin as (f & <- & Hf).
      apply filter_In in Hf as [Hf Hs].
      exists [], f. repeat split; auto. now constructor.
    + apply in_flat_map in Hin as ([d sub] & Hd & Hp). cbn [fst snd] in Hp.
      destruct (kept_dir d) eqn:Hk; [|destruct Hp].
      apply in_map_iff in Hp as (q & <- & Hq).
      rewrite Forall_forall in IH. specialize (IH _ Hd). cbn [snd] in IH.
      apply IH in Hq as (ds & f & -> & Hat & Hs & Hall).
      exists (d :: ds), f. split; [reflexivity|].
      split; [now apply file_below with (sub := sub)|]. split; [exact Hs|].
      constructor; [|exact Hall].
      unfold kept_dir in Hk. apply andb_true_iff in Hk as [H1 H2].
      split; now apply negb_true_iff.
  - intros (ds & f & -> & Hat & Hs & Hall).
    inversion Hat as [? ? ? Hf|? ? d sub ds' ? Hd Hsub]; subst.
    + left. apply in_map_iff. exists f. split; [reflexivity|].
      apply filter_In. auto.
    + right. apply in_flat_map. exists (d, sub). split; [exact Hd|].
      cbn [fst snd]. inversion Hall as [|? ? [H1 H2] Hrest]; subst.
      unfold kept_dir. rewrite H1, H2. cbn [negb andb].
      apply in_map_iff. exists (ds' ++ [f]). split; [reflexivity|].
      rewrite Forall_forall in IH. specialize (IH _ Hd). cbn [snd] in IH.
      apply IH. exists ds', f. auto.
Qed.

(** ** The text of a report *)

Lemma json_induction (P : json -> Prop) :
  P JNull ->
  (forall b, P (JBool b)) ->
  (forall z, P (JInt z)) ->
  (forall s, P (JStr s)) ->
  (forall l, Forall P l -> P (JList l)) ->
  (forall l, Forall (fun kv => P (snd kv)) l -> P (JObj l)) ->
  forall j, P j.
Proof.
  intros Hn Hb Hi Hs Hl Ho.
  refine (fix IH (j : json) : P j :=
            match j with
            | JNull => Hn
            | JBool b => Hb b
            | JInt z => Hi z
            | JStr s => Hs s
            | JList l =>
                Hl l ((fix go (l : list json) : Forall P l :=
                         match l with
                         | [] => Forall_nil _
                         | x :: l' => Forall_cons x (IH x) (go l')
                         end) l)
            | JObj l =>
                Ho l ((fix go (l : list (str * json))
                        : Forall (fun kv => P (snd kv)) l :=
                         match l with
                         | [] => Forall_nil _
                         | kv :: l' => Forall_cons kv (IH (snd kv)) (go l')
                         end) l)
            end).
Qed.

(** A character that is not a control character. *)
Definition visible (c : char) : Prop := (32 <= c)%N.

Lemma lit_cons (a : ascii) (s : string) :
  lit (String a s) = N_of_ascii a :: lit s.
Proof. reflexivity. Qed.

Lemma digits_visible (d : Decimal.uint) :
  Forall visible (lit (NilEmpty.string_of_uint d)).
Proof.
  induction d; cbn [NilEmpty.string_of_uint]; [constructor|..];
    rewrite lit_cons; (constructor; [vm_compute; discriminate|exact IHd]).
Qed.

Lemma int_str_visible (z : Z) : Forall visible (int_str z).
Proof.
  unfold int_str, NilZero.string_of_int, NilZero.string_of_uint.
  destruct (Z.to_int z) as [d|d].
  - destruct d; try apply digits_visible.
    repeat constructor. vm_compute. discriminate.
  - rewrite lit_cons. constructor; [vm_compute; discriminate|].
    destruct d; try apply digits_visible.
    repeat constructor. vm_compute. discriminate.
Qed.

Lemma lit_visible_check (s : string) :
  forallb (fun c => (32 <=? c)%N) (lit s) = true -> Forall visible (lit s).
Proof.
  intros E. apply Forall_forall. intros c Hc.
  rewrite forallb_forall in E. apply N.leb_le. now apply E.
Qed.

Lemma hex_digit_visible (n : N) : visible (hex_digit n).
Proof.
  unfold hex_digit, visible. destruct (n <? 10)%N; lia.
Qed.

Lemma json_escape_visible (c : char) : Forall visible (json_escape c).
Proof.
  unfold json_escape.
  repeat match goal with
         | |- context [if char_eqb c ?x then _ else _] =>
             destruct (char_eqb c x);
             [try (apply lit_visible_check; reflexivity)|]
         end.
  - apply Forall_app. split; [apply lit_visible_check; reflexivity|].
    constructor; [vm_compute; discriminate|constructor].
  - destruct (c <? 32)%N eqn:E.
    + apply Forall_app. split; [apply lit_visible_check; reflexivity|].
      repeat constructor; apply hex_digit_visible.
    + constructor; [|constructor]. apply N.ltb_ge in E. exact E.
Qed.

Lemma json_string_visible (s : str) : Forall visible (json_string s).
Proof.
  unfold json_string. apply Forall_app. split.
  - constructor; [vm_compute; discriminate|constructor].
  - apply Forall_app. split.
    + apply Forall_flat_map_intro. apply json_escape_visible.
    + constructor; [vm_compute; discriminate|constructor].
Qed.

Lemma join_visible (sep : str) (l : list str) :
  Forall visible sep -> Forall (Forall visible) l ->
  Forall visible (join sep l).
Proof.
  intros Hsep Hl. induction Hl as [|x l Hx Hl IH]; cbn [join]; [constructor|].
  destruct l; [exact Hx|].
  apply Forall_app. split; [exact Hx|]. apply Forall_app. split; assumption.
Qed.

Lemma safe_json_visible (j : json) : Forall visible (safe_json j).
Proof.
  induction j as [|b|z|s|l IH|l IH] using json_induction;
    cbn [safe_json].
  - apply lit_visible_check. reflexivity.
  - destruct b; apply lit_visible_check; reflexivity.
  - apply int_str_visible.
  - apply json_string_visible.
  - apply Forall_app. split; [apply lit_visible_check; reflexivity|].
    apply Forall_app. split; [|apply lit_visible_check; reflexivity].
    apply join_visible; [apply lit_visible_check; reflexivity|].
    induction IH; cbn [map]; constructor; assumption.
  - apply Forall_app. split; [apply lit_visible_check; reflexivity|].
    apply Forall_app. split; [|apply lit_visible_check; reflexivity].
    apply join_visible; [apply lit_visible_check; reflexivity|].
    induction IH as [|kv l Hkv _ IHl]; cbn [map]; constructor;
      [|exact IHl].
    apply Forall_app. split; [apply json_string_visible|].
    apply Forall_app. split; [apply lit_visible_check; reflexivity|exact Hkv].
Qed.

(** X10. The text written for a JSON value holds no control character:
    no newline, no carriage return, no tabulation; so each report that the
    commands print is one line. *)
Theorem safe_json_one_line (j : json) :
  Forall visible (safe_json j)
  /\ ~ In NEWLINE (safe_json j)
  /\ ~ In 13%N (safe_json j)
  /\ ~ In 9%N (safe_json j).
Proof.
  pose proof (safe_json_visible j) as Hv.
  split; [exact Hv|].
  rewrite Forall_forall in Hv.
  repeat split; intros Hin; apply Hv in Hin; unfold visible, NEWLINE in Hin;
    lia.
Qed.






(** ** Checking the generated code *)

Lemma failed_none_iff (c : list (str * bool)) :
  forallb snd c = true
  <-> map fst (filter (fun kv => negb (snd kv)) c) = [].
Proof.
  induction c as [|[k b] c IH]; cbn [forallb filter map snd]; [tauto|].
  destruct b; cbn [negb andb map fst].
  - exact IH.
  - split; discriminate.
Qed.

(** X12. The validation of a UI test reports that all checks passed
    exactly when the list of failed checks is empty, which is exactly when
    the code holds the application object, its launch, a wait of one of
    the two forms, one of the four assertions, and both the set-up and the
    tear-down; the names reported as failed are those of the checks that
    are false, in the order of the checks. *)
Theorem validation_results_agree (swift_code : str) :
  let r := validation_results swift_code in
  (all_passed r = true <-> failed_checks r = [])
  /\ (all_passed r = true
      <-> contains swift_code (lit "XCUIApplication()") = true
          /\ contains swift_code (lit "app.launch()") = true
          /\ (contains swift_code (lit "waitForExistence(timeout:") = true
              \/ contains swift_code (lit "XCTNSPredicateExpectation") = true)
          /\ (contains swift_code (lit "XCTAssertTrue") = true
              \/ contains swift_code (lit "XCTAssertEqual") = true
              \/ contains swift_code (lit "XCTAssertFalse") = true
              \/ contains swift_code (lit "XCTAssertNotNil") = true)
          /\ contains swift_code (lit "setUpWithError") = true
          /\ contains swift_code (lit "tearDownWithError") = true)
  /\ (forall name, In name (failed_checks r) <-> In (name, false) (checks r))
  /\ map fst (checks r)
     = [lit "has_xcuiapplication"; lit "has_app_launch";
        lit "has_wait_for_existence"; lit "has_assertions";
        lit "has_setup_teardown"]
  /\ length (failed_checks r) <= 5.
Proof.
  intros r. subst r. unfold validation_results.
  cbn [all_passed failed_checks checks].
  split; [apply failed_none_iff|]. split; [|split; [|split]].
  - unfold validate_xcuitest_contract. cbn [forallb snd existsb].
    repeat rewrite ?andb_true_iff, ?orb_true_iff.
    intuition discriminate.
  - intros name. rewrite in_map_iff. split.
    + intros ([k b] & <- & Hin). apply filter_In in Hin as [Hin Hb].
      cbn [snd fst] in *. destruct b; [discriminate|exact Hin].
    + intros Hin. exists (name, false). split; [reflexivity|].
      apply filter_In. split; [exact Hin|reflexivity].
  - reflexivity.
  - rewrite length_map.
    eapply Nat.le_trans; [apply filter_length_le|]. reflexivity.
Qed.

(** ** Cleaning the generated code *)

Lemma lstrip_fixed (c : char) (s : str) :
  is_space c = false -> lstrip (c :: s) = c :: s.
Proof. intros Hc. cbn [lstrip]. now rewrite Hc. Qed.

Lemma lstrip_spaces (pre s : str) :
  forallb is_space pre = true -> lstrip (pre ++ s) = lstrip s.
Proof.
  induction pre as [|c pre IH]; cbn [forallb app lstrip]; [reflexivity|].
  intros Hp. apply andb_true_iff in Hp as [Hc Hp]. rewrite Hc. now apply IH.
Qed.

Lemma rstrip_spaces (s post : str) :
  forallb is_space post = true -> rstrip (s ++ post) = rstrip s.
Proof.
  intros Hp. unfold rstrip. rewrite rev_app_distr. f_equal.
  apply lstrip_spaces. rewrite forallb_forall in *.
  intros x Hx. apply Hp. now apply in_rev.
Qed.

Lemma lstrip_head (s : str) :
  match lstrip s with
  | [] => True
  | c :: _ => is_space c = false
  end.
Proof.
  induction s as [|c s IH]; cbn [lstrip]; [exact I|].
  destruct (is_space c) eqn:E; [exact IH|exact E].
Qed.

Lemma lstrip_idem (s : str) : lstrip (lstrip s) = lstrip s.
Proof.
  pose proof (lstrip_head s) as Hh.
  destruct (lstrip s) as [|c r]; [reflexivity|]. now apply lstrip_fixed.
Qed.

(** A string that starts and ends with characters that are not
    whitespace is left as it is by trimming. *)
Lemma strip_fixed (c d : char) (mid : str) :
  is_space c = false -> is_space d = false ->
  strip (c :: mid ++ [d]) = c :: mid ++ [d].
Proof.
  intros Hc Hd. unfold strip. rewrite lstrip_fixed by exact Hc.
  change (c :: mid ++ [d]) with ((c :: mid) ++ [d]).
  now apply rstrip_keeps_last.
Qed.

(** What trimming gives is empty, or starts and ends with characters
    that are not whitespace. *)
Lemma strip_shape (s : str) :
  strip s = []
  \/ exists body d,
       strip s = body ++ [d]
       /\ is_space d = false
       /\ lstrip (body ++ [d]) = body ++ [d].
Proof.
  unfold strip, rstrip.
  pose proof (lstrip_head (rev (lstrip s))) as Hd.
  destruct (lstrip_suffix (rev (lstrip s))) as (pre & Ep & Hp).
  destruct (lstrip (rev (lstrip s))) as [|d w]; [now left|].
  right. exists (rev w), d. cbn [rev]. split; [reflexivity|].
  split; [exact Hd|].
  assert (El : lstrip s = (rev w ++ [d]) ++ rev pre).
  { rewrite <- (rev_involutive (lstrip s)), Ep, rev_app_distr.
    reflexivity. }
  pose proof (lstrip_head s) as Hh. rewrite El in Hh.
  destruct (rev w ++ [d]) as [|c r] eqn:Er.
  - destruct (rev w); discriminate.
  - cbn [app] in Hh. now apply lstrip_fixed.
Qed.

(** Trimming twice is trimming once. *)
Lemma strip_idem (s : str) : strip (strip s) = strip s.
Proof.
  destruct (strip_shape s) as [-> | (body & d & -> & Hd & Hl)];
    [reflexivity|].
  unfold strip. rewrite Hl. now apply rstrip_keeps_last.
Qed.


Lemma startswith_nil (s : str) : startswith s [] = true.
Proof. now destruct s. Qed.

Lemma startswith_app (p r : str) : startswith (p ++ r) p = true.
Proof.
  induction p as [|c p IH]; cbn [startswith app]; [now destruct r|].
  unfold char_eqb. now rewrite N.eqb_refl.
Qed.

Lemma startswith_prefix (s p q : str) :
  startswith s (p ++ q) = true -> startswith s p = true.
Proof.
  revert s. induction p as [|c p IH]; intros s; cbn [startswith app].
  - now destruct s.
  - destruct s as [|x s]; cbn [startswith]; [discriminate|].
    intros E. apply andb_true_iff in E as [E1 E2].
    rewrite E1. cbn [andb]. now apply IH.
Qed.

Lemma endswith_app (r p : str) : endswith (r ++ p) p = true.
Proof. unfold endswith. rewrite rev_app_distr. apply startswith_app. Qed.

Lemma skipn_app_length (A : Type) (p r : list A) :
  skipn (length p) (p ++ r) = r.
Proof. induction p as [|c p IH]; cbn; auto. Qed.

Lemma firstn_app_length (A : Type) (p r : list A) :
  firstn (length p) (p ++ r) = p.
Proof. induction p as [|c p IH]; cbn; [now destruct r|now f_equal]. Qed.

Lemma lstrip_app_fixed (b r : str) :
  lstrip b = b -> b <> [] -> lstrip (b ++ r) = b ++ r.
Proof.
  intros Hl Hne. pose proof (lstrip_head b) as Hh. rewrite Hl in Hh.
  destruct b as [|c b]; [contradiction|]. cbn [app]. now apply lstrip_fixed.
Qed.

(** A trimmed string that is not empty starts and ends with characters
    that are not whitespace. *)
Lemma trimmed_shape (body : str) :
  strip body = body -> body <> [] ->
  lstrip body = body /\ rstrip body = body
  /\ exists b d, body = b ++ [d] /\ is_space d = false.
Proof.
  intros Hs Hne.
  destruct (strip_shape body) as [E | (b & d & E & Hd & Hl)];
    rewrite Hs in E; [contradiction|].
  subst body. split; [exact Hl|]. split; [now apply rstrip_keeps_last|].
  eauto.
Qed.

Lemma fence_not_at_start (body r : str) :
  startswith body FENCE = false ->
  startswith (body ++ NEWLINE :: r) FENCE = false.
Proof.
  unfold FENCE. change (lit "```") with [96; 96; 96]%N.
  assert (Hnl : char_eqb 96%N NEWLINE = false) by reflexivity.
  destruct body as [|a [|b [|c body]]]; cbn [startswith app];
    rewrite ?startswith_nil, ?Hnl; intros E;
    repeat match goal with
           | |- context [char_eqb 96%N ?y] =>
               destruct (char_eqb 96%N y); cbn [andb] in *
           end;
    first [reflexivity | exact E | discriminate].
Qed.

(** The closing fence of a fenced text is taken away. *)
Lemma closing_fence_removed (body : str) :
  strip body = body -> body <> [] ->
  let s := body ++ [NEWLINE] ++ FENCE in
  endswith s FENCE = true
  /\ strip (firstn (length s - 3) s) = body.
Proof.
  intros Hs Hne s. destruct (trimmed_shape Hs Hne) as (Hl & Hr & _).
  subst s. split.
  - rewrite app_assoc. apply endswith_app.
  - rewrite app_assoc.
    replace (length ((body ++ [NEWLINE]) ++ FENCE) - 3)
      with (length (body ++ [NEWLINE]))
      by (rewrite !length_app; cbn; lia).
    rewrite firstn_app_length. unfold strip.
    rewrite lstrip_app_fixed by assumption.
    rewrite rstrip_spaces by reflexivity. exact Hr.
Qed.

(** What is left once the opening fence is taken away. *)
Lemma after_opening_fence (body : str) :
  strip body = body -> body <> [] ->
  strip ([NEWLINE] ++ body ++ [NEWLINE] ++ FENCE) = body ++ [NEWLINE] ++ FENCE.
Proof.
  intros Hs Hne. destruct (trimmed_shape Hs Hne) as (Hl & _ & _).
  unfold strip. cbn [app lstrip].
  change (is_space NEWLINE) with true. cbn iota.
  rewrite lstrip_app_fixed by assumption.
  replace (body ++ NEWLINE :: FENCE)
    with ((body ++ [NEWLINE; 96; 96]%N) ++ [96%N])
    by (rewrite <- app_assoc; reflexivity).
  now apply rstrip_keeps_last.
Qed.

Lemma fenced_shape (o body : str) :
  (96%N :: o) ++ [NEWLINE] ++ body ++ [NEWLINE] ++ FENCE
  = 96%N :: (o ++ [NEWLINE] ++ body ++ [NEWLINE; 96; 96]%N) ++ [96%N].
Proof.
  unfold FENCE. change (lit "```") with [96; 96; 96]%N.
  cbn [app]. f_equal. rewrite <- app_assoc. f_equal.
  cbn [app]. f_equal. rewrite <- app_assoc. reflexivity.
Qed.

(** X13. What [strip_code_fences] returns is trimmed.  A text whose
    trimmed form neither starts nor ends with a fence is returned
    trimmed.  A trimmed, non-empty code that does not start with a fence,
    put between an opening fence (with or without the language) and a
    closing fence, each on its own line, is returned as it is. *)
Theorem strip_code_fences_spec (swift_code body : str) :
  strip (strip_code_fences swift_code) = strip_code_fences swift_code
  /\ (startswith (strip swift_code) FENCE = false ->
      endswith (strip swift_code) FENCE = false ->
      strip_code_fences swift_code = strip swift_code)
  /\ (strip body = body -> body <> [] -> startswith body FENCE = false ->
      strip_code_fences (SWIFT_FENCE ++ [NEWLINE] ++ body ++ [NEWLINE] ++ FENCE)
      = body
      /\ strip_code_fences (FENCE ++ [NEWLINE] ++ body ++ [NEWLINE] ++ FENCE)
         = body).
Proof.
  split; [|split].
  - unfold strip_code_fences.
    repeat match goal with
           | |- context [if ?b then _ else _] => destruct b
           end; apply strip_idem.
  - intros Hs He. unfold strip_code_fences.
    assert (Hsw : startswith (strip swift_code) SWIFT_FENCE = false).
    { destruct (startswith (strip swift_code) SWIFT_FENCE) eqn:E;
        [|reflexivity].
      change SWIFT_FENCE with (FENCE ++ lit "swift") in E.
      apply startswith_prefix in E. congruence. }
    now rewrite Hsw, Hs, He.
  - intros Hs Hne Hf.
    pose proof (after_opening_fence Hs Hne) as Hopen.
    destruct (closing_fence_removed Hs Hne) as [Hend Hclose].
    cbv zeta in Hend, Hclose.
    pose proof (@fence_not_at_start body FENCE Hf) as Hnf.
    destruct (trimmed_shape Hs Hne) as (_ & _ & b & d & Eb & Hd).
    split.
    + unfold strip_code_fences.
      assert (E0 : strip (SWIFT_FENCE ++ [NEWLINE] ++ body ++ [NEWLINE] ++ FENCE)
                   = SWIFT_FENCE ++ [NEWLINE] ++ body ++ [NEWLINE] ++ FENCE).
      { change SWIFT_FENCE with (96%N :: lit "``swift").
        rewrite fenced_shape. now apply strip_fixed. }
      rewrite E0, startswith_app, skipn_app_length, Hopen.
      change (body ++ [NEWLINE] ++ FENCE) with (body ++ NEWLINE :: FENCE) in *.
      rewrite Hnf, Hend. exact Hclose.
    + unfold strip_code_fences.
      assert (E0 : strip (FENCE ++ [NEWLINE] ++ body ++ [NEWLINE] ++ FENCE)
                   = FENCE ++ [NEWLINE] ++ body ++ [NEWLINE] ++ FENCE).
      { change (FENCE ++ [NEWLINE] ++ body ++ [NEWLINE] ++ FENCE)
          with ((96%N :: [96; 96]%N) ++ [NEWLINE] ++ body ++ [NEWLINE] ++ FENCE).
        rewrite fenced_shape. now apply strip_fixed. }
      rewrite E0.
      replace (startswith (FENCE ++ [NEWLINE] ++ body ++ [NEWLINE] ++ FENCE)
                          SWIFT_FENCE) with false by reflexivity.
      rewrite startswith_app, skipn_app_length, Hopen.
      change (body ++ [NEWLINE] ++ FENCE) with (body ++ NEWLINE :: FENCE) in *.
      rewrite Hend. exact Hclose.
Qed.


(** ** The class name of the generated test *)

Definition COLON : char := 58%N.

Lemma mem_char_app (c : char) (a b : str) :
  mem_char c (a ++ b) = mem_char c a || mem_char c b.
Proof.
  induction a as [|x a IH]; cbn [mem_char app]; [reflexivity|].
  now rewrite IH, orb_assoc.
Qed.

Lemma before_first_char (c : char) (s : str) :
  mem_char c (before_first s [c]) = false.
Proof.
  induction s as [|x s IH]; cbn [before_first startswith]; [reflexivity|].
  rewrite startswith_nil, andb_true_r.
  destruct (char_eqb c x) eqn:E; [reflexivity|].
  cbn [mem_char]. now rewrite E, IH.
Qed.

Lemma strip_keeps_out (c : char) (s : str) :
  mem_char c s = false -> mem_char c (strip s) = false.
Proof.
  destruct (strip_decomposition s) as (pre & post & E & _ & _).
  intros Hm. rewrite E in Hm. rewrite !mem_char_app in Hm.
  apply orb_false_iff in Hm as [_ Hm]. now apply orb_false_iff in Hm as [Hm _].
Qed.

(** A line that can give the class name. *)
Definition class_line (line : str) : bool :=
  contains line (lit "class ") && contains line (lit ": XCTestCase").

Lemma class_name_in_cases (lines : list str) (fallback : str) :
  class_name_in lines fallback = fallback
  \/ (class_name_in lines fallback <> []
      /\ strip (class_name_in lines fallback) = class_name_in lines fallback
      /\ mem_char COLON (class_name_in lines fallback) = false
      /\ exists line, In line lines /\ class_line line = true).
Proof.
  induction lines as [|line rest IH]; cbn [class_name_in]; [now left|].
  fold (class_line line).
  assert (Hrest : class_name_in rest fallback = fallback
                  \/ (class_name_in rest fallback <> []
                      /\ strip (class_name_in rest fallback)
                         = class_name_in rest fallback
                      /\ mem_char COLON (class_name_in rest fallback) = false
                      /\ exists l, In l (line :: rest) /\ class_line l = true)).
  { destruct IH as [E|(H1 & H2 & H3 & l & Hl & Hc)]; [now left|].
    right. repeat split; auto. exists l. split; [now right|exact Hc]. }
  destruct (class_line line) eqn:Hc; [|exact Hrest].
  destruct (after_first line (lit "class ")) as [after|]; [|exact Hrest].
  destruct (strip (before_first after (lit ":"))) as [|c name] eqn:En;
    [exact Hrest|].
  right. rewrite <- En. split; [rewrite En; discriminate|].
  split; [apply strip_idem|]. split.
  - apply strip_keeps_out. apply (before_first_char COLON).
  - exists line. split; [now left|exact Hc].
Qed.

Lemma class_name_in_nonempty (lines : list str) (fallback : str) :
  fallback <> [] -> class_name_in lines fallback <> [].
Proof.
  intros Hf.
  destruct (class_name_in_cases lines fallback) as [-> | (Hn & _)];
    assumption.
Qed.

(** X14. The class name taken from the generated code is the fallback,
    or a name that is not empty, has no whitespace around it and no colon
    in it, taken from a line that holds both "class " and
    ": XCTestCase"; without such a line it is the fallback; and it is
    never empty when the fallback is not. *)
Theorem extract_class_name_result (swift_code fallback : str) :
  (extract_class_name swift_code fallback = fallback
   \/ (extract_class_name swift_code fallback <> []
       /\ strip (extract_class_name swift_code fallback)
          = extract_class_name swift_code fallback
       /\ mem_char COLON (extract_class_name swift_code fallback) = false
       /\ exists line,
            In line (splitlines swift_code) /\ class_line line = true))
  /\ ((forall line, In line (splitlines swift_code) -> class_line line = false)
      -> extract_class_name swift_code fallback = fallback)
  /\ (fallback <> [] -> extract_class_name swift_code fallback <> []).
Proof.
  unfold extract_class_name. split; [apply class_name_in_cases|]. split.
  - intros Hnone.
    destruct (class_name_in_cases (splitlines swift_code) fallback)
      as [E | (_ & _ & _ & line & Hin & Hc)]; [exact E|].
    rewrite (Hnone line Hin) in Hc. discriminate.
  - apply class_name_in_nonempty.
Qed.

(** ** The context section *)

(** The field holds nothing to show. *)
Definition blank (A : Type) (field : option (list A)) : bool :=
  match field with
  | Some (_ :: _) => false
  | _ => true
  end.

Lemma section_of_nil (A : Type) (field : option (list A)) (render : list A -> str) :
  section_of field render = [] <-> blank field = true.
Proof.
  unfold section_of, blank. destruct field as [[|x l]|]; split;
    try reflexivity; discriminate.
Qed.

(** X15. The context section of the prompt is empty exactly when the
    request has no context or a context whose six fields are all missing
    or empty; otherwise it starts with the line "App Context:" and has at
    most six sections. *)
Theorem build_context_section_empty (app_context : option AppContext) :
  (build_context_section app_context = []
   <-> match app_context with
       | None => True
       | Some c =>
           blank (ctx_app_name c) = true
           /\ blank (ctx_screens c) = true
           /\ blank (ctx_ui_elements c) = true
           /\ blank (ctx_accessibility_ids c) = true
           /\ blank (ctx_custom_types c) = true
           /\ blank (ctx_source_code_snippets c) = true
       end)
  /\ (build_context_section app_context <> [] ->
      startswith (build_context_section app_context)
                 (lit "App Context:" ++ [NEWLINE]) = true)
  /\ (forall c, length (context_sections c) <= 6).
Proof.
  split; [|split].
  - destruct app_context as [c|]; [|split; reflexivity].
    cbn [build_context_section].
    assert (Hs : context_sections c = []
                 <-> blank (ctx_app_name c) = true
                     /\ blank (ctx_screens c) = true
                     /\ blank (ctx_ui_elements c) = true
                     /\ blank (ctx_accessibility_ids c) = true
                     /\ blank (ctx_custom_types c) = true
                     /\ blank (ctx_source_code_snippets c) = true).
    { unfold context_sections. split.
      - intros E. repeat (apply app_eq_nil in E as [? E]).
        repeat match goal with
               | H : section_of _ _ = [] |- _ => apply section_of_nil in H
               end.
        repeat split; assumption.
      - intros (E1 & E2 & E3 & E4 & E5 & E6).
        rewrite (proj2 (section_of_nil _ _) E1),
                (proj2 (section_of_nil _ _) E2),
                (proj2 (section_of_nil _ _) E3),
                (proj2 (section_of_nil _ _) E4),
                (proj2 (section_of_nil _ _) E5),
                (proj2 (section_of_nil _ _) E6).
        reflexivity. }
    rewrite <- Hs. destruct (context_sections c); split;
      try reflexivity; discriminate.
  - destruct app_context as [c|]; cbn [build_context_section];
      [|intros Hn; now contradiction Hn].
    destruct (context_sections c); [intros Hn; now contradiction Hn|].
    intros _. rewrite app_assoc. apply startswith_app.
  - intros c. unfold context_sections, section_of.
    rewrite !length_app.
    destruct (ctx_app_name c) as [[|? ?]|];
    destruct (ctx_screens c) as [[|? ?]|];
    destruct (ctx_ui_elements c) as [[|? ?]|];
    destruct (ctx_accessibility_ids c) as [[|? ?]|];
    destruct (ctx_custom_types c) as [[|? ?]|];
    destruct (ctx_source_code_snippets c) as [[|? ?]|]; cbn [length]; lia.
Qed.

(** ** The store handle *)

(** X16. The store handle is built once: when the global holds a
    handle, the query uses it, keeps it, and what building would give is
    of no account; when it holds none and building succeeds, the handle is
    kept even if the search then fails; when building fails, the global
    stays empty, so that the next query builds again, and the bundle is
    the empty one with that error. *)
Theorem vectorstore_handle_is_cached (build build' : exn + Store)
        (vs : Store) (top_k : Z) (test_description : str) (k : option Z) :
  query_rag build (Some vs) top_k test_description k
  = query_rag build' (Some vs) top_k test_description k
  /\ snd (query_rag build (Some vs) top_k test_description k) = Some vs
  /\ snd (query_rag (inr vs) None top_k test_description k) = Some vs
  /\ fst (query_rag (inr vs) None top_k test_description k)
     = fst (query_rag build (Some vs) top_k test_description k)
  /\ (forall e,
        query_rag (inl e) None top_k test_description k
        = (error_bundle e, None)).
Proof.
  unfold query_rag, get_vectorstore.
  repeat split;
    destruct (similarity_search vs test_description
                (match k with Some k0 => k0 | None => top_k end))
      as [e|docs]; try reflexivity;
    destruct (assemble docs); reflexivity.
Qed.


(** ** The batch endpoint *)

Section BatchFacts.
Variable Response : Type.
Variable gen : TestGenerationRequest -> raised + Response.

(** The responses of the requests that succeed, in order. *)
Definition batch_successes (requests : list TestGenerationRequest)
  : list Response :=
  flat_map (fun req => match gen req with
                       | inr r => [r]
                       | inl _ => []
                       end) requests.

(** The entry of the request at index [i] that raised [e]. *)
Definition error_entry (i : nat) (e : raised) (req : TestGenerationRequest)
  : BatchError :=
  {| batch_index := i;
     batch_error := e;
     batch_description := firstn 100 (test_description req) |}.

(** The entries of the requests that fail, numbered from [idx]. *)
Fixpoint batch_failures (requests : list TestGenerationRequest) (idx : nat)
  : list BatchError :=
  match requests with
  | [] => []
  | req :: rest =>
      match gen req with
      | inr _ => batch_failures rest (S idx)
      | inl e => error_entry idx e req :: batch_failures rest (S idx)
      end
  end.

Lemma batch_loop_spec (requests : list TestGenerationRequest) :
  forall idx res errs,
    batch_loop gen requests idx res errs
    = (res ++ batch_successes requests, errs ++ batch_failures requests idx).
Proof.
  induction requests as [|req rest IH]; intros idx res errs;
    cbn [batch_loop batch_successes batch_failures flat_map].
  - now rewrite !app_nil_r.
  - destruct (gen req) as [e|r]; rewrite IH; fold (batch_successes rest);
      cbn [app]; now rewrite <- ?app_assoc.
Qed.

Lemma batch_counts (requests : list TestGenerationRequest) (idx : nat) :
  length (batch_successes requests) + length (batch_failures requests idx)
  = length requests.
Proof.
  revert idx. induction requests as [|req rest IH]; intros idx;
    cbn [batch_successes batch_failures flat_map length]; [reflexivity|].
  fold (batch_successes rest). specialize (IH (S idx)).
  destruct (gen req); cbn [app length]; lia.
Qed.

Lemma batch_failures_in (requests : list TestGenerationRequest) :
  forall idx entry,
    In entry (batch_failures requests idx)
    <-> exists i req e,
          nth_error requests i = Some req /\ gen req = inl e
          /\ entry = error_entry (idx + i) e req.
Proof.
  induction requests as [|req rest IH]; intros idx entry;
    cbn [batch_failures].
  - split; [intros []|]. intros ([|i] & r & e & Hn & _); discriminate.
  - assert (Hrest : In entry (batch_failures rest (S idx))
                    <-> exists i r e,
                          nth_error (req :: rest) (S i) = Some r
                          /\ gen r = inl e
                          /\ entry = error_entry (idx + S i) e r).
    { rewrite IH. split; intros (i & r & e & Hn & Hg & He);
        exists i, r, e; (split; [exact Hn|split; [exact Hg|]]);
        rewrite He; f_equal; lia. }
    destruct (gen req) as [e0|r0] eqn:Eg.
    + cbn [In]. rewrite Hrest. split.
      * intros [<- | (i & r & e & Hn & Hg & He)].
        -- exists 0, req, e0. rewrite Nat.add_0_r. now repeat split.
        -- now exists (S i), r, e.
      * intros ([|i] & r & e & Hn & Hg & He).
        -- left. cbn in Hn. injection Hn as <-. rewrite Nat.add_0_r in He.
           rewrite Eg in Hg. injection Hg as <-. now symmetry.
        -- right. now exists i, r, e.
    + rewrite Hrest. split.
      * intros (i & r & e & Hn & Hg & He). now exists (S i), r, e.
      * intros ([|i] & r & e & Hn & Hg & He).
        -- cbn in Hn. injection Hn as <-. rewrite Eg in Hg. discriminate.
        -- now exists i, r, e.
Qed.

Lemma batch_failures_sorted (requests : list TestGenerationRequest) :
  forall idx,
    StronglySorted lt (map batch_index (batch_failures requests idx))
    /\ Forall (fun i => idx <= i)
              (map batch_index (batch_failures requests idx)).
Proof.
  induction requests as [|req rest IH]; intros idx; cbn [batch_failures].
  - split; constructor.
  - destruct (IH (S idx)) as [Hs Hf].
    assert (Hle : Forall (fun i => idx <= i)
                         (map batch_index (batch_failures rest (S idx)))).
    { eapply Forall_impl; [|exact Hf]. cbn. intros; lia. }
    destruct (gen req); [|now split].
    cbn [map error_entry batch_index]. split.
    + constructor; [exact Hs|].
      eapply Forall_impl; [|exact Hf]. cbn. intros; lia.
    + constructor; [lia|exact Hle].
Qed.

(** X17. The batch endpoint handles every request and lets no failure
    stop the loop: the two counts add up to the number of requests, the
    results are the responses of the requests that succeed, in their
    order, and the error list has one entry for each request that fails
    and no other, holding its index, what it raised and the first hundred
    characters of its description, with the indices increasing. *)
Theorem batch_isolates_failures (requests : list TestGenerationRequest) :
  let r := generate_tests_batch gen requests in
  generated r + failed r = length requests
  /\ results r = batch_successes requests
  /\ (forall entry,
        In entry (errors r)
        <-> exists i req e,
              nth_error requests i = Some req /\ gen req = inl e
              /\ entry = error_entry i e req)
  /\ StronglySorted lt (map batch_index (errors r))
  /\ Forall (fun entry => length (batch_description entry) <= 100) (errors r).
Proof.
  unfold generate_tests_batch. rewrite batch_loop_spec. cbn [app].
  cbn [generated failed results errors].
  split; [apply batch_counts|]. split; [reflexivity|]. split; [|split].
  - intros entry. apply (batch_failures_in requests 0 entry).
  - apply batch_failures_sorted.
  - apply Forall_forall. intros entry Hin.
    apply (batch_failures_in requests 0) in Hin
      as (i & req & e & _ & _ & ->).
    cbn [error_entry batch_description]. rewrite length_firstn. lia.
Qed.
End BatchFacts.

Section BatchOfHandlers.
Context `{UnicodeDb}.
Variable Response : Type.
Variable generate : str -> TestGenerationRequest -> raised + Response.

Lemma generate_test_raises (request : TestGenerationRequest) (e : raised) :
  generate_test generate request = inl e ->
  exists code detail,
    e = HTTPException code detail
    /\ (str_in (normalise (test_type request)) TEST_TYPES = false ->
        code = 400%Z /\ detail = TEST_TYPE_MESSAGE).
Proof.
  unfold generate_test, run.
  destruct (str_in (normalise (test_type request)) TEST_TYPES) eqn:Ein;
    cbn [negb].
  - destruct (generate (normalise (test_type request)) request)
      as [[msg|c d|msg]|r]; intros E; try discriminate;
      injection E as <-; eexists; eexists; (split; [reflexivity|]);
      discriminate.
  - intros E. injection E as <-. exists 400%Z, TEST_TYPE_MESSAGE.
    split; [reflexivity|]. now split.
Qed.

(** X18. Every entry of the error list of a batch comes from the
    handler of the single endpoint, so what it holds is an HTTP error,
    never a bare exception; and for a request whose test type is not one
    of the two, it is the error 400 with the message of the check. *)
Theorem batch_errors_are_http (requests : list TestGenerationRequest)
        (entry : BatchError) :
  In entry (errors (generate_tests_batch (generate_test generate) requests)) ->
  exists req code detail,
    nth_error requests (batch_index entry) = Some req
    /\ batch_error entry = HTTPException code detail
    /\ (str_in (normalise (test_type req)) TEST_TYPES = false ->
        code = 400%Z /\ detail = TEST_TYPE_MESSAGE).
Proof.
  unfold generate_tests_batch. rewrite batch_loop_spec.
  cbn [app errors]. intros Hin.
  apply (batch_failures_in (generate_test generate) requests 0) in Hin
    as (i & req & e & Hn & Hg & ->).
  destruct (generate_test_raises req Hg) as (code & detail & -> & Hbad).
  exists req, code, detail. cbn [error_entry batch_index batch_error].
  split; [exact Hn|]. split; [reflexivity|exact Hbad].
Qed.
End BatchOfHandlers.

(** ** The response of [TestGenerator.run] *)

Lemma strip_code_fences_trimmed (swift_code : str) :
  strip (strip_code_fences swift_code) = strip_code_fences swift_code.
Proof.
  unfold strip_code_fences.
  repeat match goal with
         | |- context [if ?b then _ else _] => destruct b
         end; apply strip_idem.
Qed.

Lemma test_type_cases (tt : str) :
  str_in tt TEST_TYPES = true -> tt = lit "unit" \/ tt = lit "ui".
Proof.
  unfold TEST_TYPES. cbn [str_in]. rewrite !orb_true_iff, !str_eqb_eq.
  intuition discriminate.
Qed.

Section RunFacts.
Context `{UnicodeDb}.
Variable XCTEST_SYSTEM_PROMPT XCUITEST_SYSTEM_PROMPT : str.
Variable ANTHROPIC_MODEL : str.
Variable invoke : str -> str -> raised + str.

Lemma str_or_nonempty (x : option str) (y : str) :
  y <> [] -> str_or x y <> [].
Proof.
  intros Hy. destruct x as [[|c s]|]; cbn [str_or]; try exact Hy.
  discriminate.
Qed.

(** X19. Every response of [TestGenerator.run] carries the normalised
    test type, which is one of the two; its class name is never empty;
    its code has no whitespace around it; the contract validation is
    there exactly for a UI test and is the validation of that code; and a
    context is reported as provided only when the request has one. *)
Theorem run_response_invariants (app_context : option AppContext)
        (request : TestGenerationRequest) (r : TestGenerationResponse) :
  run (generation XCTEST_SYSTEM_PROMPT XCUITEST_SYSTEM_PROMPT
                  ANTHROPIC_MODEL invoke app_context) request = inr r ->
  response_test_type r = normalise (test_type request)
  /\ (response_test_type r = lit "unit" \/ response_test_type r = lit "ui")
  /\ response_class_name r <> []
  /\ strip (swift_code r) = swift_code r
  /\ (response_test_type r = lit "unit" ->
      contract_validation (response_metadata r) = None)
  /\ (response_test_type r = lit "ui" ->
      contract_validation (response_metadata r)
      = Some (validation_results (swift_code r)))
  /\ (context_provided (response_metadata r) = true ->
      has_context (response_metadata r) = true).
Proof.
  unfold run.
  destruct (str_in (normalise (test_type request)) TEST_TYPES) eqn:Ein;
    cbn [negb]; [|discriminate].
  apply test_type_cases in Ein.
  unfold generation.
  destruct (invoke _ _) as [e|content]; [discriminate|].
  intros E. injection E as <-.
  cbn [response_test_type response_class_name swift_code response_metadata
       contract_validation context_provided has_context].
  split; [reflexivity|]. split; [exact Ein|]. split; [|split; [|split; [|split]]].
  - apply class_name_in_nonempty. apply str_or_nonempty.
    destruct (str_eqb _ _); discriminate.
  - apply strip_code_fences_trimmed.
  - intros ->. reflexivity.
  - intros ->. reflexivity.
  - destruct app_context; [reflexivity|]. cbn [build_context_section].
    discriminate.
Qed.
End RunFacts.


(** * Identifiers of stored documents *)

(** ** The text that is hashed *)

(** The content of the document followed by its serialised metadata. *)
Definition hashed_text (d : Document) : str :=
  page_content d ++ safe_json (json_of_dict (metadata d)).

(** *** Where a serialised dictionary starts

    A scan of JSON text: outside a string, inside a string, and inside a
    string right after a backslash. *)
Inductive jstate := JOut | JIn | JEsc.

Definition BACKSLASH : char := 92%N.

Definition jstep (st : jstate) (c : char) : jstate :=
  match st with
  | JOut => if char_eqb c QUOTE then JIn else JOut
  | JIn =>
      if char_eqb c QUOTE then JOut
      else if char_eqb c BACKSLASH then JEsc else JIn
  | JEsc => JIn
  end.

Fixpoint jrun (st : jstate) (s : str) : jstate :=
  match s with
  | [] => st
  | c :: s' => jrun (jstep st c) s'
  end.

(** What the text of a dictionary of strings, integers and [None] never
    holds after its first character: a backslash or an opening brace
    outside a string, an opening brace right after a backslash. *)
Definition jok1 (st : jstate) (c : char) : bool :=
  match st with
  | JOut => negb (char_eqb c BACKSLASH) && negb (char_eqb c LBRACE)
  | JIn => true
  | JEsc => negb (char_eqb c LBRACE)
  end.

Fixpoint jok (st : jstate) (s : str) : bool :=
  match s with
  | [] => true
  | c :: s' => jok1 st c && jok (jstep st c) s'
  end.

Lemma jrun_app (st : jstate) (a b : str) :
  jrun st (a ++ b) = jrun (jrun st a) b.
Proof. revert st. induction a as [|c a IH]; intros st; cbn; auto. Qed.

Lemma jok_app (st : jstate) (a b : str) :
  jok st (a ++ b) = jok st a && jok (jrun st a) b.
Proof.
  revert st. induction a as [|c a IH]; intros st; cbn [app jok jrun];
    [reflexivity|].
  now rewrite IH, andb_assoc.
Qed.

(** A piece of text that the scan crosses from the state [st] back to
    [st] without meeting what [jok1] excludes. *)
Definition crosses (st : jstate) (s : str) : Prop :=
  jok st s = true /\ jrun st s = st.

Lemma crosses_nil (st : jstate) : crosses st [].
Proof. split; reflexivity. Qed.

Lemma crosses_app (st : jstate) (a b : str) :
  crosses st a -> crosses st b -> crosses st (a ++ b).
Proof.
  intros [Ha Ra] [Hb Rb]. split.
  - now rewrite jok_app, Ha, Ra, Hb.
  - now rewrite jrun_app, Ra, Rb.
Qed.

Lemma crosses_check (st : jstate) (s : str) :
  jok st s && match jrun st s, st with
              | JOut, JOut | JIn, JIn | JEsc, JEsc => true
              | _, _ => false
              end = true ->
  crosses st s.
Proof.
  intros E. apply andb_true_iff in E as [E1 E2]. split; [exact E1|].
  destruct (jrun st s), st; try discriminate; reflexivity.
Qed.

Lemma crosses_flat_map (A : Type) (st : jstate) (f : A -> str) (l : list A) :
  (forall a, crosses st (f a)) -> crosses st (flat_map f l).
Proof.
  intros Hf. induction l as [|a l IH]; cbn [flat_map];
    [apply crosses_nil|].
  now apply crosses_app.
Qed.

Lemma crosses_join (st : jstate) (sep : str) (l : list str) :
  crosses st sep -> Forall (crosses st) l -> crosses st (join sep l).
Proof.
  intros Hsep Hl. induction Hl as [|x l Hx Hl IH]; cbn [join];
    [apply crosses_nil|].
  destruct l; [exact Hx|].
  apply crosses_app; [exact Hx|]. now apply crosses_app.
Qed.

Lemma hex_digit_plain (n : N) :
  char_eqb (hex_digit n) QUOTE = false
  /\ char_eqb (hex_digit n) BACKSLASH = false.
Proof.
  unfold hex_digit, char_eqb, QUOTE, BACKSLASH.
  destruct (n <? 10)%N eqn:E; split; apply N.eqb_neq;
    [apply N.ltb_lt in E; lia|apply N.ltb_lt in E; lia| |].
  - apply N.ltb_ge in E. lia.
  - apply N.ltb_ge in E. lia.
Qed.

Lemma plain_inside (c : char) :
  char_eqb c QUOTE = false -> char_eqb c BACKSLASH = false ->
  crosses JIn [c].
Proof.
  intros H1 H2. split; cbn [jok jok1 jrun jstep andb]; [reflexivity|].
  now rewrite H1, H2.
Qed.

(** What stands for one character in a string is crossed inside it. *)
Lemma json_escape_inside (c : char) : crosses JIn (json_escape c).
Proof.
  unfold json_escape.
  repeat match goal with
         | |- context [if char_eqb c ?x then _ else _] =>
             destruct (char_eqb c x) eqn:?;
             [apply crosses_check; reflexivity|]
         end.
  destruct (c <? 32)%N.
  - apply crosses_app; [apply crosses_check; reflexivity|].
    destruct (hex_digit_plain (c / 16)) as [A1 A2].
    destruct (hex_digit_plain (c mod 16)) as [B1 B2].
    apply (@crosses_app JIn [_] [_]); now apply plain_inside.
  - now apply plain_inside.
Qed.

Lemma json_string_outside (s : str) : crosses JOut (json_string s).
Proof.
  unfold json_string.
  destruct (@crosses_flat_map char JIn json_escape s json_escape_inside)
    as [Hok Hrun].
  split.
  - cbn [app jok]. rewrite jok_app.
    change (jstep JOut QUOTE) with JIn. rewrite Hok, Hrun. reflexivity.
  - cbn [app jrun]. rewrite jrun_app.
    change (jstep JOut QUOTE) with JIn. rewrite Hrun. reflexivity.
Qed.

Lemma digits_outside (d : Decimal.uint) :
  crosses JOut (lit (NilEmpty.string_of_uint d)).
Proof.
  induction d; cbn [NilEmpty.string_of_uint]; [apply crosses_nil|..];
    rewrite lit_cons;
    (apply (@crosses_app JOut [_]);
     [apply crosses_check; reflexivity|exact IHd]).
Qed.

Lemma int_str_outside (z : Z) : crosses JOut (int_str z).
Proof.
  unfold int_str, NilZero.string_of_int, NilZero.string_of_uint.
  destruct (Z.to_int z) as [d|d].
  - destruct d; try apply digits_outside.
    apply crosses_check. reflexivity.
  - rewrite lit_cons. apply (@crosses_app JOut [_]);
      [apply crosses_check; reflexivity|].
    destruct d; try apply digits_outside.
    apply crosses_check. reflexivity.
Qed.

Lemma value_outside (v : value) : crosses JOut (safe_json (json_of_value v)).
Proof.
  destruct v as [|z|s]; cbn [json_of_value safe_json].
  - apply crosses_check. reflexivity.
  - apply int_str_outside.
  - apply json_string_outside.
Qed.

(** The text of a dictionary is an opening brace followed by a text
    that the scan crosses outside strings. *)
Lemma dict_text (m : dict) :
  exists body,
    safe_json (json_of_dict m) = LBRACE :: body /\ crosses JOut body.
Proof.
  unfold json_of_dict. cbn [safe_json]. rewrite map_map. cbn [fst snd].
  eexists. split; [reflexivity|].
  apply crosses_app; [|apply crosses_check; reflexivity].
  apply crosses_join; [apply crosses_check; reflexivity|].
  apply Forall_forall. intros x Hx.
  apply in_map_iff in Hx as ([k v] & <- & _). cbn [fst snd].
  apply crosses_app; [apply json_string_outside|].
  apply crosses_app; [apply crosses_check; reflexivity|apply value_outside].
Qed.

(** Two scans of one text, one started outside a string and one inside,
    stay on opposite sides. *)
Definition opposite (a b : jstate) : Prop :=
  (a = JOut /\ b = JIn) \/ (a = JIn /\ b = JOut).

Lemma opposite_scans (u : str) :
  forall a b,
    opposite a b -> jok a u = true -> jok b u = true ->
    opposite (jrun a u) (jrun b u).
Proof.
  induction u as [|c u IH]; intros a b Hab Ha Hb; [exact Hab|].
  cbn [jok] in Ha, Hb. apply andb_true_iff in Ha as [Ha1 Ha].
  apply andb_true_iff in Hb as [Hb1 Hb]. cbn [jrun].
  apply IH; [|exact Ha|exact Hb].
  destruct Hab as [[-> ->]|[-> ->]]; cbn [jok1 jstep] in *.
  - apply andb_true_iff in Ha1 as [Hc _]. apply negb_true_iff in Hc.
    rewrite Hc. destruct (char_eqb c QUOTE); [now right|now left].
  - apply andb_true_iff in Hb1 as [Hc _]. apply negb_true_iff in Hc.
    rewrite Hc. destruct (char_eqb c QUOTE); [now left|now right].
Qed.

(** No serialised dictionary ends with another one. *)
Lemma dict_text_suffix (m1 m2 : dict) (x : str) :
  safe_json (json_of_dict m1) = x ++ safe_json (json_of_dict m2) -> x = [].
Proof.
  destruct (dict_text m1) as (b1 & -> & [Hok1 Hrun1]).
  destruct (dict_text m2) as (b2 & -> & [Hok2 Hrun2]).
  destruct x as [|c x]; [reflexivity|]. cbn [app]. intros E. exfalso.
  apply cons_inj in E as [_ E]. subst b1.
  rewrite jok_app in Hok1. apply andb_true_iff in Hok1 as [_ Hok1].
  rewrite jrun_app in Hrun1. cbn [jok jrun] in Hok1, Hrun1.
  apply andb_true_iff in Hok1 as [Hb Hok1].
  assert (Hin : jrun JOut x = JIn).
  { destruct (jrun JOut x); cbn [jok1] in Hb; [|reflexivity|].
    - unfold LBRACE, char_eqb in Hb. cbn in Hb. discriminate.
    - unfold LBRACE, char_eqb in Hb. cbn in Hb. discriminate. }
  rewrite Hin in Hok1, Hrun1.
  change (jstep JIn LBRACE) with JIn in Hok1, Hrun1.
  assert (Hopp : opposite JOut JIn) by now left.
  pose proof (opposite_scans b2 Hopp Hok2 Hok1) as Hend.
  rewrite Hrun1, Hrun2 in Hend.
  destruct Hend as [[_ C]|[C _]]; discriminate.
Qed.

(** The text that is hashed gives back the content: two documents with
    the same text have the same content and the same serialised
    metadata. *)
Lemma hashed_text_inj (d1 d2 : Document) :
  hashed_text d1 = hashed_text d2 ->
  page_content d1 = page_content d2
  /\ safe_json (json_of_dict (metadata d1))
     = safe_json (json_of_dict (metadata d2)).
Proof.
  unfold hashed_text. intros E.
  apply app_eq_app in E as (l & [[E1 E2]|[E1 E2]]);
    pose proof (@dict_text_suffix _ _ _ E2) as El; subst l;
    rewrite app_nil_r in E1; cbn [app] in E2; auto.
Qed.

(** *** What the encoder keeps *)

Lemma utf8_char_dropped (c : char) : scalar c = false -> utf8_char c = [].
Proof.
  unfold scalar, utf8_char. intros Hc.
  apply orb_false_iff in Hc as [H1 H2]. apply N.ltb_ge in H1.
  replace (c <? 128)%N with false by (symmetry; apply N.ltb_ge; lia).
  replace (c <? 2048)%N with false by (symmetry; apply N.ltb_ge; lia).
  destruct ((55296 <=? c) && (c <=? 57343))%N eqn:E; [reflexivity|].
  apply andb_false_iff in E as [E|E]; [apply N.leb_gt in E; lia|].
  apply N.leb_gt in E.
  replace (57343 <? c)%N with true in H2 by (symmetry; apply N.ltb_lt; lia).
  cbn [andb] in H2. rewrite H2.
  replace (c <? 65536)%N with false; [reflexivity|].
  symmetry. apply N.ltb_ge. apply N.ltb_ge in H2. lia.
Qed.

(** The encoder leaves out exactly the code points that cannot be
    encoded. *)
Lemma utf8_encode_filter (s : str) :
  utf8_encode s = utf8_encode (filter scalar s).
Proof.
  unfold utf8_encode. induction s as [|c s IH]; [reflexivity|].
  cbn [flat_map filter]. destruct (scalar c) eqn:Hc.
  - cbn [flat_map]. now rewrite IH.
  - now rewrite (utf8_char_dropped c Hc).
Qed.

Lemma filter_scalar_all (s : str) : forallb scalar (filter scalar s) = true.
Proof.
  apply forallb_forall. intros c Hc. now apply filter_In in Hc as [_ Hc].
Qed.

Lemma filter_scalar_id (s : str) :
  forallb scalar s = true -> filter scalar s = s.
Proof.
  induction s as [|c s IH]; cbn [forallb filter]; [reflexivity|].
  intros Hs. apply andb_true_iff in Hs as [-> Hs]. now rewrite IH.
Qed.

Lemma utf8_encode_eq (s1 s2 : str) :
  utf8_encode s1 = utf8_encode s2 <-> filter scalar s1 = filter scalar s2.
Proof.
  rewrite (utf8_encode_filter s1), (utf8_encode_filter s2). split.
  - apply utf8_encode_inj; apply filter_scalar_all.
  - intros ->. reflexivity.
Qed.

(** *** Dictionaries as mappings *)

(** Equality of Python dictionaries: the same value under every key. *)
Definition dict_equiv (m1 m2 : dict) : Prop :=
  forall k, dict_get m1 k = dict_get m2 k.

Lemma dict_get_none (m : dict) (k : str) :
  ~ In k (map fst m) -> dict_get m k = None.
Proof.
  induction m as [|[k' v] m IH]; cbn [map fst In dict_get]; [reflexivity|].
  intros Hn. destruct (str_eqb k k') eqn:E.
  - apply str_eqb_eq in E. subst k'. exfalso. apply Hn. now left.
  - apply IH. intros Hin. apply Hn. now right.
Qed.

(** Dictionaries with the same keys in the same order, none twice, that
    are equal as mappings are equal as lists. *)
Lemma dict_ext (m1 m2 : dict) :
  map fst m1 = map fst m2 -> NoDup (map fst m1) -> dict_equiv m1 m2 ->
  m1 = m2.
Proof.
  revert m2. induction m1 as [|[k v] m1 IH]; intros [|[k' v'] m2];
    cbn [map fst]; try discriminate; [reflexivity|].
  intros Ek Hnd He. apply cons_inj in Ek as [<- Ek].
  apply NoDup_cons_iff in Hnd as [Hk Hnd].
  pose proof (He k) as Hv. cbn [dict_get] in Hv.
  rewrite str_eqb_refl in Hv. injection Hv as <-.
  f_equal. apply IH; [exact Ek|exact Hnd|].
  intros x. destruct (str_eqb x k) eqn:E.
  - apply str_eqb_eq in E. subst x.
    rewrite (dict_get_none m1 k Hk).
    rewrite Ek in Hk. now rewrite (dict_get_none m2 k Hk).
  - pose proof (He x) as Hx. cbn [dict_get] in Hx. now rewrite E in Hx.
Qed.

Lemma str_in_In (s : str) (l : list str) : str_in s l = true <-> In s l.
Proof.
  induction l as [|x l IH]; cbn [str_in In]; [split; [discriminate|tauto]|].
  rewrite orb_true_iff, IH. split; intros [E|E]; auto.
  - left. symmetry. now apply str_eqb_eq.
  - left. subst. apply str_eqb_refl.
Qed.

Lemma dict_get_some_in (m : dict) (k : str) (v : value) :
  dict_get m k = Some v -> In k (map fst m).
Proof.
  induction m as [|[k' v'] m IH]; cbn [dict_get map fst In]; [discriminate|].
  destruct (str_eqb k k') eqn:E; [|auto].
  apply str_eqb_eq in E. now left.
Qed.

Lemma dict_get_in (m : dict) (k : str) :
  In k (map fst m) -> exists v, dict_get m k = Some v.
Proof.
  induction m as [|[k' v'] m IH]; cbn [dict_get map fst In]; [tauto|].
  intros [E|Hin]; destruct (str_eqb k k') eqn:Ek; eauto.
  subst k'. now rewrite str_eqb_refl in Ek.
Qed.

(** The orders in which the program writes the keys of the metadata. *)
Definition VIEW_KEYS : list str :=
  [lit "kind"; lit "path"; lit "screen"; lit "symbol";
   lit "accessibility_ids"; lit "accessibility_id_count"; lit "buttons";
   lit "button_count"; lit "navigation_signals"].

Definition VC_KEYS : list str :=
  [lit "kind"; lit "path"; lit "screen"; lit "symbol";
   lit "accessibility_ids"; lit "accessibility_id_count";
   lit "navigation_signals"].

Definition MAP_KEYS : list str :=
  [lit "kind"; lit "path"; lit "accessibility_ids";
   lit "accessibility_id_count"].

Definition PLAIN_KEYS : list str := [lit "kind"; lit "path"].

Definition KEY_ORDERS : list (list str) :=
  [VIEW_KEYS; VC_KEYS; MAP_KEYS; PLAIN_KEYS].

(** The keys of the two lists are the same, whatever their order. *)
Definition same_keys (a b : list str) : bool :=
  forallb (fun k => str_in k b) a && forallb (fun k => str_in k a) b.

Lemma same_keys_intro (a b : list str) :
  (forall k, In k a <-> In k b) -> same_keys a b = true.
Proof.
  intros Hab. unfold same_keys. apply andb_true_iff.
  split; apply forallb_forall; intros k Hk; apply str_in_In; now apply Hab.
Qed.

Lemma key_orders_by_keys (a b : list str) :
  In a KEY_ORDERS -> In b KEY_ORDERS -> same_keys a b = true -> a = b.
Proof.
  unfold KEY_ORDERS. cbn [In].
  intros [<-|[<-|[<-|[<-|[]]]]] [<-|[<-|[<-|[<-|[]]]]] E;
    first [reflexivity | vm_compute in E; discriminate E].
Qed.

Lemma key_orders_nodup (a : list str) : In a KEY_ORDERS -> NoDup a.
Proof.
  unfold KEY_ORDERS. cbn [In].
  intros [<-|[<-|[<-|[<-|[]]]]];
    repeat (constructor; [vm_compute; intuition discriminate|]);
    constructor.
Qed.

(** Two dictionaries whose keys are in one of these orders and that
    are equal as mappings are equal as lists. *)
Lemma ordered_dict_ext (m1 m2 : dict) :
  In (map fst m1) KEY_ORDERS -> In (map fst m2) KEY_ORDERS ->
  dict_equiv m1 m2 -> m1 = m2.
Proof.
  intros H1 H2 He.
  assert (Ek : map fst m1 = map fst m2).
  { apply key_orders_by_keys; [exact H1|exact H2|].
    apply same_keys_intro. intros k. split; intros Hin.
    - apply dict_get_in in Hin as (v & Hv). rewrite He in Hv.
      now apply dict_get_some_in in Hv.
    - apply dict_get_in in Hin as (v & Hv). rewrite <- He in Hv.
      now apply dict_get_some_in in Hv. }
  apply dict_ext; [exact Ek| |exact He].
  now apply key_orders_nodup.
Qed.

(** *** The documents of the ingestion *)

Section WrittenDocuments.
Context `{UnicodeDb} `{Hashlib}.

(** The document is handed to the store by some run. *)
Definition handed_to_store (d : Document) : Prop :=
  exists store args disk w id,
    In w (store_writes (cmd_ingest store args disk)) /\ In (id, d) w.

Lemma view_chunks_keys (rel_path : str) (nb : value * str) :
  Forall (fun ch => In (map fst (meta ch)) KEY_ORDERS)
         (view_chunks rel_path nb).
Proof.
  unfold view_chunks. constructor; [|constructor; [|constructor]];
    cbn [meta].
  - left. reflexivity.
  - erewrite dict_set_keys; [|reflexivity]. left. reflexivity.
Qed.

Lemma vc_chunks_keys (rel_path : str) (nb : value * str) :
  Forall (fun ch => In (map fst (meta ch)) KEY_ORDERS)
         (vc_chunks rel_path nb).
Proof.
  unfold vc_chunks. constructor; [|constructor; [|constructor]];
    cbn [meta].
  - right. left. reflexivity.
  - erewrite dict_set_keys; [|reflexivity]. right. left. reflexivity.
Qed.

Lemma build_chunks_keys (file_text rel_path : str) :
  Forall (fun ch => In (map fst (meta ch)) KEY_ORDERS)
         (build_chunks_for_file file_text rel_path).
Proof.
  unfold build_chunks_for_file. apply Forall_app. split.
  - unfold found_chunks. repeat (apply Forall_app; split).
    + apply Forall_flat_map_intro. apply view_chunks_keys.
    + apply Forall_flat_map_intro. apply vc_chunks_keys.
    + unfold amap_chunks. destruct (file_ids file_text); constructor;
        [|constructor].
      cbn [meta]. right. right. left. reflexivity.
    + unfold nav_chunks. destruct (nav_scan _ _); constructor; [|constructor].
      cbn [meta]. right. right. right. left. reflexivity.
  - unfold fallback_chunks.
    destruct (found_chunks file_text rel_path); [|constructor].
    destruct (strip file_text); constructor; [|constructor].
    cbn [meta]. right. right. right. left. reflexivity.
Qed.

Lemma all_chunks_keys (files : list (str * str)) :
  Forall (fun ch => In (map fst (meta ch)) KEY_ORDERS) (all_chunks files).
Proof.
  unfold all_chunks. apply Forall_flat_map_intro. intros f.
  destruct (strip (snd f)); [constructor|]. apply build_chunks_keys.
Qed.

(** The documents handed to the store have their keys in one of the
    orders of the program. *)
Lemma handed_keys (d : Document) :
  handed_to_store d -> In (map fst (metadata d)) KEY_ORDERS.
Proof.
  intros (store & args & disk & w & id & Hw & Hin).
  destruct (cmd_ingest_writes store args disk) as [E|(findings & _ & E)];
    rewrite E in Hw; [destruct Hw|].
  destruct Hw as [<-|[]]. unfold batch_of in Hin.
  apply in_map_iff in Hin as (d' & Ed & Hin). injection Ed as _ ->.
  destruct Hin as [<-|Hin].
  - right. right. right. left. reflexivity.
  - apply in_map_iff in Hin as (ch & <- & Hch).
    pose proof (all_chunks_keys (swift_files disk)) as Hk.
    rewrite Forall_forall in Hk. now apply Hk.
Qed.

(** Two runs over the same files that reach the store hand it the same
    identifiers and documents, whatever the store and the arguments. *)
Lemma reingest_same_batch (store1 store2 : StoreEnv) (args1 args2 : Args)
      (disk : Disk) :
  store_writes (cmd_ingest store1 args1 disk) <> [] ->
  store_writes (cmd_ingest store2 args2 disk) <> [] ->
  store_writes (cmd_ingest store2 args2 disk)
  = store_writes (cmd_ingest store1 args1 disk).
Proof.
  intros H1 H2.
  destruct (cmd_ingest_writes store1 args1 disk) as [E1|(f1 & R1 & E1)];
    [contradiction|].
  destruct (cmd_ingest_writes store2 args2 disk) as [E2|(f2 & R2 & E2)];
    [contradiction|].
  rewrite E1, E2. rewrite R1 in R2. now injection R2 as <-.
Qed.
End WrittenDocuments.

(** The identifiers that the calls of [add_documents] give to the
    store. *)
Definition ids_given (log : StoreLog) : list str := flat_map (map fst) log.

Lemma set_insert_present (x : str) (s : list str) :
  StronglySorted str_lt s -> In x s -> set_insert str_ltb str_eqb x s = s.
Proof.
  induction 1 as [|y s Hs IH Hall]; cbn [In set_insert]; [tauto|].
  intros Hin. rewrite Forall_forall in Hall.
  destruct (str_ltb x y) eqn:Hlt.
  - exfalso. destruct Hin as [<-|Hin].
    + rewrite str_ltb_irrefl in Hlt. discriminate.
    + pose proof (str_ltb_trans _ _ _ Hlt (Hall x Hin)) as C.
      rewrite str_ltb_irrefl in C. discriminate.
  - destruct (str_eqb x y) eqn:Heq; [reflexivity|].
    destruct Hin as [<-|Hin]; [now rewrite str_eqb_refl in Heq|].
    f_equal. now apply IH.
Qed.

(** Identifiers that are already in a set add nothing to it. *)
Lemma sorted_strs_absorb (l l' : list str) :
  incl l l' -> sorted_strs (l ++ l') = sorted_strs l'.
Proof.
  unfold sorted_strs, sorted_set. rewrite fold_right_app.
  fold (sorted_set str_ltb str_eqb l'). fold (sorted_strs l').
  induction l as [|x l IH]; intros Hl; [reflexivity|].
  cbn [fold_right]. rewrite IH by (intros y Hy; apply Hl; now right).
  apply set_insert_present; [apply sorted_strs_sorted|].
  apply sorted_strs_in. apply Hl. now left.
Qed.

(** *** Digests of a fixed size *)

Section Pigeonhole.
Variables A B : Type.
Variable f : A -> B.
Hypothesis B_dec : forall x y : B, {x = y} + {x <> y}.

Lemma collision_or_nodup (l : list A) :
  NoDup l ->
  NoDup (map f l)
  \/ exists x y, In x l /\ In y l /\ x <> y /\ f x = f y.
Proof.
  induction 1 as [|x l Hx Hl IH]; [left; constructor|].
  destruct IH as [IH|(a & b & Ha & Hb & Hab & E)].
  - destruct (in_dec B_dec (f x) (map f l)) as [Hin|Hout].
    + right. apply in_map_iff in Hin as (y & E & Hy).
      exists x, y. split; [now left|]. split; [now right|].
      split; [|now symmetry]. intros ->. contradiction.
    + left. cbn [map]. now constructor.
  - right. exists a, b. split; [now right|]. split; [now right|].
    now split.
Qed.

(** More arguments than values: two arguments have the same value. *)
Lemma pigeonhole (l : list A) (range : list B) :
  NoDup l -> (forall x, In x l -> In (f x) range) ->
  length range < length l ->
  exists x y, In x l /\ In y l /\ x <> y /\ f x = f y.
Proof.
  intros Hl Hr Hlt.
  destruct (collision_or_nodup Hl) as [Hnd|Hc]; [|exact Hc].
  exfalso.
  assert (Hle : length (map f l) <= length range).
  { apply NoDup_incl_length; [exact Hnd|]. intros y Hy.
    apply in_map_iff in Hy as (x & <- & Hx). now apply Hr. }
  rewrite length_map in Hle. lia.
Qed.
End Pigeonhole.

(** The texts of [n] characters over an alphabet. *)
Fixpoint words (alphabet : list char) (n : nat) : list str :=
  match n with
  | O => [[]]
  | S n' => flat_map (fun c => map (cons c) (words alphabet n')) alphabet
  end.

Lemma length_flat_map_const (A B : Type) (f : A -> list B) (m : nat)
      (l : list A) :
  (forall a, length (f a) = m) -> length (flat_map f l) = length l * m.
Proof.
  intros Hf. induction l as [|a l IH]; [reflexivity|].
  cbn [flat_map length]. rewrite length_app, Hf, IH. reflexivity.
Qed.

Lemma words_length (alphabet : list char) (n : nat) :
  length (words alphabet n) = length alphabet ^ n.
Proof.
  induction n as [|n IH]; [reflexivity|].
  cbn [words]. rewrite Nat.pow_succ_r', <- IH.
  apply length_flat_map_const. intros c. apply length_map.
Qed.

Lemma words_in (alphabet : list char) (n : nat) (w : str) :
  In w (words alphabet n)
  <-> length w = n /\ Forall (fun c => In c alphabet) w.
Proof.
  revert w. induction n as [|n IH]; intros w; cbn [words].
  - split.
    + intros [<-|[]]. split; [reflexivity|constructor].
    + intros [Hl _]. destruct w; [now left|discriminate].
  - rewrite in_flat_map. split.
    + intros (c & Hc & Hw). apply in_map_iff in Hw as (w' & <- & Hw').
      apply IH in Hw' as [Hl Hall]. cbn [length]. split; [now rewrite Hl|].
      now constructor.
    + intros [Hl Hall]. destruct w as [|c w]; [discriminate|].
      inversion Hall as [|? ? Hc Hw]. subst. exists c. split; [exact Hc|].
      apply in_map. apply IH. cbn [length] in Hl. split; [lia|exact Hw].
Qed.

Lemma prefixed_nodup (W : list str) (a : list char) :
  NoDup W -> NoDup a -> NoDup (flat_map (fun c => map (cons c) W) a).
Proof.
  intros HW Ha. induction Ha as [|c a Hc Ha IHa]; cbn [flat_map];
    [constructor|].
  apply NoDup_app; [|exact IHa|].
  - clear -HW. induction HW as [|w W Hw HW IHW]; cbn [map]; constructor;
      [|exact IHW].
    intros Hin. apply in_map_iff in Hin as (w' & E & Hw').
    apply cons_inj in E as [_ ->]. contradiction.
  - intros w Hw Hin. apply in_map_iff in Hw as (w1 & <- & _).
    apply in_flat_map in Hin as (c' & Hc' & Hin).
    apply in_map_iff in Hin as (w2 & E & _).
    apply cons_inj in E as [-> _]. contradiction.
Qed.

Lemma words_nodup (alphabet : list char) (n : nat) :
  NoDup alphabet -> NoDup (words alphabet n).
Proof.
  intros Ha. induction n as [|n IH]; cbn [words].
  - constructor; [intros []|constructor].
  - now apply prefixed_nodup.
Qed.

(** The digits of a hexadecimal digest, and a digest of 40 of them. *)
Definition HEX : list char := lit "0123456789abcdef".

Definition hex40 (s : str) : Prop :=
  length s = 40 /\ Forall (fun c => In c HEX) s.

(** The two letters of the texts that are counted. *)
Definition AB : list char := [97%N; 98%N].

Lemma more_texts_than_digests :
  length (words HEX 40) < length (words AB 161).
Proof.
  rewrite !words_length.
  change (length HEX) with (2 ^ 4). change (length AB) with 2.
  rewrite <- Nat.pow_mul_r. apply Nat.pow_lt_mono_r; [lia|].
  cbn [Nat.mul Nat.add]. lia.
Qed.

Lemma str_eq_dec (x y : str) : {x = y} + {x <> y}.
Proof. apply list_eq_dec. apply N.eq_dec. Qed.

(** A function from texts to digests of 40 hexadecimal digits gives the
    same digest to two different texts of 161 letters. *)
Lemma digest_collision (f : str -> str) :
  (forall t, hex40 (f t)) ->
  exists t1 t2,
    In t1 (words AB 161) /\ In t2 (words AB 161) /\ t1 <> t2 /\ f t1 = f t2.
Proof.
  intros Hf. apply (@pigeonhole str str f str_eq_dec _ (words HEX 40)).
  - apply words_nodup. repeat constructor; cbn; intuition discriminate.
  - intros t _. apply words_in. apply Hf.
  - apply more_texts_than_digests.
Qed.

(** *** Texts of letters *)

Definition plain_args : Args :=
  {| app_dir := lit "/app";
     persist := lit "./rag_store";
     collection := lit "ios_app";
     embed_model := lit "sentence-transformers/all-MiniLM-L6-v2";
     fail_if_missing_ids := false |}.

(** The document of the raw chunk of the file [A.swift] with the text
    [t]. *)
Definition raw_document (t : str) : Document :=
  {| page_content := t;
     metadata := [(lit "kind", VStr (lit "swift_raw"));
                  (lit "path", VStr (lit "A.swift"))] |}.

Definition is_ab (c : char) : bool := mem_char c AB.

Lemma lstrip_id (t : str) :
  forallb (fun c => negb (is_space c)) t = true -> lstrip t = t.
Proof.
  destruct t as [|c t]; [reflexivity|]. cbn [forallb lstrip].
  intros Ht. apply andb_true_iff in Ht as [Hc _].
  apply negb_true_iff in Hc. now rewrite Hc.
Qed.

Lemma strip_id (t : str) :
  forallb (fun c => negb (is_space c)) t = true -> strip t = t.
Proof.
  intros Ht. unfold strip, rstrip. rewrite (@lstrip_id t Ht).
  rewrite lstrip_id; [apply rev_involutive|].
  rewrite forallb_forall in *. intros c Hc. apply Ht. now apply in_rev.
Qed.

Lemma words_AB (t : str) :
  In t (words AB 161) ->
  length t = 161 /\ made_of is_ab t = true
  /\ forallb (fun c => negb (is_space c)) t = true
  /\ forallb scalar t = true.
Proof.
  intros Ht. apply words_in in Ht as [Hl Hall]. split; [exact Hl|].
  rewrite Forall_forall in Hall. unfold made_of.
  repeat split; apply forallb_forall; intros c Hc; apply Hall in Hc;
    destruct Hc as [<-|[<-|[]]]; reflexivity.
Qed.

Section LetterFiles.
Context `{UnicodeDb} `{Hashlib}.

(** A file of 161 letters gives its raw chunk and nothing else. *)
Lemma letters_chunks (t : str) :
  In t (words AB 161) ->
  all_chunks [(lit "A.swift", t)] = [raw_chunk t (lit "A.swift")]
  /\ chunk_doc (raw_chunk t (lit "A.swift")) = raw_document t.
Proof.
  intros Ht. destruct (@words_AB t Ht) as (Hl & Hab & Hsp & _).
  pose proof (@strip_id t Hsp) as Es.
  pose proof (@found_chunks_made_of _ is_ab t (lit "A.swift") eq_refl Hab)
    as Ef.
  assert (Hraw : build_chunks_for_file t (lit "A.swift")
                 = [raw_chunk t (lit "A.swift")]).
  { unfold build_chunks_for_file. rewrite Ef. cbn [app].
    rewrite fallback_chunks_spec, Es.
    destruct t; [discriminate Hl|reflexivity]. }
  split.
  - unfold all_chunks. cbn [flat_map fst snd]. rewrite Es, app_nil_r, Hraw.
    destruct t; [discriminate Hl|reflexivity].
  - unfold chunk_doc, raw_chunk, raw_document. cbn [text meta]. rewrite Es.
    rewrite firstn_all2; [reflexivity|]. rewrite Hl. lia.
Qed.

(** Such a file is handed to the store by the run over it. *)
Lemma letters_handed (t : str) :
  In t (words AB 161) -> handed_to_store (raw_document t).
Proof.
  intros Ht. destruct (@letters_chunks t Ht) as [Ec Ed].
  set (disk := {| is_dir := true; swift_files := [(lit "A.swift", t)] |}).
  set (findings := fst (audit_accessibility (all_chunks (swift_files disk)))).
  assert (Hrun : run_findings disk = Some findings) by reflexivity.
  exists quiet_store, plain_args, disk.
  rewrite (@cmd_ingest_past_gate _ _ quiet_store plain_args disk findings
             Hrun (or_introl eq_refl)).
  cbv zeta. cbn [build_raises add_documents_raises persist_raises
                 quiet_store store_writes].
  eexists. exists (document_id (raw_document t)). split; [now left|].
  unfold batch_of, ingest_docs. cbn [map In]. right.
  cbn [swift_files disk]. rewrite Ec. cbn [map]. rewrite Ed. now left.
Qed.
End LetterFiles.

(** *** The identifier of a document *)

(** The bytes that are hashed for a document. *)
Definition hashed_bytes (d : Document) : list byte :=
  utf8_encode (hashed_text d).

(** The content and the serialised metadata of the document hold no
    code point that the encoder leaves out. *)
Definition encodable (d : Document) : bool := forallb scalar (hashed_text d).

Lemma letters_encodable (t : str) :
  In t (words AB 161) -> encodable (raw_document t) = true.
Proof.
  intros Ht. destruct (@words_AB t Ht) as (_ & _ & _ & Hs).
  unfold encodable, hashed_text, raw_document. cbn [page_content metadata].
  rewrite forallb_app, Hs. reflexivity.
Qed.

(** Documents that can be encoded and differ in their content are
    hashed from different bytes. *)
Lemma changed_content_changed_bytes (d1 d2 : Document) :
  encodable d1 = true -> encodable d2 = true ->
  page_content d1 <> page_content d2 ->
  hashed_bytes d1 <> hashed_bytes d2.
Proof.
  unfold encodable, hashed_bytes. intros H1 H2 Hne E.
  apply utf8_encode_eq in E.
  rewrite (filter_scalar_id _ H1), (filter_scalar_id _ H2) in E.
  now apply hashed_text_inj in E as [Ec _].
Qed.

Section IdentifierTheorem.
Context `{UnicodeDb} `{Hashlib}.

(** C5, as the code has it.  The identifier of a document is the SHA-1
    digest of the UTF-8 bytes of its content followed by its serialised
    metadata, where the encoder leaves out the code points that cannot be
    encoded.  Documents with the same content and the same metadata (the
    same items in the same order; for documents that ingestion hands to
    the store, the same dictionary) have the same identifier; two runs
    over the same files that reach the store give it the same identifiers
    and documents, so that the set of identifiers given to the store does
    not grow with the second run.  Two documents have the same hashed
    bytes exactly when their texts are the same once the code points that
    cannot be encoded are removed, and then the same identifier.  Two
    documents that can be encoded and differ in their content are hashed
    from different bytes, whatever their metadata, so that their
    identifiers differ when the digest function does not send these two
    byte strings to the same digest.  A digest function whose values are
    40 hexadecimal digits gives one identifier to two documents that
    ingestion hands to the store, that can be encoded and that differ in
    their content. *)
Theorem document_id_content_hash (d1 d2 : Document)
        (store1 store2 : StoreEnv) (args1 args2 : Args) (disk : Disk) :
  let r1 := cmd_ingest store1 args1 disk in
  let r2 := cmd_ingest store2 args2 disk in
  document_id d1 = sha1_hexdigest (hashed_bytes d1)
  /\ hashed_bytes d1 = utf8_encode (filter scalar (hashed_text d1))
  /\ (page_content d1 = page_content d2 -> metadata d1 = metadata d2 ->
      document_id d1 = document_id d2)
  /\ (handed_to_store d1 -> handed_to_store d2 ->
      page_content d1 = page_content d2 ->
      dict_equiv (metadata d1) (metadata d2) ->
      document_id d1 = document_id d2)
  /\ (store_writes r1 <> [] -> store_writes r2 <> [] ->
      store_writes r2 = store_writes r1
      /\ sorted_strs (ids_given (store_writes r1 ++ store_writes r2))
         = sorted_strs (ids_given (store_writes r1)))
  /\ (hashed_bytes d1 = hashed_bytes d2
      <-> filter scalar (hashed_text d1) = filter scalar (hashed_text d2))
  /\ (filter scalar (hashed_text d1) = filter scalar (hashed_text d2) ->
      document_id d1 = document_id d2)
  /\ (encodable d1 = true -> encodable d2 = true ->
      page_content d1 <> page_content d2 ->
      hashed_bytes d1 <> hashed_bytes d2
      /\ ((sha1_hexdigest (hashed_bytes d1) = sha1_hexdigest (hashed_bytes d2) ->
           hashed_bytes d1 = hashed_bytes d2) ->
          document_id d1 <> document_id d2))
  /\ ((forall b, hex40 (sha1_hexdigest b)) ->
      exists e1 e2,
        handed_to_store e1 /\ handed_to_store e2
        /\ encodable e1 = true /\ encodable e2 = true
        /\ page_content e1 <> page_content e2
        /\ document_id e1 = document_id e2).
Proof.
  intros r1 r2.
  assert (Eid : forall d, document_id d = sha1_hexdigest (hashed_bytes d))
    by reflexivity.
  split; [apply Eid|]. split; [apply utf8_encode_filter|].
  split; [intros Ec Em; destruct d1, d2; cbn in Ec, Em; now subst|].
  split; [|split; [|split; [|split; [|split]]]].
  - intros W1 W2 Ec Em.
    assert (E : metadata d1 = metadata d2).
    { apply ordered_dict_ext; [now apply handed_keys..|exact Em]. }
    destruct d1, d2; cbn in Ec, E; now subst.
  - intros N1 N2.
    pose proof (@reingest_same_batch _ _ store1 store2 args1 args2 disk N1 N2)
      as E. fold r1 r2 in E.
    split; [exact E|]. rewrite E. unfold ids_given.
    rewrite flat_map_app. apply sorted_strs_absorb. apply incl_refl.
  - apply utf8_encode_eq.
  - intros E. rewrite !Eid. f_equal. now apply utf8_encode_eq.
  - intros H1 H2 Hne.
    pose proof (@changed_content_changed_bytes d1 d2 H1 H2 Hne) as Hb.
    split; [exact Hb|]. intros Hinj E. rewrite !Eid in E. auto.
  - intros Hhex.
    destruct (@digest_collision (fun t => document_id (raw_document t)))
      as (t1 & t2 & In1 & In2 & Hne & E).
    { intros t. rewrite Eid. apply Hhex. }
    exists (raw_document t1), (raw_document t2).
    split; [now apply letters_handed|]. split; [now apply letters_handed|].
    split; [now apply letters_encodable|].
    split; [now apply letters_encodable|].
    split; [exact Hne|exact E].
Qed.
End IdentifierTheorem.

(** * Examples

    The model run on ASCII texts.  For these the Unicode database is not
    consulted beyond ASCII, and any digest function will do. *)

Definition ascii_db : UnicodeDb :=
  {| uni_alnum := fun _ => false; uni_lower := fun s => s |}.

Definition plain_digest : Hashlib := {| sha1_hexdigest := fun b => b |}.

#[local] Existing Instance ascii_db.
#[local] Existing Instance plain_digest.

(** ** The audit on small blocks *)

Definition view_chunk (block : string) : Chunk :=
  {| text := lit block;
     meta := [(lit "kind", VStr (lit "swiftui_view"));
              (lit "path", VStr (lit "A.swift"));
              (lit "screen", VStr (lit "A"))] |}.

Definition controller_chunk (block : string) : Chunk :=
  {| text := lit block;
     meta := [(lit "kind", VStr (lit "uikit_viewcontroller"));
              (lit "path", VStr (lit "B.swift"));
              (lit "screen", VStr (lit "B"))] |}.

Definition quote (s : string) : str := [QUOTE] ++ lit s ++ [QUOTE].

(** One control and no identifier: flagged. *)
Example audit_one_control :
  audit_chunk (view_chunk "struct A: View { Button(x) }")
  = [ {| path := lit "A.swift"; screen := lit "A"; ui := lit "SwiftUI";
         interactive_count := 1; accessibility_id_count := 0 |} ]
  /\ audit_chunk (controller_chunk "class B: UIViewController { let b = UIButton() }")
     = [ {| path := lit "B.swift"; screen := lit "B"; ui := lit "UIKit";
            interactive_count := 1; accessibility_id_count := 0 |} ].
Proof. split; vm_compute; reflexivity. Qed.

(** One control and one identifier: not flagged. *)
Example audit_control_with_identifier :
  audit_chunk
    {| text := lit "struct A: View { Toggle(x).accessibilityIdentifier("
               ++ quote "t" ++ lit ") }";
       meta := meta (view_chunk "") |} = []
  /\ audit_chunk
       {| text := lit "class B: UIViewController { UISwitch s; s.accessibilityIdentifier = "
                  ++ quote "s" ++ lit " }";
          meta := meta (controller_chunk "") |} = [].
Proof. split; vm_compute; reflexivity. Qed.

(** No control and no identifier: not flagged; and a chunk of another
    kind is never flagged. *)
Example audit_nothing :
  audit_chunk (view_chunk "struct A: View { Text(x) }") = []
  /\ audit_chunk (controller_chunk "class B: UIViewController { }") = []
  /\ audit_chunk {| text := lit "Button(x)";
                    meta := [(lit "kind", VStr (lit "screen_card"))] |} = [].
Proof. repeat split; vm_compute; reflexivity. Qed.

Lemma audit_accessibility_flags_witness :
  audit_chunk (view_chunk "struct A: View { Button(x) }")
  = [finding_of (view_chunk "struct A: View { Button(x) }")].
Proof.
  destruct (audit_accessibility_flags []) as [_ Hch].
  destruct (Hch (view_chunk "struct A: View { Button(x) }")) as (Hone & _ & _).
  apply Hone. left. repeat split; vm_compute; auto.
Defined.

(** ** Blocks *)

Definition nested_text : str := lit "struct A: View { a { b } c } tail".

Definition nested_match : Match :=
  {| m_start := 0; m_end := 16; m_groups := [(2, (7, 8))] |}.

(** Nested braces: the block ends at the brace that closes the first. *)
Lemma block_extent_witness :
  finditer SWIFTUI_VIEW_START_RE nested_text = [nested_match]
  /\ block_at nested_text 2 nested_match
     = [(VStr (lit "A"), lit "struct A: View { a { b } c }")].
Proof.
  split; [vm_compute; reflexivity|].
  destruct (block_extent nested_text 2 nested_match) as (_ & Hfound & _).
  destruct (Hfound 15 eq_refl) as (_ & _ & _ & Hbal & _).
  destruct (Hbal 27) as [E _].
  - apply brace_loop_matching. vm_compute. reflexivity.
  - rewrite E. vm_compute. reflexivity.
Defined.

(** An unbalanced block runs to the end of the text. *)
Example unbalanced_block_runs_to_end :
  extract_blocks (lit "struct A: View { a { b  ") SWIFTUI_VIEW_START_RE 2
  = [(VStr (lit "A"), lit "struct A: View { a { b")].
Proof. vm_compute. reflexivity. Qed.

(** C3, counterexample.  A declaration pattern that does not take the
    brace, on a text without brace: the pattern matches, no opening brace
    is found, and no block is returned; the block running to the end of
    the text is not among the blocks. *)
Lemma unbraced_match_gives_no_block :
  let text := lit "struct A: View" in
  let start_re := Lit (lit "struct") in
  finditer start_re text = [ {| m_start := 0; m_end := 6; m_groups := [] |} ]
  /\ find_char LBRACE text (6 - 1) = None
  /\ extract_blocks text start_re 0 = []
  /\ forall name, ~ In (name, strip (skipn 0 text))
                       (extract_blocks text start_re 0).
Proof.
  repeat split; try (vm_compute; reflexivity).
  intros name Hin. vm_compute in Hin. exact Hin.
Qed.

(** ** Chunks of a file *)

(** C4, counterexample.  A file of whitespace only: nothing is found in
    it, and no raw chunk is made for it, neither by the builder nor by
    the run, which passes the file over. *)
Lemma blank_file_gives_no_chunk :
  let file_text := lit "  " ++ [NEWLINE] in
  let rel_path := lit "Empty.swift" in
  found_chunks file_text rel_path = []
  /\ build_chunks_for_file file_text rel_path = []
  /\ all_chunks [(rel_path, file_text)] = [].
Proof. repeat split; vm_compute; reflexivity. Qed.

Lemma raw_fallback_rule_witness :
  build_chunks_for_file (lit " let x = 1 ") (lit "X.swift")
  = [raw_chunk (lit " let x = 1 ") (lit "X.swift")]
  /\ text (raw_chunk (lit " let x = 1 ") (lit "X.swift")) = lit "let x = 1".
Proof.
  destruct (raw_fallback_rule (lit " let x = 1 ") (lit "X.swift"))
    as (_ & _ & _ & _ & Hraw & Htext & _).
  split.
  - apply Hraw. split; [vm_compute; reflexivity|vm_compute; discriminate].
  - rewrite Htext. vm_compute. reflexivity.
Defined.

(** C8, counterexample.  A navigation line with leading whitespace: the
    navigation chunk holds the line trimmed, not the line as it is in the
    file. *)
Lemma nav_lines_are_trimmed :
  let file_text := lit "  present(vc)" in
  let rel_path := lit "A.swift" in
  filter nav_line (splitlines file_text) = [lit "  present(vc)"]
  /\ map text (nav_chunks file_text rel_path)
     = [nav_text rel_path [lit "present(vc)"]]
  /\ map text (nav_chunks file_text rel_path)
     <> [nav_text rel_path (firstn 60 (filter nav_line (splitlines file_text)))].
Proof.
  repeat split; try (vm_compute; reflexivity).
  vm_compute. discriminate.
Qed.

Lemma build_chunks_order_witness :
  map text (nav_chunks (lit "  present(vc)") (lit "A.swift"))
  = [nav_text (lit "A.swift") [lit "present(vc)"]].
Proof.
  destruct (build_chunks_order (lit "  present(vc)") (lit "A.swift"))
    as (_ & _ & _ & _ & _ & Hnav & _).
  rewrite Hnav. vm_compute. reflexivity.
Defined.

(** ** Ingestion runs *)

Definition demo_args (fail_fast : bool) : Args :=
  {| app_dir := lit "/app";
     persist := lit "./rag_store";
     collection := lit "ios_app";
     embed_model := lit "sentence-transformers/all-MiniLM-L6-v2";
     fail_if_missing_ids := fail_fast |}.

(** One file with one screen that the audit flags. *)
Definition flagged_disk : Disk :=
  {| is_dir := true;
     swift_files := [(lit "A.swift", lit "struct A: View { Button(x) }")] |}.






(** ** Identifiers *)

(** C5, counterexample.  Two files whose names hold a byte that is no
    UTF-8 (the walk gives them with a lone surrogate in its place) and
    that have the same text, with one accessibility identifier.  The run
    hands the store the accessibility map of each: the two documents
    differ in their content, which holds the path, and in their metadata,
    and get the same identifier whatever the digest function is, because
    the encoder of [sha1] leaves the surrogates out. *)
Lemma undecodable_names_same_identifier :
  let text := lit ".accessibilityIdentifier(" ++ quote "a" ++ lit ")" in
  let name1 := lit "A" ++ [56575%N] ++ lit ".swift" in
  let name2 := lit "A" ++ [56574%N] ++ lit ".swift" in
  let disk := {| is_dir := true;
                 swift_files := [(name1, text); (name2, text)] |} in
  let map_doc name :=
    {| page_content := lit "ACCESSIBILITY_IDS" ++ [NEWLINE] ++ lit "path: "
                       ++ name ++ [NEWLINE] ++ lit "a";
       metadata := [(lit "kind", VStr (lit "accessibility_map"));
                    (lit "path", VStr name);
                    (lit "accessibility_ids", VStr (lit "a"));
                    (lit "accessibility_id_count", VInt 1)] |} in
  page_content (map_doc name1) <> page_content (map_doc name2)
  /\ forall hashlib : Hashlib,
       exists id batch,
         store_writes (@cmd_ingest ascii_db hashlib quiet_store
                                   (demo_args false) disk) = [batch]
         /\ In (id, map_doc name1) batch
         /\ In (id, map_doc name2) batch.
Proof.
  intros text name1 name2 disk map_doc. split; [vm_compute; discriminate|].
  intros hashlib. eexists. eexists. split; [vm_compute; reflexivity|].
  split; [right; left; reflexivity|right; right; left; reflexivity].
Qed.

(** The order of the keys counts: two dictionaries that are equal as
    mappings are hashed from different bytes when their keys are not in
    the same order. *)
Example key_order_changes_bytes :
  let d1 := {| page_content := [];
               metadata := [(lit "a", VInt 1); (lit "b", VInt 2)] |} in
  let d2 := {| page_content := [];
               metadata := [(lit "b", VInt 2); (lit "a", VInt 1)] |} in
  (forall k, dict_get (metadata d1) k = dict_get (metadata d2) k)
  /\ hashed_bytes d1 <> hashed_bytes d2.
Proof.
  intros d1 d2. split; [|vm_compute; discriminate].
  intros k. cbn [d1 d2 metadata dict_get].
  destruct (str_eqb k (lit "a")) eqn:Ea; destruct (str_eqb k (lit "b")) eqn:Eb;
    try reflexivity.
  apply str_eqb_eq in Ea, Eb. subst k. discriminate.
Qed.

(** A digest of 40 hexadecimal digits, the same for all bytes. *)
Definition zero_digest : Hashlib :=
  {| sha1_hexdigest := fun _ => repeat 48%N 40 |}.

Lemma document_id_content_hash_witness :
  let d1 := {| page_content := lit "struct A";
               metadata := [(lit "kind", VStr (lit "swift_raw"))] |} in
  let d2 := {| page_content := lit "struct B";
               metadata := [(lit "kind", VStr (lit "swift_raw"));
                            (lit "path", VStr (lit "B.swift"))] |} in
  let r := cmd_ingest quiet_store (demo_args false) flagged_disk in
  document_id d1 <> document_id d2
  /\ sorted_strs (ids_given (store_writes r ++ store_writes r))
     = sorted_strs (ids_given (store_writes r))
  /\ exists e1 e2,
       page_content e1 <> page_content e2
       /\ @document_id zero_digest e1 = @document_id zero_digest e2.
Proof.
  intros d1 d2 r.
  destruct (document_id_content_hash d1 d2 quiet_store quiet_store
              (demo_args false) (demo_args false) flagged_disk)
    as (_ & _ & _ & _ & Hre & _ & _ & Hdiff & _).
  destruct (@document_id_content_hash ascii_db zero_digest d1 d2
              quiet_store quiet_store (demo_args false) (demo_args false)
              flagged_disk)
    as (_ & _ & _ & _ & _ & _ & _ & _ & Hhex).
  split; [|split].
  - apply Hdiff; [reflexivity|reflexivity|vm_compute; discriminate|].
    intros E. exact E.
  - apply Hre; vm_compute; discriminate.
  - destruct Hhex as (e1 & e2 & _ & _ & _ & _ & Hne & E).
    + intros b. split; [reflexivity|].
      repeat constructor; vm_compute; tauto.
    + exists e1, e2. split; assumption.
Defined.

(** ** Context bundles *)

Definition doc (content : string) (m : dict) : Document :=
  {| page_content := lit content; metadata := m |}.

(** A document with an integer that is not zero under
    [accessibility_ids]: [split] fails on it, and the bundle returned is
    the empty one with the error; under zero or [None] the field is passed
    over. *)
Example integer_field_empties_bundle :
  let docs := [doc "a" [(lit "accessibility_ids", VStr (lit "loginButton"))];
               doc "b" [(lit "accessibility_ids", VInt 7)]] in
  let docs0 := [doc "a" [(lit "accessibility_ids", VStr (lit "loginButton"))];
                doc "b" [(lit "accessibility_ids", VInt 0)];
                doc "c" [(lit "accessibility_ids", VNone)]] in
  accessibility_ids (assembled docs) = []
  /\ error (assembled docs) = Some AttributeError
  /\ accessibility_ids (assembled docs0) = [lit "loginButton"]
  /\ error (assembled docs0) = None.
Proof. repeat split. Qed.




(** A store that cannot be reached, and an empty store. *)
Definition unreachable : exn + Store := inl (StoreError (lit "no such collection")).

Definition empty_store : Store := {| similarity_search := fun _ _ => inr [] |}.

Lemma query_rag_degrades_witness :
  fst (query_rag unreachable None 10 (lit "login") None)
  = error_bundle (StoreError (lit "no such collection"))
  /\ fst (query_rag (inr empty_store) None 10 (lit "login") None) = empty_bundle.
Proof.
  split.
  - destruct (query_rag_degrades unreachable None 10 (lit "login") None)
      as (Hfail & _).
    apply Hfail. reflexivity.
  - destruct (query_rag_degrades (inr empty_store) None 10 (lit "login") None)
      as (_ & _ & _ & Hempty & _).
    apply (Hempty empty_store); reflexivity.
Defined.

(** The query command on the two stores: the exception goes through,
    and the empty result is printed as one line. *)
Example cmd_query_runs :
  cmd_query unreachable (lit "login") 8
  = inl (StoreError (lit "no such collection"))
  /\ cmd_query (inr empty_store) (lit "login") 8
     = inr (lit "{" ++ quote "q" ++ lit ":" ++ quote "login" ++ lit ","
            ++ quote "k" ++ lit ":8," ++ quote "results" ++ lit ":[]}").
Proof. split; vm_compute; reflexivity. Qed.

(** ** Test types *)

Definition demo_request (tt : string) : TestGenerationRequest :=
  {| test_description := lit "login works";
     test_type := lit tt;
     class_name := None;
     include_comments := true |}.

Definition demo_rag_request (tt : string) : RAGTestGenerationRequest :=
  {| rag_test_description := lit "login works";
     rag_test_type := lit tt;
     rag_class_name := None;
     rag_include_comments := true;
     rag_top_k := None |}.

(** A generation step that answers with the test type it was given. *)
Definition echo (tt : str) (_ : TestGenerationRequest) : raised + str := inr tt.

Definition echo_rag (tt : str) (_ : RAGTestGenerationRequest) : raised + str :=
  inr tt.

Lemma test_type_gate_witness :
  generate_test echo (demo_request "integration")
  = inl (HTTPException 400 TEST_TYPE_MESSAGE)
  /\ run echo (demo_request " UI ") = inr (lit "ui")
  /\ generate_test_with_rag echo_rag (demo_rag_request "e2e")
     = inl (HTTPException 400 TEST_TYPE_MESSAGE)
  /\ generate_test_with_rag echo_rag (demo_rag_request "Unit") = inr (lit "unit").
Proof.
  destruct (test_type_gate echo echo_rag (demo_request "integration")
              (demo_rag_request "e2e")) as (Hrej & _ & Hrag & _).
  destruct (test_type_gate echo echo_rag (demo_request " UI ")
              (demo_rag_request "Unit")) as (_ & Hok & _ & Hragok).
  split; [|split; [|split]].
  - apply Hrej. split; vm_compute; discriminate.
  - rewrite Hok; [reflexivity|]. right. vm_compute. reflexivity.
  - apply Hrag. split; vm_compute; discriminate.
  - rewrite Hragok; [reflexivity|]. left. vm_compute. reflexivity.
Defined.

(** ** The rest of the code on small inputs *)

(** X1, on a block with a nested pair of braces. *)
Lemma find_matching_brace_range_witness :
  (0 <= find_matching_brace (lit "{ a { b } c } d") 0 < 15)%Z
  /\ (nth_error (lit "{ a { b } c } d")
                (Z.to_nat (find_matching_brace (lit "{ a { b } c } d") 0))
      = Some RBRACE
      \/ find_matching_brace (lit "{ a { b } c } d") 0 = 14%Z).
Proof.
  destruct (find_matching_brace_range (lit "{ a { b } c } d") 0) as [Hin _].
  apply Hin. vm_compute. lia.
Defined.

Example find_matching_brace_nested :
  find_matching_brace (lit "{ a { b } c } d") 0 = 12%Z
  /\ find_matching_brace (lit "{ a { b } c") 0 = 10%Z
  /\ find_matching_brace [] 0 = (-1)%Z.
Proof. repeat split. Qed.

(** X3, on the block of one view. *)
Lemma screen_card_keeps_metadata_witness :
  exists block card,
    view_chunks (lit "A.swift")
                (VStr (lit "A"), lit "struct A: View { Button(x) }")
    = [block; card]
    /\ text block = lit "struct A: View { Button(x) }"
    /\ map fst (meta card) = map fst (meta block)
    /\ dict_get (meta card) (lit "kind") = Some (VStr (lit "screen_card"))
    /\ forall k, k <> lit "kind" ->
                 dict_get (meta card) k = dict_get (meta block) k.
Proof.
  apply (screen_card_keeps_metadata
           (rel_path := lit "A.swift")
           (nb := (VStr (lit "A"), lit "struct A: View { Button(x) }"))).
  left. reflexivity.
Defined.

(** X5, on the documents the run on [flagged_disk] writes. *)
Definition written_docs : list Document :=
  map snd (hd [] (store_writes (cmd_ingest quiet_store (demo_args false)
                                           flagged_disk))).

Lemma ingested_documents_assemble_witness :
  error (assembled written_docs) = None
  /\ accessibility_ids (assembled written_docs)
     = sorted_strs (id_union written_docs)
  /\ screens (assembled written_docs)
     = map VStr (sorted_strs (screen_union written_docs))
  /\ total_docs_retrieved (assembled written_docs) = length written_docs.
Proof.
  apply (ingested_documents_assemble quiet_store (demo_args false) flagged_disk).
  intros d Hd. unfold written_docs in Hd.
  apply in_map_iff in Hd as ([id d'] & Hsnd & Hin). cbn [snd] in Hsnd.
  subst d'.
  exists (hd [] (store_writes (cmd_ingest quiet_store (demo_args false)
                                      flagged_disk))), id.
  split; [|exact Hin]. vm_compute. left. reflexivity.
Defined.

Example written_docs_count :
  length written_docs = 3
  /\ screens (assembled written_docs) = [VStr (lit "A")].
Proof. split; vm_compute; reflexivity. Qed.

(** X8, on two identifiers. *)
Lemma identifiers_survive_the_store_witness :
  doc_ids [(lit "kind", VStr (lit "accessibility_map"));
           (lit "accessibility_ids", VStr (lit "login|pass"))]
  = inr [lit "login"; lit "pass"].
Proof.
  apply (identifiers_survive_the_store
           (items := [lit "login"; lit "pass"]) 200).
  - repeat constructor; discriminate.
  - reflexivity.
Defined.

(** X13, on an answer in a fence. *)
Lemma strip_code_fences_spec_witness :
  strip_code_fences
    (SWIFT_FENCE ++ [NEWLINE] ++ lit "import XCTest" ++ [NEWLINE] ++ FENCE)
  = lit "import XCTest"
  /\ strip_code_fences
       (FENCE ++ [NEWLINE] ++ lit "import XCTest" ++ [NEWLINE] ++ FENCE)
     = lit "import XCTest".
Proof.
  destruct (strip_code_fences_spec [] (lit "import XCTest")) as (_ & _ & Hf).
  apply Hf; [reflexivity|discriminate|reflexivity].
Defined.

(** A fence that is not closed, and one with another language: the
    first is removed; the name of the other language stays. *)
Example strip_code_fences_other :
  strip_code_fences (SWIFT_FENCE ++ [NEWLINE] ++ lit "import XCTest")
  = lit "import XCTest"
  /\ strip_code_fences
       (lit "```objc" ++ [NEWLINE] ++ lit "import XCTest" ++ [NEWLINE] ++ FENCE)
     = lit "objc" ++ [NEWLINE] ++ lit "import XCTest".
Proof. split; vm_compute; reflexivity. Qed.

(** X14, on a code without a test class and on one with it. *)
Lemma extract_class_name_result_witness :
  extract_class_name (lit "import XCTest") (lit "GeneratedUITests")
  = lit "GeneratedUITests"
  /\ extract_class_name (lit "final class LoginTests: XCTestCase {")
                        (lit "GeneratedUITests") <> [].
Proof.
  split.
  - apply (extract_class_name_result (lit "import XCTest")
                                     (lit "GeneratedUITests")).
    intros line Hin. vm_compute in Hin. destruct Hin as [<-|[]].
    reflexivity.
  - apply (extract_class_name_result
             (lit "final class LoginTests: XCTestCase {")
             (lit "GeneratedUITests")).
    discriminate.
Defined.

Example extract_class_name_found :
  extract_class_name (lit "final class LoginTests: XCTestCase {")
                     (lit "GeneratedUITests") = lit "LoginTests"
  /\ extract_class_name (lit "class Helper {} // see class A: XCTestCase")
                        (lit "GeneratedUITests") = lit "Helper {} // see class A".
Proof. split; vm_compute; reflexivity. Qed.

(** X18, on a batch whose first request has a test type that is not
    one of the two. *)
Lemma batch_errors_are_http_witness :
  exists req code detail,
    nth_error [demo_request "integration"; demo_request "ui"] 0 = Some req
    /\ HTTPException 400 TEST_TYPE_MESSAGE = HTTPException code detail
    /\ (str_in (normalise (test_type req)) TEST_TYPES = false ->
        code = 400%Z /\ detail = TEST_TYPE_MESSAGE).
Proof.
  apply (batch_errors_are_http echo
           [demo_request "integration"; demo_request "ui"]
           (error_entry 0 (HTTPException 400 TEST_TYPE_MESSAGE)
                        (demo_request "integration"))).
  vm_compute. left. reflexivity.
Defined.

(** X19, on an answer of the model in a fence. *)
Definition demo_invoke (_ _ : str) : raised + str :=
  inr (SWIFT_FENCE ++ [NEWLINE]
       ++ lit "final class LoginTests: XCTestCase { }" ++ [NEWLINE] ++ FENCE).

Definition demo_response : TestGenerationResponse :=
  {| swift_code := lit "final class LoginTests: XCTestCase { }";
     response_test_type := lit "ui";
     response_class_name := lit "LoginTests";
     response_metadata :=
       {| provider := lit "langchain_anthropic";
          model := lit "model";
          has_context := false;
          context_provided := false;
          contract_validation :=
            Some (validation_results
                    (lit "final class LoginTests: XCTestCase { }")) |} |}.

Lemma run_response_invariants_witness :
  response_test_type demo_response = normalise (lit " UI ")
  /\ (response_test_type demo_response = lit "unit"
      \/ response_test_type demo_response = lit "ui")
  /\ response_class_name demo_response <> []
  /\ strip (swift_code demo_response) = swift_code demo_response
  /\ (response_test_type demo_response = lit "unit" ->
      contract_validation (response_metadata demo_response) = None)
  /\ (response_test_type demo_response = lit "ui" ->
      contract_validation (response_metadata demo_response)
      = Some (validation_results (swift_code demo_response)))
  /\ (context_provided (response_metadata demo_response) = true ->
      has_context (response_metadata demo_response) = true).
Proof.
  apply (run_response_invariants (lit "unit prompt") (lit "ui prompt")
           (lit "model") demo_invoke None (demo_request " UI ")).
  vm_compute. reflexivity.
Defined.
